(** * svelte-microanimations: the keyframe translator, the animation driver
      and the microanimation action of [src/lib/actions.ts]

    The development embeds the TypeScript of [actions.ts] as Rocq functions.

    - JavaScript strings are [string]s of 8-bit characters; [toUpperCase]
      and [trim] are the ASCII parts of the JavaScript operations.
    - JavaScript numbers are binary64 numbers: the finite ones are the
      rationals they stand for, and every arithmetic operation rounds its
      exact result to the nearest binary64 number, to the even one of two
      that are as near, and to an infinity past the largest.  The sign of
      zero is not kept: [-0] prints as [0], and the only zero that the code
      divides by, the [n] of a sampling loop, divides the counter [0].
    - The checks that the platform makes on the arguments it is given (the
      range of an observer's threshold, the sign of a duration) are not
      part of [src/] and are not modelled.
    - A [Keyframe] (a JavaScript object used as a property-to-value map) is
      a [gmap string string].
    - A call that raises is [Throw]; a loop that never exits is [Diverge].
    - The DOM, the native animations, the intersection observers and the
      pending [await tick()] continuations are the fields of [World]; the
      closure variables of one [microanimation] call are its [orch] field. *)

From Stdlib Require Import QArith Qround String Ascii ZArith Lia.
From stdpp Require Import gmap strings list pretty.

(** ** Completions of a call *)

Inductive exn : Type :=
| TypeError        (* reading a property of [undefined] *)
| NotFoundError.   (* [removeChild] of a node that is not a child *)

Inductive completion (A : Type) : Type :=
| Normal (a : A)
| Throw (e : exn)
| Diverge.

Arguments Normal {A} a.
Arguments Throw {A} e.
Arguments Diverge {A}.

Definition cbind {A B : Type} (c : completion A) (k : A -> completion B)
  : completion B :=
  match c with
  | Normal a => k a
  | Throw e => Throw e
  | Diverge => Diverge
  end.

Definition cmap {A B : Type} (f : A -> B) (c : completion A) : completion B :=
  cbind c (fun a => Normal (f a)).

(** [cmapM f l] calls [f] on the elements of [l] from left to right and
    stops at the first call that does not return. *)
Fixpoint cmapM {A B : Type} (f : A -> completion B) (l : list A)
  : completion (list B) :=
  match l with
  | [] => Normal []
  | a :: l' => cbind (f a) (fun b => cmap (cons b) (cmapM f l'))
  end.

(** ** JavaScript numbers *)

Module JS.

Inductive number : Type :=
| Fin (q : Q)
| NaN
| PInf
| NInf.

Definition of_Z (z : Z) : number := Fin (inject_Z z).

Definition is_zero (q : Q) : bool := (Qnum q =? 0)%Z.
Definition is_neg (q : Q) : bool := (Qnum q <? 0)%Z.

(** *** Rounding to binary64 *)

(** [2^e], and [1] for a negative [e] *)
Definition shift (e : Z) : Z := (2 ^ Z.max 0 e)%Z.

(** [floor (log2 (a / b))] for a positive [a] *)
Definition ilog2 (a : Z) (b : positive) : Z :=
  let l := (Z.log2 a - Z.log2 (Zpos b))%Z in
  if (Zpos b * shift l <=? a * shift (- l))%Z then l else (l - 1)%Z.

(** The integer nearest to [n / d], the even one of two that are as near. *)
Definition round_half_even (n d : Z) : Z :=
  let f := (n / d)%Z in
  match (2 * (n mod d) ?= d)%Z with
  | Lt => f
  | Gt => (f + 1)%Z
  | Eq => if Z.even f then f else (f + 1)%Z
  end.

(** [m * 2^e], in lowest terms *)
Definition ldexp (m e : Z) : Q :=
  Qred (Qmake (m * shift e) (Z.to_pos (shift (- e)))).

(** The binary64 number nearest to [q]: a significand [m] of at most 53
    bits at the exponent [e] of [q], which is at least [-1074]; an
    infinity when the rounded value reaches [2^1024]. *)
Definition round64 (q : Q) : number :=
  let a := Z.abs (Qnum q) in
  if (a =? 0)%Z then Fin 0
  else
    let e := Z.max (ilog2 a (Qden q) - 52) (-1074) in
    let m := round_half_even (a * shift (- e)) (Zpos (Qden q) * shift e) in
    if (2 ^ 1024 <=? m * 2 ^ e)%Z then (if is_neg q then NInf else PInf)
    else Fin (ldexp (Z.sgn (Qnum q) * m) e).

(** *** Arithmetic *)

Definition nadd (a b : number) : number :=
  match a, b with
  | NaN, _ | _, NaN => NaN
  | Fin x, Fin y => round64 (Qplus x y)
  | PInf, NInf | NInf, PInf => NaN
  | PInf, _ | _, PInf => PInf
  | NInf, _ | _, NInf => NInf
  end.

Definition nneg (a : number) : number :=
  match a with
  | Fin x => Fin (Qopp x)
  | NaN => NaN
  | PInf => NInf
  | NInf => PInf
  end.

Definition nsub (a b : number) : number :=
  match a, b with
  | Fin x, Fin y => round64 (Qminus x y)
  | _, _ => nadd a (nneg b)
  end.

Definition ndiv (a b : number) : number :=
  match a, b with
  | NaN, _ | _, NaN => NaN
  | Fin x, Fin y =>
      if is_zero y
      then (if is_zero x then NaN else if is_neg x then NInf else PInf)
      else round64 (Qdiv x y)
  | Fin _, _ => Fin 0
  | PInf, Fin y => if is_neg y then NInf else PInf
  | NInf, Fin y => if is_neg y then PInf else NInf
  | _, _ => NaN
  end.

(** [a <= b] *)
Definition nle (a b : number) : bool :=
  match a, b with
  | NaN, _ | _, NaN => false
  | Fin x, Fin y => Qle_bool x y
  | NInf, _ | _, PInf => true
  | _, _ => false
  end.

(** [a >= b] *)
Definition nge (a b : number) : bool := nle b a.


(** [a * b] *)
Definition nmul (a b : number) : number :=
  match a, b with
  | NaN, _ | _, NaN => NaN
  | Fin x, Fin y => round64 (Qmult x y)
  | Fin x, PInf | PInf, Fin x =>
      if is_zero x then NaN else if is_neg x then NInf else PInf
  | Fin x, NInf | NInf, Fin x =>
      if is_zero x then NaN else if is_neg x then PInf else NInf
  | PInf, PInf | NInf, NInf => PInf
  | PInf, NInf | NInf, PInf => NInf
  end.

(** [Math.ceil]: exact, the numbers from [2^52] on being integers. *)
Definition ceil (a : number) : number :=
  match a with
  | Fin x => of_Z (Qceiling x)
  | _ => a
  end.

(** Truthiness of a number: [0] and [NaN] are falsy. *)
Definition truthy (a : number) : bool :=
  match a with
  | Fin x => negb (is_zero x)
  | NaN => false
  | _ => true
  end.

(** [a || b] on numbers *)
Definition or_else (a b : number) : number := if truthy a then a else b.

(** [svelte/easing]'s [linear] *)
Definition linear (t : number) : number := t.

(** *** Strings *)

(** [s.split(sep)] for a separator of one character *)
Fixpoint split (sep : ascii) (s : string) : list string :=
  match s with
  | EmptyString => [EmptyString]
  | String c rest =>
      if Ascii.eqb c sep then EmptyString :: split sep rest
      else match split sep rest with
           | [] => [String c EmptyString]
           | w :: ws => String c w :: ws
           end
  end.

(** White space of [trim]: tab, line feed, vertical tab, form feed,
    carriage return and space. *)
Definition is_space (c : ascii) : bool :=
  let n := nat_of_ascii c in
  ((9 <=? n)%nat && (n <=? 13)%nat) || (n =? 32)%nat.

Fixpoint trim_start (s : string) : string :=
  match s with
  | EmptyString => EmptyString
  | String c rest => if is_space c then trim_start rest else s
  end.

Fixpoint trim_end (s : string) : string :=
  match s with
  | EmptyString => EmptyString
  | String c rest =>
      match trim_end rest with
      | EmptyString => if is_space c then EmptyString else String c EmptyString
      | r => String c r
      end
  end.

(** [s.trim()] *)
Definition trim (s : string) : string := trim_end (trim_start s).

(** [c.toUpperCase()] for one character *)
Definition to_upper (c : ascii) : ascii :=
  let n := nat_of_ascii c in
  if ((97 <=? n)%nat && (n <=? 122)%nat)%bool then ascii_of_nat (n - 32) else c.

(** [s.startsWith(p)] *)
Definition starts_with (p s : string) : bool := String.prefix p s.

(** [strs.join('')] *)
Definition join (strs : list string) : string := fold_right String.append "" strs.

End JS.

Import JS.

(** ** The keyframe translator *)

Abbreviation Keyframe := (gmap string string).

(** [(word) => word[0].toUpperCase() + word.slice(1)]: [word[0]] of the
    empty string is [undefined], and [undefined.toUpperCase()] raises. *)
Definition capitalize (word : string) : completion string :=
  match word with
  | EmptyString => Throw TypeError
  | String c rest => Normal (String (to_upper c) rest)
  end.

Definition css_property_to_camelcase (property : string) : completion string :=
  if String.eqb property "float" then Normal "cssFloat"
  else if String.eqb property "offset" then Normal "cssOffset"
  else if starts_with "--" property then Normal property
  else
    let parts := split "-" property in
    match parts with
    | [] => Throw TypeError
    | [p0] => Normal p0
    | p0 :: rest =>
        cbind (cmapM capitalize rest) (fun words =>
        Normal (p0 +:+ join words))
    end.

(** The body of the [for (const part of parts)] loop of [css_to_keyframe];
    [break] returns the keyframe built so far. *)
Fixpoint css_to_keyframe_loop (parts : list string) (keyframe : Keyframe)
  : completion Keyframe :=
  match parts with
  | [] => Normal keyframe
  | part :: parts' =>
      match split ":" part with
      | [] => Normal keyframe
      | property :: fields =>
          match property, fields with
          | EmptyString, _ => Normal keyframe
          | _, [] => Normal keyframe
          | _, value :: _ =>
              cbind (css_property_to_camelcase (trim property))
                (fun formatted_property =>
                   css_to_keyframe_loop parts'
                     (<[formatted_property := trim value]> keyframe))
          end
      end
  end.

Definition css_to_keyframe (css : string) : completion Keyframe :=
  css_to_keyframe_loop (split ";" css) ∅.

(** ** Transition descriptors *)

(** [TransitionConfig] of [svelte/transition]; [tick] names the user's
    callback, whose calls are recorded in the page's [calls]. *)
Record TransitionConfig : Type := {
  delay : option number;
  duration : option number;
  easing : option (number -> number);
  css : option (number -> number -> string);
  tick : option nat
}.

(** The defaults of
    [const { delay = 0, duration = 400, css, tick: tickFn, easing = linear } = options]. *)
Definition delay_of (options : TransitionConfig) : number :=
  default (of_Z 0) (delay options).
Definition duration_of (options : TransitionConfig) : number :=
  default (of_Z 400) (duration options).
Definition easing_of (options : TransitionConfig) : number -> number :=
  default linear (easing options).

(** [css_to_keyframe(transition.css?.(0, 1) || '')] *)
Definition getFirstKeyframeOfTransition (transition : TransitionConfig)
  : completion Keyframe :=
  css_to_keyframe
    (match css transition with
     | Some f => f (of_Z 0) (of_Z 1)
     | None => ""
     end).

(** ** Sampling *)

(** [1000 / 60] *)
Definition frame : number := ndiv (of_Z 1000) (of_Z 60).

(** [for (let i = 0; i <= n; i += 1) { const t = easing(i / n);
      const styles = css(t, 1 - t); keyframes.push(css_to_keyframe(styles)); }]
    Out of [fuel] the loop has not exited. *)
Fixpoint sample_forward (fuel : nat) (css : number -> number -> string)
  (easing : number -> number) (n i : number) (keyframes : list Keyframe)
  : completion (list Keyframe) :=
  match fuel with
  | O => Diverge
  | S fuel' =>
      if nle i n then
        let t := easing (ndiv i n) in
        let styles := css t (nsub (of_Z 1) t) in
        cbind (css_to_keyframe styles) (fun kf =>
        sample_forward fuel' css easing n (nadd i (of_Z 1)) (keyframes ++ [kf]))
      else Normal keyframes
  end.

(** [for (let i = n; i >= 0; i -= 1) { ... }] with the same body *)
Fixpoint sample_backward (fuel : nat) (css : number -> number -> string)
  (easing : number -> number) (n i : number) (keyframes : list Keyframe)
  : completion (list Keyframe) :=
  match fuel with
  | O => Diverge
  | S fuel' =>
      if nge i (of_Z 0) then
        let t := easing (ndiv i n) in
        let styles := css t (nsub (of_Z 1) t) in
        cbind (css_to_keyframe styles) (fun kf =>
        sample_backward fuel' css easing n (nsub i (of_Z 1)) (keyframes ++ [kf]))
      else Normal keyframes
  end.

(** Iterations after which a loop counting between [0] and [n] by steps of
    one has exited, when it exits at all. *)
Definition loop_fuel (n : number) : nat :=
  match n with
  | Fin q => Z.to_nat (Qfloor q) + 2
  | _ => 1
  end.

(** The main-stage keyframes of [animate] (lines 96-102). *)
Definition main_keyframes (css : number -> number -> string)
  (easing : number -> number) (duration : number)
  : completion (list Keyframe) :=
  let n := ceil (ndiv (or_else duration (of_Z 0)) frame) in
  sample_forward (loop_fuel n) css easing n (of_Z 0) [].

(** The keyframes of [start_hover_animation] (lines 232-237). *)
Definition hover_keyframes (css : number -> number -> string)
  (easing : number -> number) (duration : number)
  : completion (list Keyframe) :=
  let n := ceil (ndiv duration frame) in
  sample_backward (loop_fuel n) css easing n n [].

(** ** The page: DOM, native animations, observers, microtasks *)

Inductive Mode : Type := viewport | hover | immediate.

#[global] Instance Mode_eq_dec : EqDecision Mode.
Proof. solve_decision. Defined.

(** The parameter objects of the transition catalog ([GenericTransitionParams]
    and its extensions); [no_params] is [{}]. *)
Record TransitionParams : Type := {
  p_delay : option number;
  p_duration : option number;
  p_easing : option (number -> number);
  p_x : option number;
  p_y : option number;
  p_start : option number;
  p_opacity : option number;
  p_degrees : option number
}.

Definition no_params : TransitionParams :=
  {| p_delay := None; p_duration := None; p_easing := None; p_x := None;
     p_y := None; p_start := None; p_opacity := None; p_degrees := None |}.

(** The animated node as the code reads it: its inline [style] and the
    values [sheet] that the style sheets and layout give to the properties
    its inline style leaves unset. *)
Record NodeState : Type := {
  style : Keyframe;
  sheet : string -> string
}.

(** [getComputedStyle(node)[property]] *)
Definition computed (n : NodeState) (property : string) : string :=
  match style n !! property with
  | Some v => v
  | None => sheet n property
  end.

(** [style[property] = value]: the empty string removes the declaration. *)
Definition set_property (property value : string) (st : Keyframe) : Keyframe :=
  if String.eqb value "" then delete property st else <[property := value]> st.

(** [Object.assign(target, source)] on style declarations *)
Definition assign (target source : Keyframe) : Keyframe :=
  merge (fun s t => match s with
                    | Some v => if String.eqb v "" then None else Some v
                    | None => t
                    end) source target.

Definition Transition : Type := NodeState -> TransitionParams -> TransitionConfig.

(** The children of the node's parent. *)
Inductive elem : Type :=
| TheNode
| PlaceholderEl (id : nat)
| Sibling (id : nat).

#[global] Instance elem_eq_dec : EqDecision elem.
Proof. solve_decision. Defined.

(** [parent.insertBefore(child, reference)] *)
Fixpoint insert_before (child reference : elem) (l : list elem) : list elem :=
  match l with
  | [] => []
  | x :: l' =>
      if decide (x = reference) then child :: x :: l'
      else x :: insert_before child reference l'
  end.

Definition remove_elem (child : elem) (l : list elem) : list elem :=
  filter (fun x => x ≠ child) l.

(** [parent.replaceChild(newChild, oldChild)]: [newChild] leaves the place
    it had and takes that of [oldChild]. *)
Definition replace_child (newChild oldChild : elem) (l : list elem) : list elem :=
  (fun x => if decide (x = oldChild) then newChild else x)
    <$> remove_elem newChild l.

Inductive Fill : Type := FillNone | FillForwards | FillBoth.

(** The options object of [element.animate]; an absent member is [None]. *)
Record KeyframeAnimationOptions : Type := {
  o_duration : number;
  o_delay : option number;
  o_fill : Fill;
  o_easing : option string
}.

(** The [onFinish] argument of [animate]. *)
Inductive Callback : Type :=
| OrchFinish            (* the closure of [start_animation], lines 213-218 *)
| UserCallback (id : nat).

(** The functions stored in [animation.onfinish]. *)
Inductive Handler : Type :=
| NoHandler                          (* never assigned *)
| DelayFinished (run : nat)          (* lines 92-114 *)
| MainFinished (run : nat)           (* lines 110-113 *)
| Neutral                            (* [() => {}] *)
| ReverseFinished (cb : Callback)    (* lines 126-128 *)
| HoverFinished (tickFn : option nat). (* lines 247-252 *)

Inductive PlayState : Type := Running | Finished | Idle.

#[global] Instance Callback_eq_dec : EqDecision Callback.
Proof. solve_decision. Defined.

#[global] Instance Handler_eq_dec : EqDecision Handler.
Proof. solve_decision. Defined.

#[global] Instance PlayState_eq_dec : EqDecision PlayState.
Proof. solve_decision. Defined.

(** A native [Animation]. *)
Record NativeAnimation : Type := {
  keyframes : list Keyframe;
  options : KeyframeAnimationOptions;
  effect : bool;            (* [false] once [effect = null] *)
  playState : PlayState;
  reversed : bool;          (* negative playback rate *)
  onfinish : Handler
}.

(** The closure of one [animate] call. *)
Record Run : Type := {
  run_options : TransitionConfig;
  run_onFinish : Callback;
  run_animation : nat       (* [let animation] *)
}.

Record Observer : Type := {
  target : option nat;      (* the observed placeholder *)
  obs_threshold : number;
  connected : bool
}.

(** [start_animation] suspended at one of its two [await tick()]. *)
Inductive Continuation : Type :=
| AfterFirstTick (config : TransitionConfig)    (* resumes at line 202 *)
| AfterSecondTick (config : TransitionConfig).  (* resumes at line 208 *)

(** Calls of the user's callbacks. *)
Inductive Call : Type :=
| CallTick (run : option nat) (fn : nat) (t u : number)
| CallOnFinish (run : nat) (cb : Callback)
| CallReverseFinish (cb : Callback).

(** The closure variables of [microanimation]. *)
Record Orch : Type := {
  transition : Transition;
  params : TransitionParams;
  threshold : number;
  once : bool;
  mode : Mode;
  observer : option nat;
  animated : bool;
  animation : option nat;
  hoverAnimation : option nat;
  placeholder : option nat;
  hovered : bool;
  initialStyles : option NodeState
}.

Record World : Type := {
  node : NodeState;
  dom : list elem;
  placeholders : list Keyframe;      (* the styles of the created placeholders *)
  enter_listener : bool;             (* [mouseenter] -> [handle_hover_animation] *)
  leave_listener : bool;             (* [mouseleave] -> [reverse_animation] *)
  observers : list Observer;
  animations : list NativeAnimation;
  runs : list Run;
  pending : list Continuation;
  calls : list Call;
  errors : list exn;                 (* uncaught in handlers and promises *)
  hung : bool;                       (* a handler never returned *)
  orch : Orch
}.

(** *** Field updates *)

Definition with_node (x : NodeState) (w : World) : World :=
  {| node := x; dom := dom w; placeholders := placeholders w;
     enter_listener := enter_listener w; leave_listener := leave_listener w;
     observers := observers w; animations := animations w; runs := runs w;
     pending := pending w; calls := calls w; errors := errors w;
     hung := hung w; orch := orch w |}.

Definition with_dom (x : list elem) (w : World) : World :=
  {| node := node w; dom := x; placeholders := placeholders w;
     enter_listener := enter_listener w; leave_listener := leave_listener w;
     observers := observers w; animations := animations w; runs := runs w;
     pending := pending w; calls := calls w; errors := errors w;
     hung := hung w; orch := orch w |}.

Definition with_placeholders (x : list Keyframe) (w : World) : World :=
  {| node := node w; dom := dom w; placeholders := x;
     enter_listener := enter_listener w; leave_listener := leave_listener w;
     observers := observers w; animations := animations w; runs := runs w;
     pending := pending w; calls := calls w; errors := errors w;
     hung := hung w; orch := orch w |}.

Definition with_listeners (enter leave : bool) (w : World) : World :=
  {| node := node w; dom := dom w; placeholders := placeholders w;
     enter_listener := enter; leave_listener := leave;
     observers := observers w; animations := animations w; runs := runs w;
     pending := pending w; calls := calls w; errors := errors w;
     hung := hung w; orch := orch w |}.

Definition with_observers (x : list Observer) (w : World) : World :=
  {| node := node w; dom := dom w; placeholders := placeholders w;
     enter_listener := enter_listener w; leave_listener := leave_listener w;
     observers := x; animations := animations w; runs := runs w;
     pending := pending w; calls := calls w; errors := errors w;
     hung := hung w; orch := orch w |}.

Definition with_animations (x : list NativeAnimation) (w : World) : World :=
  {| node := node w; dom := dom w; placeholders := placeholders w;
     enter_listener := enter_listener w; leave_listener := leave_listener w;
     observers := observers w; animations := x; runs := runs w;
     pending := pending w; calls := calls w; errors := errors w;
     hung := hung w; orch := orch w |}.

Definition with_runs (x : list Run) (w : World) : World :=
  {| node := node w; dom := dom w; placeholders := placeholders w;
     enter_listener := enter_listener w; leave_listener := leave_listener w;
     observers := observers w; animations := animations w; runs := x;
     pending := pending w; calls := calls w; errors := errors w;
     hung := hung w; orch := orch w |}.

Definition with_pending (x : list Continuation) (w : World) : World :=
  {| node := node w; dom := dom w; placeholders := placeholders w;
     enter_listener := enter_listener w; leave_listener := leave_listener w;
     observers := observers w; animations := animations w; runs := runs w;
     pending := x; calls := calls w; errors := errors w;
     hung := hung w; orch := orch w |}.

Definition with_calls (x : list Call) (w : World) : World :=
  {| node := node w; dom := dom w; placeholders := placeholders w;
     enter_listener := enter_listener w; leave_listener := leave_listener w;
     observers := observers w; animations := animations w; runs := runs w;
     pending := pending w; calls := x; errors := errors w;
     hung := hung w; orch := orch w |}.

Definition with_errors (x : list exn) (w : World) : World :=
  {| node := node w; dom := dom w; placeholders := placeholders w;
     enter_listener := enter_listener w; leave_listener := leave_listener w;
     observers := observers w; animations := animations w; runs := runs w;
     pending := pending w; calls := calls w; errors := x;
     hung := hung w; orch := orch w |}.

Definition with_hung (x : bool) (w : World) : World :=
  {| node := node w; dom := dom w; placeholders := placeholders w;
     enter_listener := enter_listener w; leave_listener := leave_listener w;
     observers := observers w; animations := animations w; runs := runs w;
     pending := pending w; calls := calls w; errors := errors w;
     hung := x; orch := orch w |}.

Definition with_orch (x : Orch) (w : World) : World :=
  {| node := node w; dom := dom w; placeholders := placeholders w;
     enter_listener := enter_listener w; leave_listener := leave_listener w;
     observers := observers w; animations := animations w; runs := runs w;
     pending := pending w; calls := calls w; errors := errors w;
     hung := hung w; orch := x |}.

Definition set_observer (x : option nat) (o : Orch) : Orch :=
  {| transition := transition o; params := params o; threshold := threshold o;
     once := once o; mode := mode o; observer := x; animated := animated o;
     animation := animation o; hoverAnimation := hoverAnimation o;
     placeholder := placeholder o; hovered := hovered o;
     initialStyles := initialStyles o |}.

Definition set_animated (x : bool) (o : Orch) : Orch :=
  {| transition := transition o; params := params o; threshold := threshold o;
     once := once o; mode := mode o; observer := observer o; animated := x;
     animation := animation o; hoverAnimation := hoverAnimation o;
     placeholder := placeholder o; hovered := hovered o;
     initialStyles := initialStyles o |}.

Definition set_animation (x : option nat) (o : Orch) : Orch :=
  {| transition := transition o; params := params o; threshold := threshold o;
     once := once o; mode := mode o; observer := observer o;
     animated := animated o; animation := x;
     hoverAnimation := hoverAnimation o; placeholder := placeholder o;
     hovered := hovered o; initialStyles := initialStyles o |}.

Definition set_hoverAnimation (x : option nat) (o : Orch) : Orch :=
  {| transition := transition o; params := params o; threshold := threshold o;
     once := once o; mode := mode o; observer := observer o;
     animated := animated o; animation := animation o; hoverAnimation := x;
     placeholder := placeholder o; hovered := hovered o;
     initialStyles := initialStyles o |}.

Definition set_placeholder (x : option nat) (o : Orch) : Orch :=
  {| transition := transition o; params := params o; threshold := threshold o;
     once := once o; mode := mode o; observer := observer o;
     animated := animated o; animation := animation o;
     hoverAnimation := hoverAnimation o; placeholder := x;
     hovered := hovered o; initialStyles := initialStyles o |}.

Definition set_hovered (x : bool) (o : Orch) : Orch :=
  {| transition := transition o; params := params o; threshold := threshold o;
     once := once o; mode := mode o; observer := observer o;
     animated := animated o; animation := animation o;
     hoverAnimation := hoverAnimation o; placeholder := placeholder o;
     hovered := x; initialStyles := initialStyles o |}.

Definition set_initialStyles (x : option NodeState) (o : Orch) : Orch :=
  {| transition := transition o; params := params o; threshold := threshold o;
     once := once o; mode := mode o; observer := observer o;
     animated := animated o; animation := animation o;
     hoverAnimation := hoverAnimation o; placeholder := placeholder o;
     hovered := hovered o; initialStyles := x |}.

(** The five configuration variables, as [update] assigns them. *)
Definition set_config (tr : Transition) (ps : TransitionParams) (th : number)
  (on : bool) (md : Mode) (o : Orch) : Orch :=
  {| transition := tr; params := ps; threshold := th; once := on; mode := md;
     observer := observer o; animated := animated o; animation := animation o;
     hoverAnimation := hoverAnimation o; placeholder := placeholder o;
     hovered := hovered o; initialStyles := initialStyles o |}.

Definition set_playState (x : PlayState) (a : NativeAnimation) : NativeAnimation :=
  {| keyframes := keyframes a; options := options a; effect := effect a;
     playState := x; reversed := reversed a; onfinish := onfinish a |}.

Definition set_effect (x : bool) (a : NativeAnimation) : NativeAnimation :=
  {| keyframes := keyframes a; options := options a; effect := x;
     playState := playState a; reversed := reversed a; onfinish := onfinish a |}.

Definition set_reversed (x : bool) (a : NativeAnimation) : NativeAnimation :=
  {| keyframes := keyframes a; options := options a; effect := effect a;
     playState := playState a; reversed := x; onfinish := onfinish a |}.

Definition set_onfinish (x : Handler) (a : NativeAnimation) : NativeAnimation :=
  {| keyframes := keyframes a; options := options a; effect := effect a;
     playState := playState a; reversed := reversed a; onfinish := x |}.

Definition set_run_animation (x : nat) (r : Run) : Run :=
  {| run_options := run_options r; run_onFinish := run_onFinish r;
     run_animation := x |}.

Definition set_connected (x : bool) (o : Observer) : Observer :=
  {| target := target o; obs_threshold := obs_threshold o; connected := x |}.

(** ** Effects: state and exceptions *)

Definition M (A : Type) : Type := World -> World * completion A.

Definition ret {A : Type} (a : A) : M A := fun w => (w, Normal a).

Definition bind {A B : Type} (m : M A) (k : A -> M B) : M B :=
  fun w =>
    match m w with
    | (w', Normal a) => k a w'
    | (w', Throw e) => (w', Throw e)
    | (w', Diverge) => (w', Diverge)
    end.

Notation "x <~ m ;; k" := (bind m (fun x => k))
  (at level 100, m at next level, right associativity).
Notation "m ;;; k" := (bind m (fun _ => k))
  (at level 100, right associativity).

Definition lift {A : Type} (c : completion A) : M A := fun w => (w, c).
Definition get : M World := fun w => (w, Normal w).
Definition modify (f : World -> World) : M unit := fun w => (f w, Normal tt).
Definition modify_orch (f : Orch -> Orch) : M unit :=
  modify (fun w => with_orch (f (orch w)) w).
Definition throw {A : Type} (e : exn) : M A := lift (Throw e).

(** The call of an [async] function: what it raises rejects its promise,
    and the caller goes on. *)
Definition async (m : M unit) : M unit :=
  fun w =>
    match m w with
    | (w', Throw e) => (with_errors (errors w' ++ [e]) w', Normal tt)
    | r => r
    end.

Definition update_animation (id : nat) (f : NativeAnimation -> NativeAnimation)
  : M unit :=
  modify (fun w => with_animations (alter f id (animations w)) w).

Definition log (c : Call) : M unit :=
  modify (fun w => with_calls (calls w ++ [c]) w).

(** *** The platform's animation primitive *)

(** [element.animate(keyframes, options)]: the new animation plays. *)
Definition native_animate (kfs : list Keyframe) (o : KeyframeAnimationOptions)
  : M nat :=
  w <~ get ;;
  modify (fun w =>
            with_animations
              (animations w ++
                 [{| keyframes := kfs; options := o; effect := true;
                     playState := Running; reversed := false;
                     onfinish := NoHandler |}]) w) ;;;
  ret (length (animations w)).

(** [animation.cancel()] *)
Definition native_cancel (id : nat) : M unit :=
  update_animation id (set_playState Idle).

(** [animation.reverse()]: the playback rate is negated and the animation
    plays. *)
Definition reversed_state (a : NativeAnimation) : NativeAnimation :=
  set_playState Running (set_reversed (negb (reversed a)) a).

Definition native_reverse (id : nat) : M unit :=
  update_animation id reversed_state.

(** ** The animation driver: [animate] and its handle *)

Module Driver.

(** Lines 79-90 and 116: the delay-stage animation is created, and the
    closure that [animation.onfinish] receives is [DelayFinished]. *)
Definition animate (options : TransitionConfig) (onFinish : Callback) : M nat :=
  keyframes <~ match css options with
               | Some f =>
                   styles <~ lift (css_to_keyframe (f (of_Z 0) (of_Z 1))) ;;
                   ret [styles; styles]
               | None => ret []
               end ;;
  a <~ native_animate keyframes
         {| o_duration := delay_of options; o_delay := None;
            o_fill := FillNone; o_easing := None |} ;;
  w <~ get ;;
  let r := length (runs w) in
  modify (with_runs
            (runs w ++ [{| run_options := options; run_onFinish := onFinish;
                           run_animation := a |}])) ;;;
  update_animation a (set_onfinish (DelayFinished r)) ;;;
  ret r.

(** The caller's [onFinish]. *)
Definition call_callback (cb : Callback) : M unit :=
  match cb with
  | OrchFinish =>
      modify_orch (fun o =>
        let o' := set_animation None o in
        match mode o' with
        | hover => set_animated false o'
        | _ => o'
        end)
  | UserCallback _ => ret tt
  end.

(** Lines 92-114, the [onfinish] of the delay stage. *)
Definition delay_finished (r : nat) : M unit :=
  w <~ get ;;
  match runs w !! r with
  | None => ret tt
  | Some run =>
      let opts := run_options run in
      keyframes <~ match css opts with
                   | Some f =>
                       lift (main_keyframes f (easing_of opts) (duration_of opts))
                   | None => ret []
                   end ;;
      a <~ native_animate keyframes
             {| o_duration := or_else (duration_of opts) (of_Z 0);
                o_delay := None; o_fill := FillForwards; o_easing := None |} ;;
      modify (fun w => with_runs (alter (set_run_animation a) r (runs w)) w) ;;;
      update_animation a (set_onfinish (MainFinished r))
  end.

(** Lines 110-113, the [onfinish] of the main stage. *)
Definition main_finished (r : nat) : M unit :=
  w <~ get ;;
  match runs w !! r with
  | None => ret tt
  | Some run =>
      match tick (run_options run) with
      | Some fn => log (CallTick (Some r) fn (of_Z 1) (of_Z 0))
      | None => ret tt
      end ;;;
      log (CallOnFinish r (run_onFinish run)) ;;;
      call_callback (run_onFinish run)
  end.

(** Lines 117-123 *)
Definition abort (r : nat) : M unit :=
  w <~ get ;;
  match runs w !! r with
  | None => ret tt
  | Some run =>
      let a := run_animation run in
      native_cancel a ;;;
      update_animation a (set_effect false) ;;;
      update_animation a (set_onfinish Neutral)
  end.

(** Lines 124-131 *)
Definition reverse (r : nat) (onFinish : Callback) : M unit :=
  w <~ get ;;
  match runs w !! r with
  | None => ret tt
  | Some run =>
      let a := run_animation run in
      update_animation a (set_onfinish (ReverseFinished onFinish)) ;;;
      native_reverse a
  end.

End Driver.

(** The function stored in [onfinish] is called. *)
Definition fire (h : Handler) : M unit :=
  match h with
  | NoHandler => ret tt
  | Neutral => ret tt
  | DelayFinished r => Driver.delay_finished r
  | MainFinished r => Driver.main_finished r
  | ReverseFinished cb => log (CallReverseFinish cb) ;;; Driver.call_callback cb
  | HoverFinished tickFn =>
      match tickFn with
      | Some fn => log (CallTick None fn (of_Z 1) (of_Z 0))
      | None => ret tt
      end
  end.

(** A playing animation reaches its end: it is finished and its [onfinish]
    is called. Neither a finished nor a cancelled animation finishes. *)
Definition finish (id : nat) : M unit :=
  w <~ get ;;
  match animations w !! id with
  | Some a =>
      match playState a with
      | Running => update_animation id (set_playState Finished) ;;; fire (onfinish a)
      | _ => ret tt
      end
  | None => ret tt
  end.

(** ** The orchestrator: [microanimation] *)

(** The argument of [microanimation] and of [update]; an omitted member is
    [None]. *)
Record MicroanimationParameters : Type := {
  new_transition : Transition;
  new_params : option TransitionParams;
  new_threshold : option number;
  new_once : option bool;
  new_mode : option Mode
}.

Definition set_style (st : Keyframe) (n : NodeState) : NodeState :=
  {| style := st; sheet := sheet n |}.

Definition placeholder_style (w : World) (p : nat) : Keyframe :=
  default ∅ (placeholders w !! p).

(** [observer.disconnect()] *)
Definition disconnect (o : nat) : M unit :=
  modify (fun w => with_observers (alter (set_connected false) o (observers w)) w).

(** [await tick()]: the rest of [start_animation] waits in the queue. *)
Definition suspend (k : Continuation) : M unit :=
  modify (fun w => with_pending (pending w ++ [k]) w).

(** [node.parentNode?.removeChild(placeholder)] *)
Definition remove_placeholder : M unit :=
  w <~ get ;;
  if bool_decide (TheNode ∈ dom w) then
    match placeholder (orch w) with
    | None => throw TypeError
    | Some p =>
        if bool_decide (PlaceholderEl p ∈ dom w)
        then modify (fun w => with_dom (remove_elem (PlaceholderEl p) (dom w)) w)
        else throw NotFoundError
    end
  else ret tt.

(** [start_animation], lines 193-201 and 206: up to its first [await]. *)
Definition start_animation : M unit :=
  async (
    w <~ get ;;
    if animated (orch w) && once (orch w) then ret tt
    else
      modify_orch (set_animated true) ;;;
      let config := transition (orch w) (node w) (params (orch w)) in
      match mode (orch w) with
      | viewport => remove_placeholder ;;; suspend (AfterFirstTick config)
      | _ => suspend (AfterSecondTick config)
      end).

(** [start_animation] goes on after an [await tick()]: lines 202-206 after
    the first, lines 208-218 after the second. *)
Definition resume (k : Continuation) : M unit :=
  async (
    match k with
    | AfterFirstTick config =>
        w <~ get ;;
        match placeholder (orch w) with
        | None => throw TypeError
        | Some p =>
            let display := default "" (placeholder_style w p !! "display") in
            modify (fun w => with_node
                      (set_style (set_property "display" display (style (node w)))
                         (node w)) w) ;;;
            first <~ lift (getFirstKeyframeOfTransition config) ;;
            modify (fun w => with_node
                      (set_style (assign (style (node w)) first) (node w)) w) ;;;
            suspend (AfterSecondTick config)
        end
    | AfterSecondTick config =>
        w <~ get ;;
        match animation (orch w) with
        | Some r => Driver.abort r
        | None => ret tt
        end ;;;
        r <~ Driver.animate config OrchFinish ;;
        modify_orch (set_animation (Some r))
    end).

(** Lines 221-253 *)
Definition start_hover_animation : M unit :=
  w <~ get ;;
  modify_orch (set_initialStyles (Some (node w))) ;;;
  let transitionCompiled := transition (orch w) (node w) (params (orch w)) in
  keyframes <~ match css transitionCompiled with
               | Some f =>
                   lift (hover_keyframes f (easing_of transitionCompiled)
                           (duration_of transitionCompiled))
               | None => ret []
               end ;;
  a <~ native_animate keyframes
         {| o_duration := duration_of transitionCompiled;
            o_delay := Some (delay_of transitionCompiled);
            o_fill := FillBoth; o_easing := Some "linear" |} ;;
  modify_orch (set_hoverAnimation (Some a)) ;;;
  update_animation a (set_onfinish (HoverFinished (tick transitionCompiled))).

(** Lines 255-260 *)
Definition handle_hover_animation : M unit :=
  w <~ get ;;
  if negb (hovered (orch w)) then
    modify_orch (set_hovered true) ;;;
    start_hover_animation
  else ret tt.

(** Lines 262-272 *)
Definition reverse_animation : M unit :=
  w <~ get ;;
  if negb (hovered (orch w)) then ret tt
  else
    modify_orch (set_hovered false) ;;;
    modify_orch (set_animated false) ;;;
    match hoverAnimation (orch w) with
    | Some a =>
        native_reverse a ;;;
        update_animation a (set_onfinish Neutral)
    | None => ret tt
    end.

(** The properties that the placeholder takes from the node's computed
    style (lines 280-290). *)
Definition placeholder_properties : list string :=
  ["width"; "minWidth"; "height"; "minHeight"; "margin"; "padding"; "border";
   "boxSizing"; "display"].

(** The style of a new placeholder: the listed properties of the node's
    computed style. *)
Definition placeholder_style_of (n : NodeState) : Keyframe :=
  assign ∅ (list_to_map ((fun k => (k, computed n k)) <$> placeholder_properties)).

(** [node.style.display = 'none'] *)
Definition hidden (n : NodeState) : NodeState :=
  set_style (set_property "display" "none" (style n)) n.

(** Lines 274-317 *)
Definition setup : M unit :=
  w <~ get ;;
  match mode (orch w) with
  | viewport =>
      let p := length (placeholders w) in
      let st := placeholder_style_of (node w) in
      modify (fun w => with_placeholders (placeholders w ++ [st]) w) ;;;
      modify_orch (set_placeholder (Some p)) ;;;
      modify (fun w =>
                if bool_decide (TheNode ∈ dom w)
                then with_dom (insert_before (PlaceholderEl p) TheNode (dom w)) w
                else w) ;;;
      modify (fun w => with_node (hidden (node w)) w) ;;;
      let o := length (observers w) in
      modify (fun w => with_observers
                (observers w ++
                   [{| target := None; obs_threshold := threshold (orch w);
                       connected := false |}]) w) ;;;
      modify_orch (set_observer (Some o)) ;;;
      modify (fun w => with_observers
                (alter (fun ob => {| target := Some p;
                                     obs_threshold := obs_threshold ob;
                                     connected := true |}) o (observers w)) w)
  | hover => modify (with_listeners true true)
  | immediate => start_animation
  end.

(** The callback of the intersection observer, lines 298-306;
    [isIntersecting] is that of the first entry. *)
Definition observer_callback (isIntersecting : bool) : M unit :=
  if isIntersecting then
    start_animation ;;;
    w <~ get ;;
    if once (orch w) then
      match observer (orch w) with
      | Some o => disconnect o
      | None => throw TypeError
      end
    else ret tt
  else ret tt.

(** Lines 322-332 *)
Definition destroy : M unit :=
  w <~ get ;;
  match animation (orch w) with
  | Some r => Driver.abort r
  | None => ret tt
  end ;;;
  match observer (orch w) with
  | Some o => disconnect o
  | None => ret tt
  end ;;;
  modify (with_listeners false false) ;;;
  match mode (orch w) with
  | viewport =>
      match placeholder (orch w) with
      | None => throw TypeError
      | Some p =>
          modify (fun w =>
                    if bool_decide (PlaceholderEl p ∈ dom w)
                    then with_dom (replace_child TheNode (PlaceholderEl p) (dom w)) w
                    else w)
      end
  | _ => ret tt
  end.

(** [0.5] *)
Definition half : number := Fin (1 # 2).

(** Lines 333-344 *)
Definition update (newParams : MicroanimationParameters) : M unit :=
  w <~ get ;;
  match animation (orch w) with
  | Some r => Driver.abort r
  | None => ret tt
  end ;;;
  match observer (orch w) with
  | Some o => disconnect o
  | None => ret tt
  end ;;;
  modify_orch (set_config (new_transition newParams)
                 (default no_params (new_params newParams))
                 (default half (new_threshold newParams))
                 (default true (new_once newParams))
                 (default viewport (new_mode newParams))) ;;;
  setup.

(** Lines 175-191 and 319: the closure variables are initialised and
    [setup] runs. *)
Definition init_orch (p : MicroanimationParameters) : Orch :=
  {| transition := new_transition p;
     params := default no_params (new_params p);
     threshold := default half (new_threshold p);
     once := default true (new_once p);
     mode := default viewport (new_mode p);
     observer := None; animated := false; animation := None;
     hoverAnimation := None; placeholder := None; hovered := false;
     initialStyles := None |}.

Definition microanimation (p : MicroanimationParameters) : M unit :=
  modify (with_orch (init_orch p)) ;;; setup.

(** ** Events *)

Inductive Event : Type :=
| Intersect (o : nat) (isIntersecting : bool) (* the callback of observer [o] *)
| MouseEnter
| MouseLeave
| Microtask                        (* the oldest pending [await] resumes *)
| AnimationFinish (id : nat)       (* a native animation reaches its end *)
| Destroy
| Update (p : MicroanimationParameters)
| HandleAbort (r : nat)            (* [handle.abort()] of a run *)
| HandleReverse (r : nat) (cb : Callback).

Definition handle (e : Event) : M unit :=
  w <~ get ;;
  match e with
  | Intersect o b =>
      match observers w !! o with
      | Some ob => if connected ob then observer_callback b else ret tt
      | None => ret tt
      end
  | MouseEnter => if enter_listener w then handle_hover_animation else ret tt
  | MouseLeave => if leave_listener w then reverse_animation else ret tt
  | Microtask =>
      match pending w with
      | [] => ret tt
      | k :: ks => modify (with_pending ks) ;;; resume k
      end
  | AnimationFinish id => finish id
  | Destroy => destroy
  | Update p => update p
  | HandleAbort r => Driver.abort r
  | HandleReverse r cb => Driver.reverse r cb
  end.

(** One turn of the event loop. What a handler raises is reported and the
    page goes on; a handler that never returns hangs the page. *)
Definition step (e : Event) (w : World) : World :=
  if hung w then w
  else
    match handle e w with
    | (w', Normal _) => w'
    | (w', Throw x) => with_errors (errors w' ++ [x]) w'
    | (w', Diverge) => with_hung true w'
    end.

Definition run (es : list Event) (w : World) : World :=
  fold_left (fun w e => step e w) es w.

(** A page on which nothing has been attached yet. *)
Definition idle_orch : Orch :=
  {| transition := fun _ _ => {| delay := None; duration := None;
                                 easing := None; css := None; tick := None |};
     params := no_params; threshold := half; once := true; mode := immediate;
     observer := None; animated := false; animation := None;
     hoverAnimation := None; placeholder := None; hovered := false;
     initialStyles := None |}.

Definition fresh_page (n : NodeState) (children : list elem) : World :=
  {| node := n; dom := children; placeholders := [];
     enter_listener := false; leave_listener := false; observers := [];
     animations := []; runs := []; pending := []; calls := []; errors := [];
     hung := false; orch := idle_orch |}.

(** The world just after [microanimation(node, p)] on page [w0]. *)
Definition attach (p : MicroanimationParameters) (w0 : World) : World :=
  fst (microanimation p w0).

(** The node is rendered: it is in the document and not [display: none]. *)
Definition visible (w : World) : bool :=
  bool_decide (TheNode ∈ dom w)
  && negb (String.eqb (computed (node w) "display") "none").

(** ** The rules of the specification, stated on their own *)

(** The first letter of a segment upper-cased, the rest kept. *)
Definition upper_first (seg : string) : string :=
  match seg with
  | EmptyString => EmptyString
  | String c rest => String (to_upper c) rest
  end.

(** The property-name rule: [float], [offset], custom properties, and
    otherwise the hyphen-separated segments joined, each segment after the
    first with its first letter upper-cased. *)
Definition camelcase_rule (property : string) : string :=
  if String.eqb property "float" then "cssFloat"
  else if String.eqb property "offset" then "cssOffset"
  else if starts_with "--" property then property
  else match split "-" property with
       | [] => EmptyString
       | first :: segments => first +:+ join (upper_first <$> segments)
       end.

(** The same conversion read off the characters: a hyphen is dropped and
    the character after it is upper-cased; every other character is kept. *)
Fixpoint camel_scan (s : string) : string :=
  match s with
  | EmptyString => EmptyString
  | String c rest =>
      if Ascii.eqb c "-" then
        match rest with
        | EmptyString => EmptyString
        | String d rest' => String (to_upper d) (camel_scan rest')
        end
      else String c (camel_scan rest)
  end.

(** Every hyphen-separated segment after the first has a first letter. *)
Definition later_segments_nonempty (property : string) : bool :=
  forallb (fun seg => negb (String.eqb seg "")) (tail (split "-" property)).

Fixpoint has_char (c : ascii) (s : string) : bool :=
  match s with
  | EmptyString => false
  | String d rest => Ascii.eqb d c || has_char c rest
  end.

(** The text before the first [sep] and the text after it. *)
Fixpoint cut (sep : ascii) (s : string) : option (string * string) :=
  match s with
  | EmptyString => None
  | String c rest =>
      if Ascii.eqb c sep then Some (EmptyString, rest)
      else match cut sep rest with
           | Some (a, b) => Some (String c a, b)
           | None => None
           end
  end.

(** The [property: value] pairs that precede the first part missing a
    property (nothing before the colon) or a value (no colon). *)
Fixpoint leading_pairs (parts : list string) : list (string * string) :=
  match parts with
  | [] => []
  | part :: parts' =>
      match cut ":" part with
      | Some (String c p, v) => (String c p, v) :: leading_pairs parts'
      | _ => []
      end
  end.

(** The property-to-value mapping of a list of pairs; a later pair
    replaces an earlier one of the same name. *)
Definition mapping_of (pairs : list (string * string)) : Keyframe :=
  fold_left (fun kf pv => <[camelcase_rule (trim pv.1) := trim pv.2]> kf) pairs ∅.

(** A pair that the translator converts as the rule says: the name has a
    first letter in every later segment, and the value holds no colon. *)
Definition plain_pair (pv : string * string) : bool :=
  (starts_with "--" (trim pv.1) || later_segments_nonempty (trim pv.1))
  && negb (has_char ":" pv.2).

(** The number of frames of a duration, [ceil(duration / (1000 / 60))]. *)
Definition frames (duration : number) : number := ceil (ndiv duration frame).

(** [0, 1, ..., n] *)
Definition upto (n : Z) : list Z := Z.of_nat <$> seq 0 (Z.to_nat (n + 1)).

(** The translation of [css(t, 1 - t)] at [t = easing(i / n)]. *)
Definition sample_at (css : number -> number -> string)
  (easing : number -> number) (n i : Z) : completion Keyframe :=
  let t := easing (ndiv (of_Z i) (of_Z n)) in
  css_to_keyframe (css t (nsub (of_Z 1) t)).

(** ** The stages of a run, stated on their own *)

(** The keyframes of the delay stage (lines 83-87): the translated
    [css(0, 1)] twice, or none without a [css] function. *)
Definition delay_stage_keyframes (options : TransitionConfig)
  : completion (list Keyframe) :=
  match css options with
  | Some f => cmap (fun styles => [styles; styles])
                (css_to_keyframe (f (of_Z 0) (of_Z 1)))
  | None => Normal []
  end.

(** The delay-stage animation of run [r], as [animate] leaves it. *)
Definition delay_stage_animation (options : TransitionConfig)
  (kfs : list Keyframe) (r : nat) : NativeAnimation :=
  {| keyframes := kfs;
     options := {| o_duration := delay_of options; o_delay := None;
                   o_fill := FillNone; o_easing := None |};
     effect := true; playState := Running; reversed := false;
     onfinish := DelayFinished r |}.

Definition main_stage_keyframes (options : TransitionConfig)
  : completion (list Keyframe) :=
  match css options with
  | Some f => main_keyframes f (easing_of options) (duration_of options)
  | None => Normal []
  end.

(** The main-stage animation of run [r], as the delay stage's [onfinish]
    leaves it. *)
Definition main_stage_animation (options : TransitionConfig)
  (kfs : list Keyframe) (r : nat) : NativeAnimation :=
  {| keyframes := kfs;
     options := {| o_duration := or_else (duration_of options) (of_Z 0);
                   o_delay := None; o_fill := FillForwards; o_easing := None |};
     effect := true; playState := Running; reversed := false;
     onfinish := MainFinished r |}.

Definition hover_stage_keyframes (options : TransitionConfig)
  : completion (list Keyframe) :=
  match css options with
  | Some f => hover_keyframes f (easing_of options) (duration_of options)
  | None => Normal []
  end.

(** The animation that [start_hover_animation] leaves. *)
Definition hover_stage_animation (options : TransitionConfig)
  (kfs : list Keyframe) : NativeAnimation :=
  {| keyframes := kfs;
     options := {| o_duration := duration_of options;
                   o_delay := Some (delay_of options);
                   o_fill := FillBoth; o_easing := Some "linear" |};
     effect := true; playState := Running; reversed := false;
     onfinish := HoverFinished (tick options) |}.

(** The call of the [tick] hook at the end of run [r], if the descriptor
    has one. *)
Definition tick_call (r : nat) (rn : Run) : list Call :=
  match tick (run_options rn) with
  | Some fn => [CallTick (Some r) fn (of_Z 1) (of_Z 0)]
  | None => []
  end.

(** An animation after [abort]: cancelled, without effect, its [onfinish]
    neutral. *)
Definition aborted_state (a : NativeAnimation) : NativeAnimation :=
  set_onfinish Neutral (set_effect false (set_playState Idle a)).

(** The calls of the completion callbacks of run [r]: its [tick(1, 0)] and
    its [onFinish]. *)
Definition completion_of (r : nat) (c : Call) : bool :=
  match c with
  | CallTick (Some r') _ _ _ => bool_decide (r' = r)
  | CallOnFinish r' _ => bool_decide (r' = r)
  | _ => false
  end.

Definition completions (r : nat) (w : World) : list Call :=
  filter (fun c => completion_of r c = true) (calls w).

(** The run whose stage an [onfinish] closes. *)
Definition handler_run (h : Handler) : option nat :=
  match h with
  | DelayFinished r => Some r
  | MainFinished r => Some r
  | _ => None
  end.

(** A playing animation that closes a stage of a run is the current
    animation of that run. *)
Definition stages_current (w : World) : Prop :=
  ∀ a an r, animations w !! a = Some an → playState an = Running →
            handler_run (onfinish an) = Some r →
            ∃ rn, runs w !! r = Some rn ∧ run_animation rn = a.

(** No playing animation closes a stage of run [r]. *)
Definition silenced (r : nat) (w : World) : Prop :=
  r < length (runs w)
  ∧ ∀ a an, animations w !! a = Some an → playState an = Running →
            handler_run (onfinish an) ≠ Some r.

(** The events of one configuration: all but [update] and the direct use
    of a run's handle. *)
Definition fixed_configuration (e : Event) : bool :=
  match e with
  | Update _ | HandleAbort _ | HandleReverse _ _ => false
  | _ => true
  end.

(** No hover listener is attached and no hover run has started. *)
Definition quiet (w : World) : Prop :=
  enter_listener w = false ∧ leave_listener w = false
  ∧ hovered (orch w) = false.

(** A connected observer is the one in the [observer] variable. *)
Definition observer_current (w : World) : Prop :=
  ∀ o ob, observers w !! o = Some ob → connected ob = true →
          observer (orch w) = Some o.

(** In viewport mode the [placeholder] variable is assigned. *)
Definition placeholder_assigned (w : World) : Prop :=
  mode (orch w) = viewport → is_Some (placeholder (orch w)).

(** Every animation of [w'] that closes the main stage of run [r] did so
    in [w]. *)
Definition no_new_main (r : nat) (w w' : World) : Prop :=
  ∀ id an, animations w' !! id = Some an → onfinish an = MainFinished r →
           ∃ an0, animations w !! id = Some an0 ∧ onfinish an0 = MainFinished r.

(** [silenced r] and the completion calls of run [r] are kept. *)
Definition keeps_silence (r : nat) (w w' : World) : Prop :=
  silenced r w → silenced r w' ∧ completions r w' = completions r w.

(** [stages_current] is kept. *)
Definition keeps_current (w w' : World) : Prop :=
  stages_current w → stages_current w'.

(** A set [hovered] flag stays set. *)
Definition keeps_hovered (w w' : World) : Prop :=
  hovered (orch w) = true → hovered (orch w') = true.

(** ** The steps of [update], stated on their own *)

(** The in-flight animation, if any, is aborted. *)
Definition abort_in_flight (w : World) : World :=
  match animation (orch w) with
  | Some r => fst (Driver.abort r w)
  | None => w
  end.

(** The observer, if any, is disconnected. *)
Definition disconnect_current (w : World) : World :=
  match observer (orch w) with
  | Some o => with_observers (alter (set_connected false) o (observers w)) w
  | None => w
  end.

(** The five configuration variables are replaced, with the defaults for
    the omitted members. *)
Definition reseeded (p : MicroanimationParameters) (o : Orch) : Orch :=
  set_config (new_transition p) (default no_params (new_params p))
    (default half (new_threshold p)) (default true (new_once p))
    (default viewport (new_mode p)) o.

(** The world that the viewport branch of [setup] leaves. *)
Definition viewport_setup (w : World) : World :=
  let p := length (placeholders w) in
  with_observers
    (observers w ++ [{| target := Some p; obs_threshold := threshold (orch w);
                        connected := true |}])
    (with_orch
       (set_observer (Some (length (observers w)))
          (set_placeholder (Some p) (orch w)))
       (with_node (hidden (node w))
          (with_dom (if bool_decide (TheNode ∈ dom w)
                     then insert_before (PlaceholderEl p) TheNode (dom w)
                     else dom w)
             (with_placeholders (placeholders w ++ [placeholder_style_of (node w)])
                w)))).

(** [destroy()] then a fresh [microanimation(node, p)] on the same page. *)
Definition reattach (p : MicroanimationParameters) (w : World) : World :=
  attach p (step Destroy w).

(** The configuration and the hover state are kept. *)
Definition keeps_configuration (w w' : World) : Prop :=
  transition (orch w') = transition (orch w)
  ∧ params (orch w') = params (orch w)
  ∧ threshold (orch w') = threshold (orch w)
  ∧ once (orch w') = once (orch w)
  ∧ mode (orch w') = mode (orch w).

(** The hover listeners and [hovered] are not set. *)
Definition keeps_quiet (w w' : World) : Prop := quiet w → quiet w'.

(** [observer_current] is kept. *)
Definition keeps_observer (w w' : World) : Prop :=
  observer_current w → observer_current w'.

(** Outside hover mode a set [animated] flag stays set. *)
Definition keeps_animated (w w' : World) : Prop :=
  mode (orch w') = mode (orch w)
  ∧ (mode (orch w) ≠ hover → animated (orch w) = true →
     animated (orch w') = true).

(** [animated] is not newly set. *)
Definition no_trigger (w w' : World) : Prop :=
  animated (orch w') = true → animated (orch w) = true.

(** [placeholder_assigned] is kept. *)
Definition keeps_assigned (w w' : World) : Prop :=
  mode (orch w') = mode (orch w)
  ∧ (is_Some (placeholder (orch w)) → is_Some (placeholder (orch w'))).

(** No observer is connected. *)
Definition unobserved (w : World) : Prop :=
  ∀ o ob, observers w !! o = Some ob → connected ob = false.

(** [unobserved] is kept. *)
Definition keeps_unobserved (w w' : World) : Prop :=
  unobserved w → unobserved w'.

(** ** Relations kept by every operation *)

(** [m] relates every world to the world it leaves. *)
Definition preserves {A : Type} (R : World -> World -> Prop) (m : M A) : Prop :=
  ∀ w, R w (fst (m w)).

Class Frame (R : World -> World -> Prop) : Prop := {
  frame_refl : ∀ w, R w w;
  frame_trans : ∀ w1 w2 w3, R w1 w2 → R w2 w3 → R w1 w3;
  frame_errors : ∀ w x, R w (with_errors x w);
  frame_hung : ∀ w, R w (with_hung true w)
}.

(** ** A page and transitions to run the model on *)

(** [10^e], and [1] for a negative [e] *)
Definition shift10 (e : Z) : Z := (10 ^ Z.max 0 e)%Z.

(** [floor (log10 (a / b))] for a positive [a]: an estimate from the binary
    logarithm, which is at most one off, put right. *)
Definition ilog10 (a : Z) (b : positive) : Z :=
  let est := (ilog2 a b * 1233 / 4096)%Z in
  let reaches e := (Zpos b * shift10 e <=? a * shift10 (- e))%Z in
  if reaches (est + 1)%Z then (est + 1)%Z
  else if reaches est then est else (est - 1)%Z.

(** [s * 10^e] *)
Definition decimal (s e : Z) : Q := (s * shift10 e) # Z.to_pos (shift10 (- e)).

Definition reads_as (x : number) (q : Q) : bool :=
  match x with
  | Fin y => Qeq_bool y q
  | _ => false
  end.

(** The digits [s] and the exponent [n] of the text of [a / b]: the least
    number [k] of digits, from [k] on, for which some [s] of [k] digits has
    [s * 10^(n - k)] read back as [a / b], and of two such [s] the nearer
    to [a / b]. *)
Fixpoint shortest (fuel : nat) (k : Z) (a : Z) (b : positive) (n : Z) : Z * Z :=
  let e := (n - k)%Z in
  let num := (a * shift10 (- e))%Z in
  let den := (Zpos b * shift10 e)%Z in
  let near := round_half_even num den in
  let far := if (near =? num / den)%Z then (num / den + 1)%Z else (num / den)%Z in
  let reads s := reads_as (round64 (decimal s e)) (a # b) in
  let result s := if (s =? 10 ^ k)%Z then ((s / 10)%Z, (n + 1)%Z) else (s, n) in
  match fuel with
  | O => result near
  | S fuel' =>
      if reads near then result near
      else if reads far then result far
      else shortest fuel' (k + 1)%Z a b n
  end.

Fixpoint zeros (n : nat) : string :=
  match n with
  | O => ""
  | S n' => String "0" (zeros n')
  end.

(** The text of the positive number [a / b], laid out as [Number::toString]
    lays it out: an integer, a decimal fraction, or a significand and an
    exponent from [1e21] on and below [1e-6]. *)
Definition show_positive (a : Z) (b : positive) : string :=
  let '(s, n) := shortest 17 1 a b (ilog10 a b + 1) in
  let digits := pretty s in
  let k := Z.of_nat (String.length digits) in
  if ((k <=? n) && (n <=? 21))%Z then digits +:+ zeros (Z.to_nat (n - k))
  else if ((0 <? n) && (n <=? 21))%Z then
    substring 0 (Z.to_nat n) digits +:+ "."
    +:+ substring (Z.to_nat n) (Z.to_nat (k - n)) digits
  else if ((-6 <? n) && (n <=? 0))%Z then
    "0." +:+ zeros (Z.to_nat (- n)) +:+ digits
  else
    (if (k =? 1)%Z then digits
     else substring 0 1 digits +:+ "."
          +:+ substring 1 (Z.to_nat (k - 1)) digits)
    +:+ "e" +:+ (if (n - 1 <? 0)%Z then "-" else "+")
    +:+ pretty (Z.abs (n - 1)).

(** The text of a number in a template literal: the shortest decimal that
    reads back as the number. *)
Definition show (x : number) : string :=
  match x with
  | Fin q =>
      if is_zero q then "0"
      else if is_neg q then "-" +:+ show_positive (- Qnum q) (Qden q)
      else show_positive (Qnum q) (Qden q)
  | NaN => "NaN"
  | PInf => "Infinity"
  | NInf => "-Infinity"
  end.

(** The identity fade of the specification, a fade with a [tick]
    callback: [css: (t) => `opacity:${t}`]. *)
Definition identity_fade : Transition :=
  fun _ ps =>
    {| delay := p_delay ps; duration := p_duration ps; easing := p_easing ps;
       css := Some (fun t _ => "opacity:" +:+ show t); tick := Some 7 |}.

Definition timing (delay duration : option number) : TransitionParams :=
  {| p_delay := delay; p_duration := duration; p_easing := None; p_x := None;
     p_y := None; p_start := None; p_opacity := None; p_degrees := None |}.

(** A node that the style sheets display as a block. *)
Definition block_node : NodeState :=
  {| style := ∅;
     sheet := fun property =>
                if String.eqb property "display" then "block" else "auto" |}.

Definition page : World := fresh_page block_node [Sibling 0; TheNode; Sibling 1].

(** [{ transition: identity_fade, params: { duration: 40 } }] with the
    given mode. *)
Definition fade_in (m : option Mode) : MicroanimationParameters :=
  {| new_transition := identity_fade;
     new_params := Some (timing None (Some (of_Z 40)));
     new_threshold := None; new_once := None; new_mode := m |}.

Definition opacity (v : string) : Keyframe := {[ "opacity" := v ]}.

(** The descriptor of the fade over 40 ms, and the page just after
    [animate] is called on it. *)
Definition fade_options : TransitionConfig :=
  identity_fade block_node (timing None (Some (of_Z 40))).

Definition fade_run : World :=
  fst (Driver.animate fade_options (UserCallback 0) page).

(** The page after the fade is attached in hover mode. *)
Definition hover_page : World := attach (fade_in (Some hover)) page.

(** ** Definitions for the properties beyond the specification *)

(** A lower-case letter, as [toUpperCase] tests it. *)
Definition is_lower (c : ascii) : bool :=
  let n := nat_of_ascii c in ((97 <=? n)%nat && (n <=? 122)%nat)%bool.

Fixpoint all_lower (s : string) : bool :=
  match s with
  | EmptyString => true
  | String c rest => is_lower c && all_lower rest
  end.

(** The test of the translator's loop, negated: the part has a property
    and a value ([!property || value === undefined] is false). *)
Definition well_formed (part : string) : bool :=
  match split ":" part with
  | property :: _ :: _ => negb (String.eqb property "")
  | _ => false
  end.

(** The native animations after [animation?.abort()]. *)
Definition aborted_animations (w : World) : list NativeAnimation :=
  match animation (orch w) with
  | Some r =>
      match runs w !! r with
      | Some rn => alter aborted_state (run_animation rn) (animations w)
      | None => animations w
      end
  | None => animations w
  end.

(** The world that [start_animation] leaves when it goes on after its
    second [await] and the delay-stage keyframes are [kfs]: the run in
    flight is aborted and a new run is in the [animation] variable. *)
Definition started (config : TransitionConfig) (kfs : list Keyframe)
  (w : World) : World :=
  with_orch (set_animation (Some (length (runs w))) (orch w))
    (with_runs
       (runs w ++ [{| run_options := config; run_onFinish := OrchFinish;
                      run_animation := length (animations w) |}])
       (with_animations
          (aborted_animations w
             ++ [delay_stage_animation config kfs (length (runs w))]) w)).

(** The node after lines 202-203: its display is that of the placeholder
    and the first keyframe is assigned to its style. *)
Definition shown (display : string) (first : Keyframe) (n : NodeState)
  : NodeState :=
  set_style (assign (set_property "display" display (style n)) first) n.

(** The observers after [observer?.disconnect()]. *)
Definition disconnected_observers (w : World) : list Observer :=
  match observer (orch w) with
  | Some o => alter (set_connected false) o (observers w)
  | None => observers w
  end.

(** The children of the parent after [destroy]: in viewport mode the node
    takes the place of the placeholder, if the placeholder is there. *)
Definition destroyed_dom (w : World) : list elem :=
  match mode (orch w), placeholder (orch w) with
  | viewport, Some p =>
      if bool_decide (PlaceholderEl p ∈ dom w)
      then replace_child TheNode (PlaceholderEl p) (dom w)
      else dom w
  | _, _ => dom w
  end.

(** The world that [destroy] leaves. *)
Definition destroyed (w : World) : World :=
  {| node := node w; dom := destroyed_dom w; placeholders := placeholders w;
     enter_listener := false; leave_listener := false;
     observers := disconnected_observers w;
     animations := aborted_animations w; runs := runs w;
     pending := pending w; calls := calls w; errors := errors w;
     hung := hung w; orch := orch w |}.

(** The events that come from the page: intersection entries and pointer
    events. *)
Definition from_page (e : Event) : bool :=
  match e with
  | Intersect _ _ | MouseEnter | MouseLeave => true
  | _ => false
  end.

(** Nothing listens: no hover listener is attached and no observer is
    connected. *)
Definition detached (w : World) : Prop :=
  enter_listener w = false ∧ leave_listener w = false ∧ unobserved w.

(** In viewport mode on a node that has a parent: while the placeholder is
    in the document nothing has started, and once it is out at most one
    start is on its way or done. *)
Definition single_start (w : World) : Prop :=
  mode (orch w) = viewport ∧ placeholder (orch w) = Some 0 ∧ TheNode ∈ dom w
  ∧ if bool_decide (PlaceholderEl 0 ∈ dom w)
    then pending w = [] ∧ runs w = []
    else length (pending w) + length (runs w) ≤ 1.

(** What [single_start] reads is kept. *)
Definition keeps_start (w w' : World) : Prop :=
  mode (orch w') = mode (orch w) ∧ placeholder (orch w') = placeholder (orch w)
  ∧ dom w' = dom w ∧ pending w' = pending w
  ∧ length (runs w') = length (runs w).

(** The events that reach an attached action: all but the direct use of
    a run's handle, which [microanimation] keeps to itself. *)
Definition public (e : Event) : bool :=
  match e with
  | HandleAbort _ | HandleReverse _ _ => false
  | _ => true
  end.

(** No animation has the [onfinish] that [reverse] installs. *)
Definition no_reverse (w : World) : Prop :=
  ∀ a an cb, animations w !! a = Some an → onfinish an ≠ ReverseFinished cb.

Definition keeps_no_reverse (w w' : World) : Prop :=
  no_reverse w → no_reverse w'.

(** The [animation] variable and the number of runs are kept. *)
Definition keeps_variable (w w' : World) : Prop :=
  animation (orch w') = animation (orch w)
  ∧ length (runs w') = length (runs w).

(** Every run but the one in the [animation] variable is silenced. *)
Definition superseded_silent (w : World) : Prop :=
  ∀ r, r < length (runs w) → animation (orch w) ≠ Some r → silenced r w.

Definition one_live_run (w : World) : Prop :=
  stages_current w ∧ no_reverse w ∧ superseded_silent w.

(** [{ transition: identity_fade, once, mode: 'immediate' }] *)
Definition immediately (once : bool) : MicroanimationParameters :=
  {| new_transition := identity_fade; new_params := None;
     new_threshold := None; new_once := Some once;
     new_mode := Some immediate |}.

(** Outside viewport mode the page is as it was before the action was
    attached: the node, the children of its parent and the placeholders
    are those of the fresh page, and what waits for a tick waits for its
    second one. *)
Definition bare (n : NodeState) (children : list elem) (w : World) : Prop :=
  mode (orch w) ≠ viewport ∧ node w = n ∧ dom w = children
  ∧ placeholders w = []
  ∧ ∀ k, k ∈ pending w → ∃ config, k = AfterSecondTick config.

(** What [bare] reads is kept. *)
Definition keeps_bare (w w' : World) : Prop :=
  mode (orch w') = mode (orch w) ∧ node w' = node w ∧ dom w' = dom w
  ∧ placeholders w' = placeholders w ∧ pending w' = pending w.

(** In viewport mode after the first tick of the trigger: the placeholder
    is out of the document, what waits for a tick waits for its second
    one, and the node is [n]. *)
Definition settled (n : NodeState) (w : World) : Prop :=
  mode (orch w) = viewport ∧ placeholder (orch w) = Some 0
  ∧ TheNode ∈ dom w ∧ (PlaceholderEl 0 ∉ dom w)
  ∧ (∀ k, k ∈ pending w → ∃ config, k = AfterSecondTick config)
  ∧ node w = n.

(** In viewport mode with [once], after the trigger has fired and its ticks
    have run: [animated] is set, nothing waits for a tick, the node is [n]
    and [k] runs have started. *)
Definition spent (n : NodeState) (k : nat) (w : World) : Prop :=
  mode (orch w) = viewport ∧ once (orch w) = true ∧ animated (orch w) = true
  ∧ quiet w ∧ pending w = [] ∧ node w = n ∧ length (runs w) = k.

(** The page after the fade has been attached in viewport mode, an
    intersecting entry has been delivered and both ticks of the trigger
    have run: the node is shown and its delay stage plays. *)
Definition shown_page : World :=
  run [Intersect 0 true; Microtask; Microtask] (attach (fade_in None) page).

(** ** The transition catalog of [src/lib/transitions.ts] *)

(** The white space of the template literals: a line feed and twelve
    spaces before each declaration, a line feed and eight spaces at the
    end. *)
Definition indent : string := String "010" "            ".
Definition closing : string := String "010" "        ".

(** [x ? x * u : 0] for an optional member [x] *)
Definition scaled (x : option number) (u : number) : number :=
  match x with
  | Some x => if truthy x then nmul x u else of_Z 0
  | None => of_Z 0
  end.

Section Catalog.

(** The conversions of the language: [+s] on a string and the text of a
    number in a template literal. *)
Context (to_number : string → number) (to_string : number → string).

(** [+style.opacity] *)
Definition target_opacity (node : NodeState) : number :=
  to_number (computed node "opacity").

(** [style.transform === 'none' ? '' : style.transform] *)
Definition base_transform (node : NodeState) : string :=
  if String.eqb (computed node "transform") "none" then ""
  else computed node "transform".

Definition fadeSlide : Transition := fun node params =>
  let target_opacity := target_opacity node in
  let transform := base_transform node in
  {| delay := p_delay params; duration := p_duration params;
     easing := p_easing params;
     css := Some (fun t u =>
       indent +:+ "opacity: " +:+ to_string (nmul target_opacity t) +:+ ";"
       +:+ indent +:+ "transform: " +:+ transform +:+ " translate3d("
       +:+ to_string (scaled (p_x params) u) +:+ "px, "
       +:+ to_string (scaled (p_y params) u) +:+ "px, 0);" +:+ closing);
     tick := None |}.

Definition popScale : Transition := fun node params =>
  let target_opacity := target_opacity node in
  let transform := base_transform node in
  let start := default (round64 (95 # 100)) (p_start params) in
  let opacity := default (of_Z 0) (p_opacity params) in
  {| delay := p_delay params; duration := p_duration params;
     easing := p_easing params;
     css := Some (fun t _ =>
       indent +:+ "transform: " +:+ transform +:+ " scale("
       +:+ to_string (nadd start (nmul (nsub (of_Z 1) start) t)) +:+ ");"
       +:+ indent +:+ "opacity: "
       +:+ to_string (nadd opacity (nmul (nsub target_opacity opacity) t)) +:+ ";"
       +:+ closing);
     tick := None |}.

Definition spinIn : Transition := fun node params =>
  let target_opacity := target_opacity node in
  let transform := base_transform node in
  let degrees := default (of_Z 180) (p_degrees params) in
  let y := default (of_Z 20) (p_y params) in
  {| delay := p_delay params; duration := p_duration params;
     easing := p_easing params;
     css := Some (fun t _ =>
       indent +:+ "transform: " +:+ transform +:+ " rotate("
       +:+ to_string (nmul degrees (nsub (of_Z 1) t)) +:+ "deg) translateY("
       +:+ to_string (nmul y (nsub (of_Z 1) t)) +:+ "px);"
       +:+ indent +:+ "opacity: " +:+ to_string (nmul target_opacity t) +:+ ";"
       +:+ closing);
     tick := None |}.

Definition revealSlide : Transition := fun node params =>
  let target_opacity := target_opacity node in
  let transform := base_transform node in
  {| delay := p_delay params; duration := p_duration params;
     easing := p_easing params;
     css := Some (fun t _ =>
       indent +:+ transform
       +:+ indent +:+ "clip-path: inset(0 "
       +:+ to_string (nsub (of_Z 100) (nmul t (of_Z 100))) +:+ "% 0 0);"
       +:+ indent +:+ "opacity: " +:+ to_string (nmul target_opacity t) +:+ ";"
       +:+ closing);
     tick := None |}.

Definition bounceScale : Transition := fun node params =>
  let target_opacity := target_opacity node in
  let transform := base_transform node in
  {| delay := p_delay params; duration := p_duration params;
     easing := p_easing params;
     css := Some (fun t _ =>
       indent +:+ "transform: " +:+ transform +:+ " scale("
       +:+ to_string (nadd (of_Z 1) (nmul (round64 (1 # 10)) (nsub (of_Z 1) t)))
       +:+ ");"
       +:+ indent +:+ "opacity: " +:+ to_string (nmul target_opacity t) +:+ ";"
       +:+ closing);
     tick := None |}.

Definition flip3D : Transition := fun node params =>
  let target_opacity := target_opacity node in
  let transform := base_transform node in
  {| delay := p_delay params; duration := p_duration params;
     easing := p_easing params;
     css := Some (fun t u =>
       indent +:+ "transform: " +:+ transform
       +:+ " perspective(1000px) rotateX(" +:+ to_string (nmul (of_Z 90) u)
       +:+ "deg);"
       +:+ indent +:+ "opacity: " +:+ to_string (nmul target_opacity t) +:+ ";"
       +:+ indent +:+ "transform-origin: 50% 100%;"
       +:+ closing);
     tick := None |}.

Definition scaleAndRotate : Transition := fun node params =>
  let target_opacity := target_opacity node in
  let transform := base_transform node in
  let start := default (round64 (95 # 100)) (p_start params) in
  let degrees := default (of_Z 180) (p_degrees params) in
  let y := default (of_Z 20) (p_y params) in
  let opacity := default (of_Z 0) (p_opacity params) in
  {| delay := p_delay params; duration := p_duration params;
     easing := p_easing params;
     css := Some (fun t _ =>
       indent +:+ "transform: " +:+ transform +:+ " scale("
       +:+ to_string (nadd start (nmul (nsub (of_Z 1) start) t)) +:+ ") rotate("
       +:+ to_string (nmul degrees (nsub (of_Z 1) t)) +:+ "deg) translateY("
       +:+ to_string (nmul y (nsub (of_Z 1) t)) +:+ "px);"
       +:+ indent +:+ "opacity: "
       +:+ to_string (nadd opacity (nmul (nsub target_opacity opacity) t)) +:+ ";"
       +:+ closing);
     tick := None |}.

End Catalog.

(** A text without semicolon, colon or white space, as the text of a
    number is. *)
Fixpoint clean (s : string) : bool :=
  match s with
  | EmptyString => true
  | String c rest =>
      negb (Ascii.eqb c ";") && negb (Ascii.eqb c ":") && negb (is_space c)
      && clean rest
  end.

(** The text of a list of declarations as the templates of the catalog
    lay them out. *)
Fixpoint declarations (ds : list (string * string)) : string :=
  match ds with
  | [] => closing
  | (name, value) :: ds' =>
      indent +:+ name +:+ ":" +:+ value +:+ ";" +:+ declarations ds'
  end.

(** Each name and each value is free of [;] and [:], and each name,
    trimmed, is one that the conversion accepts. *)
Definition translatable (d : string * string) : bool :=
  negb (has_char ":" d.1) && negb (has_char ";" d.1)
  && negb (has_char ":" d.2) && negb (has_char ";" d.2)
  && (starts_with "--" (trim (indent +:+ d.1))
      || later_segments_nonempty (trim (indent +:+ d.1))).

(** [css(t, u)] of a descriptor, the empty text without a [css] function. *)
Definition styles_at (config : TransitionConfig) (t u : number) : string :=
  match css config with
  | Some f => f t u
  | None => ""
  end.

(** A node with the computed opacity and transform given, displayed as a
    block. *)
Definition styled_node (opacity transform : string) : NodeState :=
  {| style := ∅;
     sheet := fun property =>
                if String.eqb property "display" then "block"
                else if String.eqb property "opacity" then opacity
                else if String.eqb property "transform" then transform
                else "auto" |}.

(** The numbers that the examples read from a computed style. *)
Definition number_of (s : string) : number :=
  if String.eqb s "1" then of_Z 1
  else if String.eqb s "0" then of_Z 0
  else if String.eqb s "0.5" then Fin (1 # 2)
  else NaN.

(** ** [initHoverAnimation] *)

Module InitHover.

(** The [params] argument: the members that the function reads. *)
Record Parameters : Type := {
  transition : Transition;
  params : TransitionParams;
  duration : option number;
  easing : option string;
  delay : option number
}.

(** The one keyframe of the animation: the translated [css(1, 1)], or the
    computed style of the node when the descriptor has no [css]. *)
Inductive Frame : Type :=
| Translated (keyframe : Keyframe)
| ComputedStyle.

(** A native animation; [restores] once [reverse_animation] has given it
    its [onfinish]. *)
Record Animation : Type := {
  keyframes : list Frame;
  options : KeyframeAnimationOptions;
  playState : PlayState;
  reversed : bool;
  restores : bool
}.

(** The node, its animations, its two listeners, the closure variables
    [animation] and [initialStyles] ([true] once it is the computed style
    of the node), and what the handlers raised. *)
Record State : Type := {
  node : NodeState;
  animations : list Animation;
  start_listener : bool;
  reverse_listener : bool;
  animation : option nat;
  initialStyles : bool;
  errors : list exn
}.

Definition with_animations (x : list Animation) (s : State) : State :=
  {| node := node s; animations := x; start_listener := start_listener s;
     reverse_listener := reverse_listener s; animation := animation s;
     initialStyles := initialStyles s; errors := errors s |}.

Definition cancelled (a : Animation) : Animation :=
  {| keyframes := keyframes a; options := options a; playState := Idle;
     reversed := reversed a; restores := restores a |}.

Definition finished (a : Animation) : Animation :=
  {| keyframes := keyframes a; options := options a; playState := Finished;
     reversed := reversed a; restores := restores a |}.

(** [animation.reverse(); animation.onfinish = ...] *)
Definition turned (a : Animation) : Animation :=
  {| keyframes := keyframes a; options := options a; playState := Running;
     reversed := negb (reversed a); restores := true |}.

(** The options of [node.animate]: [duration ?? 400], [easing || ...],
    [delay ?? 0], fill both. *)
Definition animate_options (p : Parameters) : KeyframeAnimationOptions :=
  {| o_duration := default (of_Z 400) (duration p);
     o_delay := Some (default (of_Z 0) (delay p));
     o_fill := FillBoth;
     o_easing :=
       Some (match easing p with
             | Some e =>
                 if String.eqb e "" then "cubic-bezier(0.215, 0.61, 0.355, 1)"
                 else e
             | None => "cubic-bezier(0.215, 0.61, 0.355, 1)"
             end) |}.

(** [animation = node.animate(keyframes, options)] *)
Definition animate (frame : Frame) (p : Parameters) (s : State) : State :=
  {| node := node s;
     animations := animations s ++
       [{| keyframes := [frame]; options := animate_options p;
           playState := Running; reversed := false; restores := false |}];
     start_listener := start_listener s;
     reverse_listener := reverse_listener s;
     animation := Some (length (animations s));
     initialStyles := initialStyles s; errors := errors s |}.

Definition start_animation (p : Parameters) (s : State)
  : State * completion unit :=
  let s := {| node := node s; animations := animations s;
              start_listener := start_listener s;
              reverse_listener := reverse_listener s;
              animation := animation s; initialStyles := true;
              errors := errors s |} in
  let transition := transition p (node s) (params p) in
  match css transition with
  | Some f =>
      match css_to_keyframe (f (of_Z 1) (of_Z 1)) with
      | Normal keyframe => (animate (Translated keyframe) p s, Normal tt)
      | Throw e => (s, Throw e)
      | Diverge => (s, Diverge)
      end
  | None => (animate ComputedStyle p s, Normal tt)
  end.

Definition reverse_animation (s : State) : State :=
  match animation s with
  | Some a => with_animations (alter turned a (animations s)) s
  | None => s
  end.

Definition destroy (s : State) : State :=
  {| node := node s;
     animations := match animation s with
                   | Some a => alter cancelled a (animations s)
                   | None => animations s
                   end;
     start_listener := false; reverse_listener := false;
     animation := animation s; initialStyles := initialStyles s;
     errors := errors s |}.


Inductive Event : Type :=
| MouseEnter
| MouseLeave
| AnimationFinish (id : nat).

Section Page.

(** [Object.assign(node.style, initialStyles)] with the computed style of
    the node: what the platform makes of it. *)
Context (restore : NodeState → NodeState).

Definition finish (id : nat) (s : State) : State :=
  match animations s !! id with
  | Some a =>
      match playState a with
      | Running =>
          {| node := if restores a then restore (node s) else node s;
             animations := alter finished id (animations s);
             start_listener := start_listener s;
             reverse_listener := reverse_listener s;
             animation := animation s; initialStyles := initialStyles s;
             errors := errors s |}
      | _ => s
      end
  | None => s
  end.

Definition step (p : Parameters) (e : Event) (s : State) : State :=
  match e with
  | MouseEnter =>
      if start_listener s then
        match start_animation p s with
        | (s', Throw x) =>
            {| node := node s'; animations := animations s';
               start_listener := start_listener s';
               reverse_listener := reverse_listener s';
               animation := animation s'; initialStyles := initialStyles s';
               errors := errors s' ++ [x] |}
        | (s', _) => s'
        end
      else s
  | MouseLeave => if reverse_listener s then reverse_animation s else s
  | AnimationFinish id => finish id s
  end.

Definition run (p : Parameters) (es : list Event) (s : State) : State :=
  fold_left (fun s e => step p e s) es s.

End Page.

End InitHover.



(** * Properties *)

(** ** Strings *)

Lemma split_nonempty sep s : split sep s ≠ [].
Proof. destruct s as [|c s]; simpl; [done|]. destruct (Ascii.eqb c sep); [done|]. by destruct (split sep s). Qed.

Lemma split_cons sep s : ∃ first rest, split sep s = first :: rest.
Proof. pose proof (split_nonempty sep s). destruct (split sep s); [done|eauto]. Qed.

Lemma append_String c (s t : string) : String c s +:+ t = String c (s +:+ t).
Proof. reflexivity. Qed.

Lemma append_empty_l (s : string) : "" +:+ s = s.
Proof. reflexivity. Qed.

Lemma append_empty_r (s : string) : s +:+ "" = s.
Proof. induction s as [|c s IH]; [done|]. by rewrite append_String, IH. Qed.

Lemma cmapM_capitalize_ok (l : list string) :
  forallb (fun seg => negb (String.eqb seg "")) l = true →
  cmapM capitalize l = Normal (upper_first <$> l).
Proof.
  induction l as [|seg l IH]; simpl; [done|].
  intros [Hseg Hl]%andb_prop. rewrite (IH Hl).
  destruct seg; [done|]. reflexivity.
Qed.

Lemma cmapM_capitalize_throw (l : list string) :
  forallb (fun seg => negb (String.eqb seg "")) l = false →
  cmapM capitalize l = Throw TypeError.
Proof.
  induction l as [|seg l IH]; simpl; [done|].
  destruct seg as [|c seg]; simpl; [done|].
  intros Hl. by rewrite (IH Hl).
Qed.

Lemma camelcase_defined (property : string) :
  starts_with "--" property || later_segments_nonempty property = true →
  css_property_to_camelcase property = Normal (camelcase_rule property).
Proof.
  unfold css_property_to_camelcase, camelcase_rule, later_segments_nonempty.
  destruct (String.eqb property "float"); [done|].
  destruct (String.eqb property "offset"); [done|].
  destruct (starts_with "--" property); [done|]. simpl.
  destruct (split_cons "-" property) as (first & rest & ->). simpl.
  intros Hrest. destruct rest as [|seg rest].
  - simpl. by rewrite append_empty_r.
  - by rewrite (cmapM_capitalize_ok _ Hrest).
Qed.

Lemma camelcase_undefined (property : string) :
  starts_with "--" property = false →
  later_segments_nonempty property = false →
  css_property_to_camelcase property = Throw TypeError.
Proof.
  unfold css_property_to_camelcase, later_segments_nonempty.
  intros Hcustom.
  destruct (String.eqb_spec property "float") as [->|_]; [done|].
  destruct (String.eqb_spec property "offset") as [->|_]; [done|].
  rewrite Hcustom.
  destruct (split_cons "-" property) as (first & rest & ->). simpl.
  intros Hrest. destruct rest as [|seg rest]; [done|].
  by rewrite (cmapM_capitalize_throw _ Hrest).
Qed.

Lemma split_head_not_sep c s first rest :
  split "-" (String c s) = first :: rest → first ≠ "" → Ascii.eqb c "-" = false.
Proof.
  simpl. destruct (Ascii.eqb c "-"); [|done]. intros [= <- _]. done.
Qed.

Lemma segments_scan_aux (n : nat) : ∀ s : string,
  String.length s < n →
  later_segments_nonempty s = true →
  match split "-" s with
  | [] => ""
  | first :: segments => first +:+ join (upper_first <$> segments)
  end = camel_scan s.
Proof.
  unfold later_segments_nonempty.
  induction n as [|n IH]; [lia|].
  intros [|c s] Hlen; [done|]. simpl in Hlen.
  cbn [split camel_scan]. destruct (Ascii.eqb c "-") eqn:Hc.
  - cbn [tail]. destruct s as [|d s].
    + done.
    + intros Hall. cbn [split] in *. destruct (Ascii.eqb d "-") eqn:Hd.
      * done.
      * destruct (split_cons "-" s) as (f & segs & Hs). rewrite Hs in *.
        cbn [forallb] in Hall. apply andb_prop in Hall as [_ Hall].
        simpl. rewrite append_empty_l, append_String. f_equal. simpl in Hlen.
        specialize (IH s ltac:(lia)). rewrite Hs in IH. by apply IH.
  - destruct (split_cons "-" s) as (f & segs & Hs). rewrite Hs. cbn [tail].
    intros Hall. rewrite append_String. f_equal.
    specialize (IH s ltac:(lia)). rewrite Hs in IH. by apply IH.
Qed.

Lemma has_char_split c s : has_char c s = false → split c s = [s].
Proof.
  induction s as [|d s IH]; simpl; [done|].
  destruct (Ascii.eqb d c); simpl; [done|]. intros H. by rewrite (IH H).
Qed.

Lemma cut_None_split c s : cut c s = None → split c s = [s].
Proof.
  induction s as [|d s IH]; simpl; [done|].
  destruct (Ascii.eqb d c); [done|].
  destruct (cut c s) as [[a b]|]; [done|]. intros _. by rewrite IH.
Qed.

Lemma cut_Some_split c s a b : cut c s = Some (a, b) → split c s = a :: split c b.
Proof.
  revert a. induction s as [|d s IH]; simpl; [done|]. intros a.
  destruct (Ascii.eqb d c); [by intros [= <- <-]|].
  destruct (cut c s) as [[a' b']|]; [|done]. intros [= <- <-].
  by rewrite (IH a').
Qed.

Lemma css_to_keyframe_loop_pairs (parts : list string) : ∀ kf : Keyframe,
  forallb plain_pair (leading_pairs parts) = true →
  css_to_keyframe_loop parts kf
  = Normal (fold_left (fun kf pv => <[camelcase_rule (trim pv.1) := trim pv.2]> kf)
              (leading_pairs parts) kf).
Proof.
  induction parts as [|part parts IH]; intros kf; [done|].
  cbn [css_to_keyframe_loop leading_pairs].
  destruct (cut ":" part) as [[property value]|] eqn:Hcut.
  - rewrite (cut_Some_split _ _ _ _ Hcut).
    destruct property as [|c property]; [done|].
    cbn [forallb fold_left]. intros [Hpair Hrest]%andb_prop.
    unfold plain_pair in Hpair. apply andb_prop in Hpair as [Hname Hvalue].
    apply negb_true_iff in Hvalue. cbn [fst snd] in *.
    rewrite (has_char_split _ _ Hvalue).
    rewrite (camelcase_defined _ Hname). cbn [cbind].
    by apply IH.
  - rewrite (cut_None_split _ _ Hcut). intros _. by destruct part.
Qed.

Lemma has_char_hyphen_segments s : has_char "-" s = false → split "-" s = [s].
Proof. apply has_char_split. Qed.

(** C8 (amended). For every property name whose hyphen-separated segments
    after the first are all non-empty, or that starts with [--], the
    conversion returns: [cssFloat] for [float], [cssOffset] for [offset],
    the name itself when it starts with [--], and otherwise the segments
    joined with exactly the first letter of each segment after the first
    upper-cased, that is the name with every hyphen dropped and the
    character after it upper-cased; a name with no hyphen is returned
    unchanged. *)
Theorem camelcase_conversion (property : string) :
  later_segments_nonempty property = true ∨ starts_with "--" property = true →
  ∃ result : string,
    css_property_to_camelcase property = Normal result
    ∧ (property = "float" → result = "cssFloat")
    ∧ (property = "offset" → result = "cssOffset")
    ∧ (starts_with "--" property = true → result = property)
    ∧ (property ≠ "float" → property ≠ "offset" →
       starts_with "--" property = false →
       result = camel_scan property
       ∧ ∃ first segments, split "-" property = first :: segments
           ∧ result = first +:+ join (upper_first <$> segments))
    ∧ (property ≠ "float" → property ≠ "offset" →
       has_char "-" property = false → result = property).
Proof.
  intros Hdefined. exists (camelcase_rule property). split.
  { apply camelcase_defined. destruct Hdefined as [-> | ->]; [apply orb_true_r|done]. }
  unfold camelcase_rule. split_and!.
  - by intros ->.
  - by intros ->.
  - intros Hcustom. rewrite Hcustom.
    destruct (String.eqb_spec property "float") as [->|_]; [done|].
    by destruct (String.eqb_spec property "offset") as [->|_].
  - intros Hfloat Hoffset Hcustom.
    destruct (String.eqb_spec property "float") as [->|_]; [done|].
    destruct (String.eqb_spec property "offset") as [->|_]; [done|].
    rewrite Hcustom. destruct Hdefined as [Hsegments|?]; [|congruence]. split.
    + by apply (segments_scan_aux (S (String.length property))); [lia|].
    + destruct (split_cons "-" property) as (first & segments & ->). eauto.
  - intros Hfloat Hoffset Hplain.
    destruct (String.eqb_spec property "float") as [->|_]; [done|].
    destruct (String.eqb_spec property "offset") as [->|_]; [done|].
    rewrite (has_char_split _ _ Hplain).
    destruct (starts_with "--" property); [done|].
    simpl. apply append_empty_r.
Qed.

(** The rule at [background-color]. *)
Lemma camelcase_conversion_witness :
  css_property_to_camelcase "background-color" = Normal "backgroundColor".
Proof.
  destruct (camelcase_conversion "background-color" (or_introl eq_refl))
    as (result & -> & _ & _ & _ & Hscan & _).
  f_equal. by apply Hscan.
Defined.

(** C8 as stated fails at [a--b]: the rule gives [aB], the conversion
    raises. *)
Lemma camelcase_empty_segment_raises :
  css_property_to_camelcase "a--b" = Throw TypeError
  ∧ camelcase_rule "a--b" = "aB".
Proof. split; reflexivity. Qed.

(** C10 (amended). The conversion is not total: for every property name
    not starting with [--] that has an empty hyphen-separated segment after
    the first (consecutive hyphens as in [a--b], a trailing hyphen as in
    [a-]), it reads the first character of an empty string and raises; and
    the translator raises on a CSS text whose first pair has such a name. A
    single leading hyphen, as in [-webkit-transform], makes the first segment
    empty and does not raise. *)
Theorem camelcase_not_total (property : string) :
  starts_with "--" property = false →
  later_segments_nonempty property = false →
  css_property_to_camelcase property = Throw TypeError
  ∧ ∀ (css part name value : string) (parts more : list string),
      split ";" css = part :: parts →
      split ":" part = name :: value :: more →
      name ≠ "" → trim name = property →
      css_to_keyframe css = Throw TypeError.
Proof.
  intros Hcustom Hsegments.
  pose proof (camelcase_undefined property Hcustom Hsegments) as Hraise.
  split; [done|].
  intros css part name value parts more Hparts Hfields Hname Htrim.
  unfold css_to_keyframe. rewrite Hparts. cbn [css_to_keyframe_loop].
  rewrite Hfields. destruct name as [|c name]; [done|].
  by rewrite Htrim, Hraise.
Qed.

(** The failure at [a-] and at a text starting with [margin--top: 0]. *)
Lemma camelcase_not_total_witness :
  css_property_to_camelcase "a-" = Throw TypeError
  ∧ css_to_keyframe "margin--top: 0; opacity: 1" = Throw TypeError.
Proof.
  split.
  - exact (proj1 (camelcase_not_total "a-" eq_refl eq_refl)).
  - exact (proj2 (camelcase_not_total "margin--top" eq_refl eq_refl)
             "margin--top: 0; opacity: 1" "margin--top: 0" "margin--top" " 0"
             [" opacity: 1"] [] eq_refl eq_refl ltac:(discriminate) eq_refl).
Defined.

(** C10 as stated fails at [-webkit-transform], which is converted. *)
Lemma webkit_prefix_converts :
  starts_with "--" "-webkit-transform" = false
  ∧ css_property_to_camelcase "-webkit-transform" = Normal "WebkitTransform".
Proof. split; reflexivity. Qed.

(** C2 (amended). For every CSS text in which each pair preceding the
    first pair that is missing a property or a value has a name that the
    conversion accepts (C10) and a value without a colon, the translator
    returns the mapping from the converted, trimmed property to the trimmed
    value of those pairs, and stops there without raising. *)
Theorem css_to_keyframe_pairs (css : string) :
  forallb plain_pair (leading_pairs (split ";" css)) = true →
  css_to_keyframe css = Normal (mapping_of (leading_pairs (split ";" css))).
Proof. intros Hplain. by apply css_to_keyframe_loop_pairs. Qed.

(** The three texts of the specification. *)
Lemma css_to_keyframe_pairs_witness :
  css_to_keyframe "a:1;b:2;" = Normal (<["b" := "2"]> (<["a" := "1"]> ∅))
  ∧ css_to_keyframe "float:left;" = Normal (<["cssFloat" := "left"]> ∅)
  ∧ css_to_keyframe "a;" = Normal ∅.
Proof.
  split_and!.
  - exact (css_to_keyframe_pairs "a:1;b:2;" eq_refl).
  - exact (css_to_keyframe_pairs "float:left;" eq_refl).
  - exact (css_to_keyframe_pairs "a;" eq_refl).
Defined.

(** C2 as stated fails at [a--b:1;]: the translator raises. *)
Lemma css_to_keyframe_raises :
  css_to_keyframe "a--b:1;" = Throw TypeError.
Proof. reflexivity. Qed.

(** ** Numbers and sampling *)

Lemma Qred_inject_Z (z : Z) : Qred (z # 1) = z # 1.
Proof.
  unfold Qred.
  pose proof (Z.ggcd_gcd z 1) as Hg.
  pose proof (Z.ggcd_correct_divisors z 1) as Hd.
  destruct (Z.ggcd z 1) as [g [n d]]. cbn [fst snd] in *.
  rewrite Z.gcd_1_r in Hg. subst g. destruct Hd as [Hn Hd].
  rewrite !Z.mul_1_l in *. by subst.
Qed.

Lemma round_half_even_1 (n : Z) : round_half_even n 1 = n.
Proof. unfold round_half_even. by rewrite Z.mod_1_r, Z.div_1_r. Qed.

Lemma shift_nonneg (e : Z) : (0 ≤ e)%Z → shift e = (2 ^ e)%Z.
Proof. intros He. unfold shift. by rewrite Z.max_r. Qed.

Lemma shift_nonpos (e : Z) : (e ≤ 0)%Z → shift e = 1%Z.
Proof. intros He. unfold shift. by rewrite Z.max_l. Qed.

Lemma ilog2_Z (a : Z) : (0 < a)%Z → ilog2 a 1 = Z.log2 a.
Proof.
  intros Ha. unfold ilog2. change (Z.log2 1) with 0%Z. rewrite Z.sub_0_r.
  pose proof (Z.log2_nonneg a). pose proof (Z.log2_spec a Ha) as [Hl _].
  rewrite shift_nonneg, shift_nonpos by lia.
  destruct (Z.leb_spec (1 * 2 ^ Z.log2 a) (a * 1)); [done|lia].
Qed.

(** An integer of at most 53 bits is a binary64 number. *)
Lemma round64_Z (z : Z) : (Z.abs z ≤ 2 ^ 53)%Z → round64 (z # 1) = Fin (z # 1).
Proof.
  intros Hz. unfold round64. cbn [Qnum Qden].
  destruct (Z.eqb_spec (Z.abs z) 0) as [H0|H0]; [by replace z with 0%Z by lia|].
  assert (0 < Z.abs z)%Z as Ha by lia.
  rewrite (ilog2_Z _ Ha).
  pose proof (Z.log2_nonneg (Z.abs z)) as Hl0.
  pose proof (Z.log2_le_mono _ _ Hz) as Hl. rewrite Z.log2_pow2 in Hl by lia.
  rewrite Z.max_l by lia.
  destruct (Z.eq_dec (Z.log2 (Z.abs z)) 53%Z) as [H53|H53].
  - pose proof (Z.log2_spec _ Ha) as [Hlow _]. rewrite H53 in Hlow.
    assert (Z.abs z = 2 ^ 53)%Z as Habs by lia.
    rewrite H53, Habs.
    destruct (Z.abs_spec z) as [[_ E]|[_ E]].
    + assert (z = 2 ^ 53)%Z as -> by lia. by vm_compute.
    + assert (z = - 2 ^ 53)%Z as -> by lia. by vm_compute.
  - set (l := Z.log2 (Z.abs z)) in *.
    rewrite (shift_nonpos (l - 52)), (shift_nonneg (- (l - 52))) by lia.
    rewrite Z.mul_1_r. change (Z.pos 1) with 1%Z. rewrite round_half_even_1.
    assert (Z.abs z * 2 ^ (- (l - 52)) * 2 ^ (l - 52) < 2 ^ 1024)%Z as Hsmall.
    { destruct (Z.eq_dec l 52%Z) as [->|].
      - change (2 ^ (52 - 52))%Z with 1%Z. change (2 ^ (- (52 - 52)))%Z with 1%Z.
        assert (2 ^ 53 < 2 ^ 1024)%Z by (by vm_compute). lia.
      - rewrite (Z.pow_neg_r 2 (l - 52)) by lia. rewrite Z.mul_0_r. by vm_compute. }
    destruct (Z.leb_spec (2 ^ 1024) (Z.abs z * 2 ^ (- (l - 52)) * 2 ^ (l - 52)));
      [lia|].
    f_equal. unfold ldexp.
    rewrite (shift_nonpos (l - 52)), (shift_nonneg (- (l - 52))) by lia.
    rewrite Z.mul_1_r, <- (Qred_inject_Z z). apply Qred_complete.
    unfold Qeq. cbn [Qnum Qden].
    assert (0 < 2 ^ (- (l - 52)))%Z by (apply Z.pow_pos_nonneg; lia).
    rewrite Z2Pos.id by done.
    pose proof (Z.sgn_abs z). nia.
Qed.

(** Counting by one is exact up to [2^53]. *)
Lemma of_Z_succ (k : Z) :
  (- 2 ^ 53 ≤ k < 2 ^ 53)%Z → nadd (of_Z k) (of_Z 1) = of_Z (k + 1).
Proof.
  intros Hk. unfold nadd, of_Z, inject_Z, Qplus. cbn [Qnum Qden].
  rewrite !Z.mul_1_r. apply round64_Z. lia.
Qed.

Lemma of_Z_pred (k : Z) :
  (- 2 ^ 53 < k ≤ 2 ^ 53)%Z → nsub (of_Z k) (of_Z 1) = of_Z (k - 1).
Proof.
  intros Hk. unfold nsub, of_Z, inject_Z, Qminus, Qplus, Qopp. cbn [Qnum Qden].
  rewrite !Z.mul_1_r. replace (k + -1)%Z with (k - 1)%Z by lia.
  apply round64_Z. lia.
Qed.

(** From [2^53] on, adding one changes nothing. *)
Lemma of_Z_stuck : nadd (of_Z (2 ^ 53)) (of_Z 1) = of_Z (2 ^ 53).
Proof. by vm_compute. Qed.

(** A rounded number is not [NaN]. *)
Lemma round64_number (q : Q) :
  (∃ q', round64 q = Fin q') ∨ round64 q = PInf ∨ round64 q = NInf.
Proof.
  unfold round64. destruct (_ =? _)%Z; [eauto|].
  destruct (_ <=? _)%Z; [destruct (is_neg q)|]; eauto.
Qed.

Lemma ndiv_zero (x y : Q) :
  is_zero x = true → is_zero y = false → ndiv (Fin x) (Fin y) = Fin 0.
Proof.
  intros Hx Hy. cbn [ndiv]. rewrite Hy. unfold round64.
  unfold is_zero in Hx. apply Z.eqb_eq in Hx.
  unfold Qdiv, Qmult. cbn [Qnum]. by rewrite Hx.
Qed.

Lemma nle_of_Z (a b : Z) : nle (of_Z a) (of_Z b) = bool_decide (a ≤ b)%Z.
Proof.
  unfold nle, of_Z, Qle_bool, inject_Z. cbn [Qnum Qden].
  rewrite !Z.mul_1_r. case_bool_decide; lia.
Qed.

(** [1000 / 60] is the binary64 number [16.666666666666668]. *)
Lemma frame_eq : frame = Fin (4691249611844267 # 281474976710656).
Proof. by vm_compute. Qed.

(** A duration of one frame is one frame long: the quotient is rounded.
    The exact quotient of the two numbers is above [1]. *)
Lemma frames_of_a_frame :
  frames frame = of_Z 1
  ∧ Qceiling ((4691249611844267 # 281474976710656) / (1000 # 60)) = 2%Z.
Proof. split; by vm_compute. Qed.

(** [duration || 0] changes the number of frames of a [NaN] only. *)
Lemma frames_or_else (duration : number) :
  duration ≠ NaN → frames (or_else duration (of_Z 0)) = frames duration.
Proof.
  intros Hd. unfold or_else, truthy, frames.
  destruct duration as [d| | |]; [|done..].
  destruct (is_zero d) eqn:Hz; cbn [negb]; [|done].
  rewrite frame_eq. unfold of_Z. by rewrite !ndiv_zero.
Qed.

Lemma cmap_app_nil {A} (c : completion (list A)) : cmap (app []) c = c.
Proof. by destruct c. Qed.

Lemma cmap_app_snoc {A} (acc : list A) (x : A) (c : completion (list A)) :
  cmap (app (acc ++ [x])) c = cmap (app acc) (cmap (cons x) c).
Proof. destruct c; simpl; [|done..]. by rewrite <- app_assoc. Qed.

Lemma cmapM_app {A B} (f : A → completion B) (l1 l2 : list A) :
  cmapM f (l1 ++ l2)
  = cbind (cmapM f l1) (fun b1 => cmap (app b1) (cmapM f l2)).
Proof.
  induction l1 as [|a l1 IH]; simpl.
  - by rewrite cmap_app_nil.
  - destruct (f a) as [b| |]; simpl; [|done..]. rewrite IH.
    destruct (cmapM f l1) as [b1| |]; simpl; [|done..].
    by destruct (cmapM f l2).
Qed.

Lemma upto_snoc (k : Z) : (0 ≤ k)%Z → upto k = upto (k - 1) ++ [k].
Proof.
  intros Hk. unfold upto.
  replace (Z.to_nat (k + 1)) with (S (Z.to_nat (k - 1 + 1))) by lia.
  rewrite seq_S, fmap_app. simpl. do 2 f_equal. lia.
Qed.

Lemma upto_negative (k : Z) : (k < 0)%Z → upto k = [].
Proof. intros Hk. unfold upto. by replace (Z.to_nat (k + 1)) with 0%nat by lia. Qed.

Lemma upto_length (k : Z) : length (upto k) = Z.to_nat (k + 1).
Proof. unfold upto. by rewrite length_fmap, length_seq. Qed.

Lemma sample_forward_spec css easing (N : Z) : ∀ (m fuel : nat) (k : Z) acc,
  (N < 2 ^ 53)%Z →
  (0 ≤ k)%Z → m = Z.to_nat (N - k + 1) → (m < fuel)%nat →
  sample_forward fuel css easing (of_Z N) (of_Z k) acc
  = cmap (app acc)
      (cmapM (sample_at css easing N) (Z.of_nat <$> seq (Z.to_nat k) m)).
Proof.
  induction m as [|m IH]; intros fuel k acc HN Hk Hm Hfuel;
    (destruct fuel as [|fuel]; [lia|]); cbn [sample_forward];
    rewrite nle_of_Z.
  - rewrite bool_decide_eq_false_2 by lia. simpl. by rewrite app_nil_r.
  - rewrite bool_decide_eq_true_2 by lia.
    cbn [seq fmap list_fmap cmapM]. rewrite Z2Nat.id by done.
    unfold sample_at at 1. cbv zeta.
    destruct (css_to_keyframe _) as [kf| |]; cbn [cbind]; [|done..].
    rewrite of_Z_succ, (IH fuel (k + 1)%Z) by lia.
    replace (Z.to_nat (k + 1)) with (S (Z.to_nat k)) by lia.
    apply cmap_app_snoc.
Qed.

Lemma Qfloor_inject_Z (z : Z) : Qfloor (inject_Z z) = z.
Proof. apply Qfloor_Z. Qed.

Lemma main_keyframes_spec css easing (duration : number) (N : Z) :
  frames (or_else duration (of_Z 0)) = of_Z N → (N < 2 ^ 53)%Z →
  main_keyframes css easing duration
  = cmapM (sample_at css easing N) (upto N).
Proof.
  intros HN Hsmall. unfold main_keyframes. fold (frames (or_else duration (of_Z 0))).
  rewrite HN.
  rewrite (sample_forward_spec css easing N
             (Z.to_nat (N - 0 + 1)) _ 0 []); [|done|lia|done|].
  - rewrite cmap_app_nil. unfold upto. do 3 f_equal. lia.
  - unfold loop_fuel, of_Z. rewrite Qfloor_inject_Z. lia.
Qed.

Lemma sample_backward_spec css easing (N : Z) : ∀ (m fuel : nat) (k : Z) acc,
  (k ≤ 2 ^ 53)%Z →
  m = Z.to_nat (k + 1) → (m < fuel)%nat →
  sample_backward fuel css easing (of_Z N) (of_Z k) acc
  = cmap (app acc) (cmapM (sample_at css easing N) (rev (upto k))).
Proof.
  induction m as [|m IH]; intros fuel k acc Hk Hm Hfuel;
    (destruct fuel as [|fuel]; [lia|]); cbn [sample_backward];
    unfold nge; rewrite nle_of_Z.
  - rewrite bool_decide_eq_false_2 by lia.
    rewrite upto_negative by lia. simpl. by rewrite app_nil_r.
  - rewrite bool_decide_eq_true_2 by lia.
    rewrite upto_snoc, rev_unit by lia. cbn [cmapM].
    unfold sample_at at 1. cbv zeta.
    destruct (css_to_keyframe _) as [kf| |]; cbn [cbind]; [|done..].
    rewrite of_Z_pred, (IH fuel (k - 1)%Z) by lia.
    apply cmap_app_snoc.
Qed.

Lemma hover_keyframes_spec css easing (duration : number) (N : Z) :
  frames duration = of_Z N → (N < 2 ^ 53)%Z →
  hover_keyframes css easing duration
  = cmapM (sample_at css easing N) (rev (upto N)).
Proof.
  intros HN Hsmall. unfold hover_keyframes. fold (frames duration). rewrite HN.
  rewrite (sample_backward_spec css easing N (Z.to_nat (N + 1))); [|lia|done|].
  - apply cmap_app_nil.
  - unfold loop_fuel, of_Z. rewrite Qfloor_inject_Z. lia.
Qed.

(** With an infinite [n] neither loop exits. *)
Lemma sample_forward_unbounded (css : number → number → string)
    (easing : number → number) (fuel : nat) :
  ∀ i acc kfs, i ≠ NaN → sample_forward fuel css easing PInf i acc ≠ Normal kfs.
Proof.
  induction fuel as [|fuel IH]; intros i acc kfs Hi; [done|].
  cbn [sample_forward].
  assert (nle i PInf = true) as -> by (by destruct i).
  destruct (css_to_keyframe _) as [kf| |]; cbn [cbind]; [|done..].
  apply IH. destruct i as [x| | |]; [|done..]. unfold of_Z. cbn [nadd].
  by destruct (round64_number (x + inject_Z 1)) as [[q' ->]|[-> | ->]].
Qed.

Lemma sample_backward_unbounded (css : number → number → string)
    (easing : number → number) (fuel : nat) :
  ∀ acc kfs, sample_backward fuel css easing PInf PInf acc ≠ Normal kfs.
Proof.
  induction fuel as [|fuel IH]; intros acc kfs; [done|].
  cbn [sample_backward]. change (nge PInf (of_Z 0)) with true. cbn iota.
  destruct (css_to_keyframe _) as [kf| |]; cbn [cbind]; [|done..].
  apply IH.
Qed.

(** From [2^53] frames on the counter of the driver's loop stops at [2^53],
    below [n], and the loop does not exit. *)
Lemma sample_forward_stuck (css : number → number → string)
    (easing : number → number) (N : Z) (fuel : nat) :
  (2 ^ 53 ≤ N)%Z →
  ∀ k acc kfs, (0 ≤ k ≤ 2 ^ 53)%Z →
    sample_forward fuel css easing (of_Z N) (of_Z k) acc ≠ Normal kfs.
Proof.
  intros HN. induction fuel as [|fuel IH]; intros k acc kfs Hk; [done|].
  cbn [sample_forward]. rewrite nle_of_Z, bool_decide_eq_true_2 by lia.
  destruct (css_to_keyframe _) as [kf| |]; cbn [cbind]; [|done..].
  destruct (Z.eq_dec k (2 ^ 53)%Z) as [->|Hne].
  - rewrite of_Z_stuck. apply IH. lia.
  - rewrite of_Z_succ by lia. apply IH. lia.
Qed.

Lemma camelcase_completion (property : string) :
  (∃ name, css_property_to_camelcase property = Normal name)
  ∨ css_property_to_camelcase property = Throw TypeError.
Proof.
  destruct (starts_with "--" property || later_segments_nonempty property) eqn:H.
  - left. eexists. by apply camelcase_defined.
  - right. apply orb_false_elim in H as [? ?]. by apply camelcase_undefined.
Qed.

Lemma css_to_keyframe_loop_completion (parts : list string) : ∀ kf : Keyframe,
  (∃ kf', css_to_keyframe_loop parts kf = Normal kf')
  ∨ css_to_keyframe_loop parts kf = Throw TypeError.
Proof.
  induction parts as [|part parts IH]; intros kf; cbn [css_to_keyframe_loop]; [eauto|].
  destruct (split ":" part) as [|property fields]; [eauto|].
  destruct property as [|c property]; [eauto|].
  destruct fields as [|value fields]; [eauto|].
  destruct (camelcase_completion (trim (String c property))) as [[name ->]| ->];
    cbn [cbind]; [apply IH|eauto].
Qed.

Lemma css_to_keyframe_completion (css : string) :
  (∃ kf, css_to_keyframe css = Normal kf) ∨ css_to_keyframe css = Throw TypeError.
Proof. apply css_to_keyframe_loop_completion. Qed.

Lemma sample_at_completion css easing n i :
  (∃ kf, sample_at css easing n i = Normal kf)
  ∨ sample_at css easing n i = Throw TypeError.
Proof. apply css_to_keyframe_completion. Qed.

Lemma cmapM_completion {A B} (f : A → completion B) (l : list A) :
  (∀ a, (∃ b, f a = Normal b) ∨ f a = Throw TypeError) →
  (∃ bs, cmapM f l = Normal bs) ∨ cmapM f l = Throw TypeError.
Proof.
  intros Hf. induction l as [|a l IH]; simpl; [eauto|].
  destruct (Hf a) as [[b ->]| ->]; simpl; [|eauto].
  destruct IH as [[bs ->]| ->]; simpl; eauto.
Qed.

Lemma cmapM_rev {A B} (f : A → completion B) (l : list A) :
  (∀ a, (∃ b, f a = Normal b) ∨ f a = Throw TypeError) →
  cmapM f (rev l) = cmap (@rev B) (cmapM f l).
Proof.
  intros Hf. induction l as [|a l IH]; [done|].
  cbn [rev cmapM]. rewrite cmapM_app, IH. cbn [cmapM].
  destruct (Hf a) as [[b ->]| ->]; cbn [cbind cmap].
  - destruct (cmapM f l) as [bs| |]; done.
  - destruct (cmapM_completion f l Hf) as [[bs ->]| ->]; done.
Qed.

Lemma cmapM_Forall2 {A B} (f : A → completion B) (l : list A) (bs : list B) :
  cmapM f l = Normal bs → Forall2 (fun a b => f a = Normal b) l bs.
Proof.
  revert bs. induction l as [|a l IH]; intros bs; simpl.
  - intros [= <-]. constructor.
  - destruct (f a) as [b| |] eqn:Ha; simpl; [|done..].
    destruct (cmapM f l) as [bs'| |]; simpl; [|done..].
    intros [= <-]. constructor; [done|]. by apply IH.
Qed.

Lemma hover_keyframes_reverse css easing (duration : number) (N : Z) :
  duration ≠ NaN → frames duration = of_Z N → (N < 2 ^ 53)%Z →
  hover_keyframes css easing duration
  = cmap (@rev Keyframe) (main_keyframes css easing duration).
Proof.
  intros Hd HN Hsmall.
  rewrite (hover_keyframes_spec _ _ _ N), (main_keyframes_spec _ _ _ N);
    [|by rewrite frames_or_else|done..].
  apply cmapM_rev. intros i. apply sample_at_completion.
Qed.

(** ** Relations kept by the operations *)

Section Frames.
Context (R : World → World → Prop) `{!Frame R}.

Lemma preserves_ret {A} (a : A) : preserves R (ret a).
Proof. intros w. apply frame_refl. Qed.

Lemma preserves_get : preserves R get.
Proof. intros w. apply frame_refl. Qed.

Lemma preserves_lift {A} (c : completion A) : preserves R (lift c).
Proof. intros w. apply frame_refl. Qed.

Lemma preserves_throw {A} (e : exn) : preserves R (@throw A e).
Proof. intros w. apply frame_refl. Qed.

Lemma preserves_modify (f : World → World) :
  (∀ w, R w (f w)) → preserves R (modify f).
Proof. intros Hf w. apply Hf. Qed.

Lemma preserves_bind {A B} (m : M A) (k : A → M B) :
  preserves R m → (∀ a, preserves R (k a)) → preserves R (bind m k).
Proof.
  intros Hm Hk w. unfold bind. specialize (Hm w).
  destruct (m w) as [w' [a|e|]]; simpl in *; [|done..].
  eapply frame_trans; [done|]. apply Hk.
Qed.

Lemma preserves_async (m : M unit) : preserves R m → preserves R (async m).
Proof.
  intros Hm w. unfold async. specialize (Hm w).
  destruct (m w) as [w' [a|e|]]; simpl in *; [done| |done].
  eapply frame_trans; [done|]. apply frame_errors.
Qed.

Lemma step_preserves (e : Event) (w : World) :
  R w (fst (handle e w)) → R w (step e w).
Proof.
  intros H. unfold step. destruct (hung w); [apply frame_refl|].
  destruct (handle e w) as [w' [a|x|]]; simpl in *; [done| |].
  - eapply frame_trans; [done|]. apply frame_errors.
  - eapply frame_trans; [done|]. apply frame_hung.
Qed.
End Frames.

Ltac frame_ops :=
  unfold log, native_cancel, native_reverse, update_animation, native_animate,
    disconnect, suspend, modify_orch,
    Driver.animate, Driver.call_callback, Driver.delay_finished,
    Driver.main_finished, Driver.abort, Driver.reverse, fire, finish,
    remove_placeholder, start_animation, resume, start_hover_animation,
    handle_hover_animation, reverse_animation, setup, observer_callback,
    destroy, update, microanimation.

Ltac frame_step known leaf :=
  first
    [ known
    | lazymatch goal with
      | |- Frame _ => apply _
      | |- preserves _ (ret _) => apply preserves_ret
      | |- preserves _ get => apply preserves_get
      | |- preserves _ (lift _) => apply preserves_lift
      | |- preserves _ (throw _) => apply preserves_throw
      | |- preserves _ (async _) => apply preserves_async
      | |- preserves _ (bind _ _) => apply preserves_bind
      | |- preserves _ (modify _) => apply preserves_modify; leaf
      | |- preserves _ (match ?x with _ => _ end) => destruct x eqn:?
      | |- preserves _ (let _ := _ in _) => cbv zeta
      | |- preserves _ _ => progress frame_ops
      | |- ∀ _, preserves _ _ => intros ?
      end ].

(** Splits an operation into its updates: [known] closes the operations
    that have a lemma, [leaf] the updates. *)
Ltac frame known leaf := repeat frame_step known leaf.

(** [R w (fst (handle e w))] for every world. *)
Ltac frame_handle known leaf :=
  lazymatch goal with
  | |- ∀ w, ?R w (fst (handle ?e w)) =>
      change (preserves R (handle e)); unfold handle; frame known leaf
  end.

(** A world as its fields. *)
Ltac destruct_world w :=
  destruct w as [w_node w_dom w_placeholders w_enter w_leave w_observers
                 w_animations w_runs w_pending w_calls w_errors w_hung w_orch].

(** A world as its fields and its closure variables. *)
Ltac destruct_orch w :=
  destruct w as [w_node w_dom w_placeholders w_enter w_leave w_observers
                 w_animations w_runs w_pending w_calls w_errors w_hung
                 [v_transition v_params v_threshold v_once v_mode v_observer
                  v_animated v_animation v_hoverAnimation v_placeholder
                  v_hovered v_initialStyles]].

(** Reads the fields of updated worlds. *)
Ltac fields :=
  cbv [with_node with_dom with_placeholders with_listeners with_observers
       with_animations with_runs with_pending with_calls with_errors with_hung
       with_orch set_observer set_animated set_animation set_hoverAnimation
       set_placeholder set_hovered set_initialStyles set_config
       node dom placeholders enter_listener leave_listener observers
       animations runs pending calls errors hung orch
       transition params threshold once mode observer animated animation
       hoverAnimation placeholder hovered initialStyles fst snd].

Tactic Notation "fields" "in" "*" :=
  cbv [with_node with_dom with_placeholders with_listeners with_observers
       with_animations with_runs with_pending with_calls with_errors with_hung
       with_orch set_observer set_animated set_animation set_hoverAnimation
       set_placeholder set_hovered set_initialStyles set_config
       node dom placeholders enter_listener leave_listener observers
       animations runs pending calls errors hung orch
       transition params threshold once mode observer animated animation
       hoverAnimation placeholder hovered initialStyles fst snd] in *.

(** Runs the monad's operations. *)
Ltac run_monad :=
  cbv [bind lift ret get throw modify modify_orch log update_animation
       native_animate native_cancel native_reverse disconnect suspend async];
  fields.

(** ** The driver *)

Lemma alter_app_last {A} (f : A → A) (l : list A) (x : A) :
  alter f (length l) (l ++ [x]) = l ++ [f x].
Proof. rewrite alter_app_r_alt by done. by rewrite Nat.sub_diag. Qed.

Lemma animate_effect (options : TransitionConfig) (cb : Callback) (w : World) :
  Driver.animate options cb w =
  match delay_stage_keyframes options with
  | Normal kfs =>
      (with_runs (runs w ++ [{| run_options := options; run_onFinish := cb;
                                run_animation := length (animations w) |}])
         (with_animations
            (animations w ++ [delay_stage_animation options kfs (length (runs w))]) w),
       Normal (length (runs w)))
  | Throw e => (w, Throw e)
  | Diverge => (w, Diverge)
  end.
Proof.
  destruct_world w.
  unfold Driver.animate, delay_stage_keyframes.
  destruct (css options) as [f|]; [destruct (css_to_keyframe _) as [st| |] eqn:Hst|];
    run_monad; rewrite ?Hst; cbn -[alter]; try done.
  all: by rewrite alter_app_last.
Qed.

Lemma delay_finished_effect (r : nat) (rn : Run) (w : World) :
  runs w !! r = Some rn →
  Driver.delay_finished r w =
  match main_stage_keyframes (run_options rn) with
  | Normal kfs =>
      (with_runs (alter (set_run_animation (length (animations w))) r (runs w))
         (with_animations
            (animations w ++ [main_stage_animation (run_options rn) kfs r]) w),
       Normal tt)
  | Throw e => (w, Throw e)
  | Diverge => (w, Diverge)
  end.
Proof.
  destruct_world w. cbn [runs animations]. intros Hr.
  unfold Driver.delay_finished, main_stage_keyframes. run_monad. rewrite Hr.
  destruct (css (run_options rn)) as [f|];
    [destruct (main_keyframes _ _ _) as [kfs| |]|];
    cbn -[alter]; try done.
  all: by rewrite alter_app_last.
Qed.

Lemma main_finished_calls (r : nat) (rn : Run) (w : World) :
  runs w !! r = Some rn →
  calls (fst (Driver.main_finished r w))
  = calls w ++ tick_call r rn ++ [CallOnFinish r (run_onFinish rn)]
  ∧ snd (Driver.main_finished r w) = Normal tt
  ∧ animations (fst (Driver.main_finished r w)) = animations w
  ∧ runs (fst (Driver.main_finished r w)) = runs w.
Proof.
  destruct_orch w. cbn [runs calls animations]. intros Hr.
  unfold Driver.main_finished, tick_call, Driver.call_callback. run_monad.
  rewrite Hr.
  destruct (tick (run_options rn)), (run_onFinish rn); cbn; rewrite <- ?app_assoc;
    repeat case_match; done.
Qed.

Lemma finish_effect (a : nat) (an : NativeAnimation) (w : World) :
  animations w !! a = Some an → playState an = Running →
  finish a w
  = fire (onfinish an)
      (with_animations (alter (set_playState Finished) a (animations w)) w).
Proof.
  destruct_world w. cbn [animations]. intros Ha Hplay.
  unfold finish. run_monad. by rewrite Ha, Hplay.
Qed.

Lemma finish_idle (a : nat) (w : World) :
  (∀ an, animations w !! a = Some an → playState an ≠ Running) →
  finish a w = (w, Normal tt).
Proof.
  intros Ha. unfold finish, bind, get.
  destruct (animations w !! a) as [an|] eqn:Han; [|done].
  specialize (Ha an eq_refl). by destruct (playState an).
Qed.

(** *** The main stage starts at the finish of the delay stage only *)

#[local] Instance no_new_main_frame r : Frame (no_new_main r).
Proof.
  split; unfold no_new_main.
  - eauto.
  - intros w1 w2 w3 H12 H23 id an Han Hh.
    destruct (H23 id an Han Hh) as (an2 & Han2 & Hh2). eauto.
  - intros w x. by destruct_world w; eauto.
  - intros w. by destruct_world w; eauto.
Qed.

Lemma no_new_main_same r w w' :
  animations w' = animations w → no_new_main r w w'.
Proof. intros Heq id an. rewrite Heq. eauto. Qed.

Lemma no_new_main_alter r f a w :
  (∀ an, onfinish (f an) = MainFinished r → onfinish an = MainFinished r) →
  no_new_main r w (with_animations (alter f a (animations w)) w).
Proof.
  intros Hf id an. destruct_world w. cbn -[alter].
  destruct (decide (a = id)) as [->|Hne].
  - rewrite list_lookup_alter_eq. destruct (w_animations !! id) as [an0|]; [|done].
    intros [= <-] Hh. eauto.
  - rewrite list_lookup_alter_ne by done. eauto.
Qed.

Lemma no_new_main_app r x w :
  onfinish x ≠ MainFinished r →
  no_new_main r w (with_animations (animations w ++ [x]) w).
Proof.
  intros Hx id an. destruct_world w. cbn -[alter].
  intros [Hold|[_ Hnew]]%lookup_app_Some Hh; [eauto|].
  destruct (id - length w_animations) as [|n]; [|done].
  injection Hnew as <-. done.
Qed.

Ltac no_new_main_leaf :=
  intros ?w;
  first
    [ apply no_new_main_app; discriminate
    | apply no_new_main_alter; intros ?an; cbn; congruence
    | apply no_new_main_same;
      match goal with w : World |- _ => destruct_orch w end;
      cbn; repeat case_match; reflexivity ].

Lemma fire_no_new_main (r : nat) (h : Handler) :
  h ≠ DelayFinished r → preserves (no_new_main r) (fire h).
Proof.
  intros Hh. destruct h as [|r'| | | |]; frame fail no_new_main_leaf.
Qed.

Lemma finish_no_new_main (r a : nat) (w : World) :
  (∃ old, animations w !! a = Some old ∧ playState old = Running
          ∧ onfinish old = DelayFinished r)
  ∨ no_new_main r w (fst (finish a w)).
Proof.
  destruct (animations w !! a) as [an|] eqn:Ha;
    [destruct (decide (playState an = Running)) as [Hplay|Hplay]|].
  - destruct (decide (onfinish an = DelayFinished r)) as [Hh|Hh]; [eauto|].
    right. rewrite (finish_effect a an w Ha Hplay).
    eapply frame_trans; [|apply (fire_no_new_main r _ Hh)].
    apply no_new_main_alter. done.
  - right. rewrite finish_idle; [apply frame_refl|]. congruence.
  - right. rewrite finish_idle; [apply frame_refl|]. congruence.
Qed.

Lemma step_no_new_main (r : nat) (e : Event) (w : World) :
  (∃ a old, e = AnimationFinish a ∧ animations w !! a = Some old
            ∧ playState old = Running ∧ onfinish old = DelayFinished r)
  ∨ no_new_main r w (step e w).
Proof.
  destruct e as [o b| | | |a| |p|r'|r' cb].
  5: { destruct (finish_no_new_main r a w) as [(old & ?)|H]; [left; eauto|].
       right. apply step_preserves; [apply _|]. done. }
  all: right; apply step_preserves; [apply _|]; revert w;
    frame_handle fail no_new_main_leaf.
Qed.

Lemma finish_delay_stage (w : World) (a r : nat) (an : NativeAnimation) (rn : Run) :
  animations w !! a = Some an → playState an = Running →
  onfinish an = DelayFinished r → runs w !! r = Some rn →
  finish a w =
  match main_stage_keyframes (run_options rn) with
  | Normal kfs =>
      (with_runs (alter (set_run_animation (length (animations w))) r (runs w))
         (with_animations
            (alter (set_playState Finished) a (animations w)
               ++ [main_stage_animation (run_options rn) kfs r]) w),
       Normal tt)
  | Throw e =>
      (with_animations (alter (set_playState Finished) a (animations w)) w, Throw e)
  | Diverge =>
      (with_animations (alter (set_playState Finished) a (animations w)) w, Diverge)
  end.
Proof.
  intros Ha Hplay Hh Hr. rewrite (finish_effect a an w Ha Hplay), Hh.
  cbn [fire]. rewrite (delay_finished_effect r rn); [|by destruct_world w].
  destruct (main_stage_keyframes _); [|done..].
  destruct_world w. cbn -[alter]. by rewrite length_alter.
Qed.



Lemma cmapM_sample_completion f easing n (l : list Z) :
  (∃ kfs, cmapM (sample_at f easing n) l = Normal kfs)
  ∨ cmapM (sample_at f easing n) l = Throw TypeError.
Proof. apply cmapM_completion. intros i. apply sample_at_completion. Qed.

(** C1 (amended). When the delay stage of a run with a [css] function
    finishes and the number of frames [n = ceil((duration || 0) / (1000 / 60))]
    is an integer below [2^53], the keyframes of the main-stage animation
    are the translations of [css(t_i, 1 - t_i)], [t_i = easing(i / n)], for
    [i = 0, ..., n] in increasing order: [n + 1] keyframes, none when [n] is
    negative. When a translation raises (C10), the handler raises and no
    animation is created. *)
Theorem main_stage_sampling (w : World) (a r : nat) (an : NativeAnimation)
    (rn : Run) (f : number → number → string) (n : Z) :
  animations w !! a = Some an → playState an = Running →
  onfinish an = DelayFinished r → runs w !! r = Some rn →
  css (run_options rn) = Some f →
  frames (or_else (duration_of (run_options rn)) (of_Z 0)) = of_Z n →
  (n < 2 ^ 53)%Z →
  let sample := sample_at f (easing_of (run_options rn)) n in
  match cmapM sample (upto n) with
  | Normal kfs =>
      keyframes <$> animations (fst (finish a w)) !! length (animations w)
      = Some kfs
      ∧ length kfs = Z.to_nat (n + 1)
      ∧ Forall2 (fun i kf => sample i = Normal kf) (upto n) kfs
  | Throw e =>
      snd (finish a w) = Throw e
      ∧ length (animations (fst (finish a w))) = length (animations w)
  | Diverge => False
  end.
Proof.
  intros Ha Hplay Hh Hr Hcss Hn Hsmall sample.
  rewrite (finish_delay_stage w a r an rn Ha Hplay Hh Hr).
  unfold main_stage_keyframes.
  rewrite Hcss, (main_keyframes_spec _ _ _ n Hn Hsmall).
  fold sample.
  destruct (cmapM sample (upto n)) as [kfs|e|] eqn:Hkfs.
  - apply cmapM_Forall2 in Hkfs as Hall. split_and!; [|by rewrite <- (Forall2_length _ _ _ Hall), upto_length|done].
    destruct_world w. cbn -[alter].
    rewrite lookup_app_r by (by rewrite length_alter).
    by rewrite length_alter, Nat.sub_diag.
  - destruct_world w. cbn -[alter]. by rewrite length_alter.
  - by destruct (cmapM_sample_completion f (easing_of (run_options rn)) n (upto n))
      as [[? ?]|?]; unfold sample in *; congruence.
Qed.

(** C1 as stated fails.  With a duration that is not a number, where
    [ceil(duration / (1000 / 60))] is no number either, the list has one
    keyframe, sampled at [easing(0 / 0)]: the code counts the frames of
    [duration || 0].  With an infinite duration no list is built: the loop
    never exits. *)
Lemma main_stage_not_sampled :
  frames NaN = NaN
  ∧ main_keyframes (fun t _ => "opacity:" +:+ show t) linear NaN
    = Normal [opacity "NaN"]
  ∧ frames PInf = PInf
  ∧ ∀ fuel kfs,
      sample_forward fuel (fun t _ => "opacity:" +:+ show t) linear
        (frames (or_else PInf (of_Z 0))) (of_Z 0) [] ≠ Normal kfs.
Proof.
  split_and!; [reflexivity..|].
  intros fuel kfs. by apply sample_forward_unbounded.
Qed.

(** The four keyframes of the fade over 40 ms. *)
Lemma main_stage_sampling_witness :
  keyframes <$> animations (fst (finish 0 fade_run)) !! length (animations fade_run)
  = Some [opacity "0"; opacity "0.3333333333333333";
          opacity "0.6666666666666666"; opacity "1"].
Proof.
  pose proof (main_stage_sampling fade_run 0 0 _ _ _ 3 eq_refl eq_refl eq_refl
                eq_refl eq_refl eq_refl eq_refl) as H.
  cbv zeta in H.
  change (cmapM _ (upto 3))
    with (Normal [opacity "0"; opacity "0.3333333333333333";
                  opacity "0.6666666666666666"; opacity "1"]) in H.
  exact (proj1 H).
Defined.

(** *** After [abort] no completion callback of the run is called *)

#[local] Instance keeps_silence_frame r : Frame (keeps_silence r).
Proof.
  split; unfold keeps_silence.
  - done.
  - intros w1 w2 w3 H12 H23 H1. destruct (H12 H1) as [H2 E12].
    destruct (H23 H2) as [H3 E23]. split; [done|congruence].
  - intros w x. by destruct_world w.
  - intros w. by destruct_world w.
Qed.

Lemma keeps_silence_same r w w' :
  animations w' = animations w → length (runs w) ≤ length (runs w') →
  calls w' = calls w → keeps_silence r w w'.
Proof.
  intros Ha Hr Hc [Hlt Hs]. unfold silenced, completions.
  rewrite Ha, Hc. split; [split; [lia|done]|done].
Qed.

Lemma keeps_silence_animation r x w :
  handler_run (onfinish x) ≠ Some r →
  keeps_silence r w (with_animations (animations w ++ [x]) w).
Proof.
  intros Hx [Hlt Hs]. destruct_world w. split; [split; [done|]|done].
  cbn -[alter]. intros a an [Hold|[_ Hnew]]%lookup_app_Some; [eauto|].
  destruct (a - length w_animations) as [|n]; [|done].
  injection Hnew as <-. done.
Qed.

Lemma keeps_silence_alter r f a w :
  (∀ an, playState (f an) = Running → handler_run (onfinish (f an)) = Some r →
         playState an = Running ∧ handler_run (onfinish an) = Some r) →
  keeps_silence r w (with_animations (alter f a (animations w)) w).
Proof.
  intros Hf [Hlt Hs]. destruct_world w. split; [split; [done|]|done].
  cbn -[alter] in *. intros id an.
  destruct (decide (a = id)) as [->|Hne].
  - rewrite list_lookup_alter_eq.
    destruct (w_animations !! id) as [an0|] eqn:Han0; [|done].
    intros [= <-] Hplay Hh. destruct (Hf an0 Hplay Hh) as [Hplay0 Hh0].
    by apply (Hs id an0).
  - rewrite list_lookup_alter_ne by done. eauto.
Qed.

Lemma keeps_silence_call r c w :
  completion_of r c = false →
  keeps_silence r w (with_calls (calls w ++ [c]) w).
Proof.
  intros Hc Hs. destruct_world w. split; [done|].
  unfold completions. cbn. rewrite filter_app, filter_cons_False by congruence.
  by rewrite filter_nil, app_nil_r.
Qed.

Ltac keeps_silence_leaf :=
  intros ?w;
  first
    [ apply keeps_silence_animation; discriminate
    | apply keeps_silence_call; cbn;
      first [done | apply bool_decide_eq_false_2; congruence]
    | apply keeps_silence_alter; intros ?an; cbn; (try discriminate); (try done);
      intros; simplify_eq; done
    | apply keeps_silence_same;
      match goal with w : World |- _ => destruct_orch w end;
      cbn -[alter]; repeat case_match;
      rewrite ?length_app, ?length_alter; first [reflexivity | lia] ].

Lemma animate_keeps_silence r options cb :
  preserves (keeps_silence r) (Driver.animate options cb).
Proof.
  intros w. rewrite animate_effect.
  destruct (delay_stage_keyframes options) as [kfs| |]; cbn [fst]; [|done..].
  intros [Hlt Hs]. destruct_world w. unfold silenced, completions.
  fields in *. split; [split|done].
  - rewrite length_app. lia.
  - intros a an [Hold|[_ Hnew]]%lookup_app_Some; [eauto|].
    destruct (a - length w_animations) as [|n]; [|done].
    injection Hnew as <-. cbn. intros _ [= Heq]. lia.
Qed.

Lemma update_twice (a : nat) (f g : NativeAnimation → NativeAnimation) (w : World) :
  fst ((update_animation a f ;;; update_animation a g) w)
  = with_animations (alter (g ∘ f) a (animations w)) w.
Proof. destruct_world w. run_monad. by rewrite list_alter_alter_eq. Qed.

Lemma bind_get {A} (k : World → M A) (w : World) : bind get k w = k w w.
Proof. reflexivity. Qed.

Lemma reverse_keeps_silence r r' cb :
  preserves (keeps_silence r) (Driver.reverse r' cb).
Proof.
  intros w. unfold Driver.reverse.
  rewrite bind_get.
  destruct (runs w !! r') as [rn|]; [|apply (frame_refl (R:=keeps_silence r))].
  unfold native_reverse. rewrite update_twice.
  apply keeps_silence_alter. done.
Qed.

Lemma hover_reverse_keeps_silence r a :
  preserves (keeps_silence r)
    (native_reverse a ;;; update_animation a (set_onfinish Neutral)).
Proof.
  intros w. unfold native_reverse. rewrite update_twice.
  apply keeps_silence_alter. done.
Qed.

Lemma fire_keeps_silence r h :
  handler_run h ≠ Some r → preserves (keeps_silence r) (fire h).
Proof.
  intros Hh. destruct h as [|r'|r'| |cb|fn]; cbn in Hh;
    frame fail keeps_silence_leaf.
Qed.

Lemma finish_keeps_silence r a : preserves (keeps_silence r) (finish a).
Proof.
  intros w Hs.
  destruct (animations w !! a) as [an|] eqn:Ha;
    [destruct (decide (playState an = Running)) as [Hplay|Hplay]|].
  - rewrite (finish_effect a an w Ha Hplay).
    pose proof (proj2 Hs a an Ha Hplay) as Hh. revert Hs.
    eapply (frame_trans (R:=keeps_silence r)); [|by apply fire_keeps_silence].
    by apply keeps_silence_alter.
  - rewrite finish_idle; [done|congruence].
  - rewrite finish_idle; [done|congruence].
Qed.

Ltac keeps_silence_known :=
  idtac;
  lazymatch goal with
  | |- preserves _ (Driver.animate _ _) => apply animate_keeps_silence
  | |- preserves _ (Driver.reverse _ _) => apply reverse_keeps_silence
  | |- preserves _ (native_reverse _ ;;; _) => apply hover_reverse_keeps_silence
  | |- preserves _ (finish _) => apply finish_keeps_silence
  end.

Lemma step_keeps_silence r e w : keeps_silence r w (step e w).
Proof.
  apply step_preserves; [apply _|]. revert w.
  destruct e; frame_handle keeps_silence_known keeps_silence_leaf.
Qed.

Lemma run_keeps_silence r es : ∀ w, keeps_silence r w (run es w).
Proof.
  induction es as [|e es IH]; intros w; [by intros ?|]. cbn [run fold_left].
  eapply (frame_trans (R:=keeps_silence r)); [apply step_keeps_silence|apply IH].
Qed.

Lemma abort_effect (r : nat) (rn : Run) (w : World) :
  runs w !! r = Some rn →
  Driver.abort r w
  = (with_animations (alter aborted_state (run_animation rn) (animations w)) w,
     Normal tt).
Proof.
  destruct_world w. intros Hr. unfold Driver.abort. run_monad. fields in *.
  rewrite Hr. by rewrite !list_alter_alter_eq.
Qed.

Lemma abort_invalid (r : nat) (w : World) :
  runs w !! r = None → Driver.abort r w = (w, Normal tt).
Proof. intros Hr. unfold Driver.abort. rewrite bind_get. by rewrite Hr. Qed.

Lemma abort_silences (r : nat) (w : World) :
  stages_current w → is_Some (runs w !! r) →
  silenced r (fst (Driver.abort r w))
  ∧ completions r (fst (Driver.abort r w)) = completions r w.
Proof.
  intros Hcur [rn Hr]. rewrite (abort_effect r rn w Hr).
  destruct_world w. unfold silenced, completions, stages_current in *.
  fields in *. split; [split|done].
  - by apply lookup_lt_Some in Hr.
  - intros a an Ha Hplay Hh.
    destruct (decide (run_animation rn = a)) as [<-|Hne].
    + rewrite list_lookup_alter_eq in Ha.
      destruct (w_animations !! run_animation rn); [|done].
      injection Ha as <-. done.
    + rewrite list_lookup_alter_ne in Ha by done.
      destruct (Hcur a an r Ha Hplay Hh) as (rn' & Hr' & Heq). congruence.
Qed.

(** *** A playing stage belongs to the current animation of its run *)

#[local] Instance keeps_current_frame : Frame keeps_current.
Proof.
  split; unfold keeps_current.
  - done.
  - eauto.
  - intros w x. by destruct_world w.
  - intros w. by destruct_world w.
Qed.

Lemma keeps_current_same w w' :
  animations w' = animations w → runs w' = runs w → keeps_current w w'.
Proof. intros Ha Hr. unfold keeps_current, stages_current. by rewrite Ha, Hr. Qed.

Lemma keeps_current_animation x w :
  handler_run (onfinish x) = None →
  keeps_current w (with_animations (animations w ++ [x]) w).
Proof.
  intros Hx Hcur. destruct_world w. unfold stages_current in *. fields in *.
  intros a an r [Hold|[_ Hnew]]%lookup_app_Some; [eauto|].
  destruct (a - length w_animations) as [|n]; [|done].
  injection Hnew as <-. congruence.
Qed.

Lemma keeps_current_alter f a w :
  (∀ an, playState (f an) = Running →
         playState an = Running ∧ 
         (handler_run (onfinish (f an)) = None
          ∨ handler_run (onfinish (f an)) = handler_run (onfinish an))) →
  keeps_current w (with_animations (alter f a (animations w)) w).
Proof.
  intros Hf Hcur. destruct_world w. unfold stages_current in *. fields in *.
  intros id an r.
  destruct (decide (a = id)) as [->|Hne].
  - rewrite list_lookup_alter_eq.
    destruct (w_animations !! id) as [an0|] eqn:Han0; [|done].
    intros [= <-] Hplay Hh. destruct (Hf an0 Hplay) as [Hplay0 [Hnone|Heq]];
      [congruence|]. rewrite Heq in Hh. eauto.
  - rewrite list_lookup_alter_ne by done. eauto.
Qed.

Lemma keeps_current_reversed f a w :
  (∀ an, handler_run (onfinish (f an)) = None) →
  keeps_current w (with_animations (alter f a (animations w)) w).
Proof.
  intros Hf Hcur. destruct_world w. unfold stages_current in *. fields in *.
  intros id an r.
  destruct (decide (a = id)) as [->|Hne].
  - rewrite list_lookup_alter_eq.
    destruct (w_animations !! id) as [an0|] eqn:Han0; [|done].
    intros [= <-] Hplay Hh. by rewrite Hf in Hh.
  - rewrite list_lookup_alter_ne by done. eauto.
Qed.

Lemma keeps_current_finished a w :
  keeps_current w
    (with_animations (alter (set_playState Finished) a (animations w)) w).
Proof. apply keeps_current_alter. intros an. cbn. discriminate. Qed.

Ltac keeps_current_leaf :=
  intros ?w;
  first
    [ apply keeps_current_animation; reflexivity
    | apply keeps_current_reversed; intros ?an; reflexivity
    | apply keeps_current_alter; intros ?an; cbn; (try discriminate); by eauto
    | apply keeps_current_same;
      match goal with w : World |- _ => destruct_orch w end;
      cbn -[alter]; repeat case_match; reflexivity ].

Lemma animate_keeps_current options cb :
  preserves keeps_current (Driver.animate options cb).
Proof.
  intros w. rewrite animate_effect.
  destruct (delay_stage_keyframes options) as [kfs| |]; cbn [fst];
    [|apply (frame_refl (R:=keeps_current))..].
  intros Hcur. destruct_world w. unfold stages_current in *. fields in *.
  intros a an r [Hold|[Hge Hnew]]%lookup_app_Some Hplay Hh.
  - destruct (Hcur a an r Hold Hplay Hh) as (rn & Hr & Ha).
    exists rn. split; [|done]. by apply lookup_app_l_Some.
  - destruct (a - length w_animations) as [|n] eqn:Hn; [|done].
    injection Hnew as <-. cbn in Hh. injection Hh as <-.
    eexists. rewrite list_lookup_middle by done. split; [done|]. cbn. lia.
Qed.

Lemma reverse_keeps_current r cb : preserves keeps_current (Driver.reverse r cb).
Proof.
  intros w. unfold Driver.reverse. rewrite bind_get.
  destruct (runs w !! r) as [rn|]; [|apply (frame_refl (R:=keeps_current))].
  unfold native_reverse. rewrite update_twice.
  by apply keeps_current_reversed.
Qed.

Lemma hover_reverse_keeps_current a :
  preserves keeps_current
    (native_reverse a ;;; update_animation a (set_onfinish Neutral)).
Proof.
  intros w. unfold native_reverse. rewrite update_twice.
  by apply keeps_current_reversed.
Qed.

Lemma fire_keeps_current h :
  (∀ r, h ≠ DelayFinished r) → preserves keeps_current (fire h).
Proof.
  intros Hh. destruct h as [|r|r| |cb|fn]; [|by destruct (Hh r)|..];
    frame fail keeps_current_leaf.
Qed.

Lemma finish_keeps_current a : preserves keeps_current (finish a).
Proof.
  intros w Hcur.
  destruct (animations w !! a) as [an|] eqn:Ha;
    [destruct (decide (playState an = Running)) as [Hplay|Hplay]|].
  2,3: rewrite finish_idle; [done|congruence].
  assert ((∃ r, onfinish an = DelayFinished r)
          ∨ ∀ r, onfinish an ≠ DelayFinished r) as [[r Hh]|Hh]
    by (destruct (onfinish an); eauto).
  - destruct (Hcur a an r Ha Hplay) as (rn & Hr & Hrn); [by rewrite Hh|].
    rewrite (finish_delay_stage w a r an rn Ha Hplay Hh Hr).
    destruct (main_stage_keyframes (run_options rn)) as [kfs|e|]; cbn [fst].
    2,3: by apply keeps_current_finished.
    destruct_world w. unfold stages_current in *. fields in *.
    intros a' an' r' [Hold|[Hge Hnew]]%lookup_app_Some Hplay' Hh'.
    + destruct (decide (a = a')) as [<-|Hne].
      { rewrite list_lookup_alter_eq, Ha in Hold. injection Hold as <-. done. }
      rewrite list_lookup_alter_ne in Hold by done.
      destruct (Hcur a' an' r' Hold Hplay' Hh') as (rn' & Hr' & Hrn').
      destruct (decide (r = r')) as [<-|Hner]; [congruence|].
      exists rn'. by rewrite list_lookup_alter_ne.
    + rewrite length_alter in Hge, Hnew.
      destruct (a' - length w_animations) as [|n] eqn:Hn; [|done].
      injection Hnew as <-. cbn in Hh'. injection Hh' as <-.
      exists (set_run_animation (length w_animations) rn).
      rewrite list_lookup_alter_eq, Hr. split; [done|]. cbn. lia.
  - rewrite (finish_effect a an w Ha Hplay). revert Hcur.
    eapply (frame_trans (R:=keeps_current)); [apply keeps_current_finished|].
    by apply fire_keeps_current.
Qed.

Ltac keeps_current_known :=
  idtac;
  lazymatch goal with
  | |- preserves _ (Driver.animate _ _) => apply animate_keeps_current
  | |- preserves _ (Driver.reverse _ _) => apply reverse_keeps_current
  | |- preserves _ (native_reverse _ ;;; _) => apply hover_reverse_keeps_current
  | |- preserves _ (finish _) => apply finish_keeps_current
  end.

Lemma step_keeps_current e w : stages_current w → stages_current (step e w).
Proof.
  change (keeps_current w (step e w)).
  apply step_preserves; [apply _|]. revert w.
  destruct e; frame_handle keeps_current_known keeps_current_leaf.
Qed.

Lemma run_keeps_current es : ∀ w, stages_current w → stages_current (run es w).
Proof.
  induction es as [|e es IH]; intros w Hcur; [done|]. cbn [run fold_left].
  apply IH. by apply step_keeps_current.
Qed.

Lemma attach_stages_current p n children :
  stages_current (attach p (fresh_page n children)).
Proof.
  assert (preserves keeps_current (microanimation p)) as H
    by frame keeps_current_known keeps_current_leaf.
  apply H. by intros a an r Ha.
Qed.

Lemma abort_twice (w : World) (r : nat) :
  fst (Driver.abort r (fst (Driver.abort r w))) = fst (Driver.abort r w).
Proof.
  destruct (runs w !! r) as [rn|] eqn:Hr.
  - rewrite (abort_effect r rn w Hr). cbn [fst].
    rewrite (abort_effect r rn); [|by destruct_world w].
    destruct_world w. fields. by rewrite list_alter_alter_eq.
  - rewrite (abort_invalid r w Hr). cbn [fst]. by rewrite (abort_invalid r w Hr).
Qed.

Lemma abort_returns (w : World) (r : nat) : snd (Driver.abort r w) = Normal tt.
Proof.
  destruct (runs w !! r) as [rn|] eqn:Hr.
  - by rewrite (abort_effect r rn w Hr).
  - by rewrite (abort_invalid r w Hr).
Qed.

(** C9. [abort()] twice leaves the world that [abort()] once leaves; it
    returns in every world, before the main stage as well; and after
    [abort()] of a run, whatever events follow, neither [tick(1, 0)] nor
    [onFinish] of that run is called. *)
Theorem abort_idempotent_and_final :
  (∀ w r, fst (Driver.abort r (fst (Driver.abort r w))) = fst (Driver.abort r w))
  ∧ (∀ w r, snd (Driver.abort r w) = Normal tt)
  ∧ (∀ w r es,
       stages_current w → is_Some (runs w !! r) →
       completions r (run es (fst (Driver.abort r w))) = completions r w).
Proof.
  split_and!; [apply abort_twice|apply abort_returns|].
  intros w r es Hcur Hr.
  destruct (abort_silences r w Hcur Hr) as [Hs <-].
  by apply (run_keeps_silence r es).
Qed.

Lemma fade_run_stages_current : stages_current fade_run.
Proof.
  apply (animate_keeps_current fade_options (UserCallback 0) page).
  by intros a an r Ha.
Defined.

(** A run aborted in its delay stage: both stages "finish", nothing is
    called. *)
Lemma abort_idempotent_and_final_witness :
  completions 0
    (run [AnimationFinish 0; AnimationFinish 1] (fst (Driver.abort 0 fade_run)))
  = completions 0 fade_run.
Proof.
  apply (proj2 (proj2 abort_idempotent_and_final)).
  - exact fade_run_stages_current.
  - eexists. reflexivity.
Defined.

(** ** The hover handlers *)

Lemma step_running (e : Event) (w : World) (w' : World) :
  hung w = false → handle e w = (w', Normal tt) → step e w = w'.
Proof. intros Hh He. unfold step. by rewrite Hh, He. Qed.

Lemma start_hover_animation_effect (w : World) :
  start_hover_animation w =
  match hover_stage_keyframes (transition (orch w) (node w) (params (orch w))) with
  | Normal kfs =>
      (with_orch
         (set_hoverAnimation (Some (length (animations w)))
            (set_initialStyles (Some (node w)) (orch w)))
         (with_animations
            (animations w
               ++ [hover_stage_animation
                     (transition (orch w) (node w) (params (orch w))) kfs]) w),
       Normal tt)
  | Throw e => (with_orch (set_initialStyles (Some (node w)) (orch w)) w, Throw e)
  | Diverge => (with_orch (set_initialStyles (Some (node w)) (orch w)) w, Diverge)
  end.
Proof.
  destruct_orch w. unfold start_hover_animation, hover_stage_keyframes.
  run_monad.
  destruct (css (v_transition w_node v_params)) as [f|];
    [destruct (hover_keyframes _ _ _) as [kfs| |]|]; fields; try done.
  all: by rewrite alter_app_last.
Qed.

#[local] Instance keeps_hovered_frame : Frame keeps_hovered.
Proof.
  split; unfold keeps_hovered.
  - done.
  - eauto.
  - intros w x. by destruct_world w.
  - intros w. by destruct_world w.
Qed.

Ltac keeps_hovered_leaf :=
  intros ?w; match goal with w : World |- _ => destruct_orch w end;
  unfold keeps_hovered; cbn -[alter]; repeat case_match; done.

Lemma step_keeps_hovered (e : Event) (w : World) :
  e = MouseLeave ∨ keeps_hovered w (step e w).
Proof.
  destruct e; [| |by left|..]; right; (apply step_preserves; [apply _|]);
    revert w; frame_handle fail keeps_hovered_leaf.
Qed.

(** C4 (amended). In hover mode pointer-enter samples the descriptor
    backward: when the number of frames [n = ceil(duration / (1000 / 60))]
    is an integer below [2^53], keyframe [j] is taken at
    [t = easing((n - j) / n)] ([i] decreasing from [n] to [0]), which is the
    reverse of the list the driver builds; with a duration that is not a
    number the list is empty.  The animation plays with easing pre-applied,
    linearly, fill-both.  When the sampling raises, pointer-enter sets
    [hovered] and creates no animation.  Pointer-leave while hovered resets
    [hovered] and reverses the native animation that [hoverAnimation] holds,
    neither cancelling it nor starting another, and reverses nothing when
    there is none; and [hovered] is reset to [false] by the pointer-leave
    handler only. *)
Theorem hover_sampling_and_reversal :
  (∀ css easing duration n,
     frames duration = of_Z n → (n < 2 ^ 53)%Z →
     hover_keyframes css easing duration
     = cmapM (sample_at css easing n) (rev (upto n))
     ∧ hover_keyframes css easing duration
       = cmap (@rev Keyframe) (main_keyframes css easing duration))
  ∧ (∀ css easing, hover_keyframes css easing NaN = Normal [])
  ∧ (∀ w kfs,
       hung w = false → enter_listener w = true → hovered (orch w) = false →
       hover_stage_keyframes (transition (orch w) (node w) (params (orch w)))
       = Normal kfs →
       animations (step MouseEnter w)
       = animations w
           ++ [hover_stage_animation
                 (transition (orch w) (node w) (params (orch w))) kfs]
       ∧ hoverAnimation (orch (step MouseEnter w)) = Some (length (animations w))
       ∧ hovered (orch (step MouseEnter w)) = true)
  ∧ (∀ w x,
       hung w = false → enter_listener w = true → hovered (orch w) = false →
       hover_stage_keyframes (transition (orch w) (node w) (params (orch w)))
       = Throw x →
       animations (step MouseEnter w) = animations w
       ∧ hoverAnimation (orch (step MouseEnter w)) = hoverAnimation (orch w)
       ∧ hovered (orch (step MouseEnter w)) = true)
  ∧ (∀ w,
       hung w = false → leave_listener w = true → hovered (orch w) = true →
       animations (step MouseLeave w)
       = match hoverAnimation (orch w) with
         | Some a =>
             alter (set_onfinish Neutral ∘ reversed_state) a (animations w)
         | None => animations w
         end
       ∧ hoverAnimation (orch (step MouseLeave w)) = hoverAnimation (orch w)
       ∧ hovered (orch (step MouseLeave w)) = false)
  ∧ (∀ w e,
       hovered (orch w) = true → hovered (orch (step e w)) = false →
       e = MouseLeave).
Proof.
  split_and!.
  - intros css easing duration n Hn Hsmall. split.
    + by apply hover_keyframes_spec.
    + apply (hover_keyframes_reverse _ _ _ n); [|done..].
      by intros ->.
  - done.
  - intros w kfs Hhung Henter Hhovered Hkfs.
    assert (handle MouseEnter w
            = (with_orch
                 (set_hoverAnimation (Some (length (animations w)))
                    (set_initialStyles (Some (node w))
                       (set_hovered true (orch w))))
                 (with_animations
                    (animations w
                       ++ [hover_stage_animation
                             (transition (orch w) (node w) (params (orch w)))
                             kfs]) w),
               Normal tt)) as Hstep.
    { unfold handle, handle_hover_animation. rewrite bind_get, Henter, bind_get.
      rewrite Hhovered. cbn [negb]. unfold bind at 1. unfold modify_orch, modify.
      rewrite start_hover_animation_effect.
      destruct_orch w. fields in *. by rewrite Hkfs. }
    rewrite (step_running _ _ _ Hhung Hstep). by destruct_orch w.
  - intros w x Hhung Henter Hhovered Hkfs.
    assert (handle MouseEnter w
            = (with_orch
                 (set_initialStyles (Some (node w)) (set_hovered true (orch w)))
                 w,
               Throw x)) as Hstep.
    { unfold handle, handle_hover_animation. rewrite bind_get, Henter, bind_get.
      rewrite Hhovered. cbn [negb]. unfold bind at 1. unfold modify_orch, modify.
      rewrite start_hover_animation_effect.
      destruct_orch w. fields in *. by rewrite Hkfs. }
    unfold step. rewrite Hhung, Hstep. by destruct_orch w.
  - intros w Hhung Hleave Hhovered.
    assert (handle MouseLeave w
            = (with_animations
                 (match hoverAnimation (orch w) with
                  | Some a =>
                      alter (set_onfinish Neutral ∘ reversed_state) a
                        (animations w)
                  | None => animations w
                  end)
                 (with_orch (set_animated false (set_hovered false (orch w))) w),
               Normal tt)) as Hstep.
    { destruct_orch w. fields in *. subst.
      unfold handle, reverse_animation. run_monad.
      destruct v_hoverAnimation as [a|]; cbn -[alter]; [|done].
      by rewrite list_alter_alter_eq. }
    rewrite (step_running _ _ _ Hhung Hstep). by destruct_orch w.
  - intros w e Hw Hw'. destruct (step_keeps_hovered e w) as [?|H]; [done|].
    rewrite (H Hw) in Hw'. done.
Qed.

(** C4 as stated fails for the fade over 40 ms: the hover keyframes run
    from opacity 1 to 0, the driver's from 0 to 1. *)
Lemma hover_samples_backward :
  hover_keyframes (fun t _ => "opacity:" +:+ show t) linear (of_Z 40)
  = Normal [opacity "1"; opacity "0.6666666666666666";
            opacity "0.3333333333333333"; opacity "0"]
  ∧ main_keyframes (fun t _ => "opacity:" +:+ show t) linear (of_Z 40)
    = Normal [opacity "0"; opacity "0.3333333333333333";
              opacity "0.6666666666666666"; opacity "1"].
Proof. split; reflexivity. Qed.

(** Enter then leave on the hover page. *)
Lemma hover_sampling_and_reversal_witness :
  animations (step MouseLeave (step MouseEnter hover_page))
  = alter (set_onfinish Neutral ∘ reversed_state) 0
      (animations (step MouseEnter hover_page))
  ∧ hoverAnimation (orch (step MouseLeave (step MouseEnter hover_page))) = Some 0
  ∧ hovered (orch (step MouseLeave (step MouseEnter hover_page))) = false.
Proof.
  pose proof (proj1 (proj2 (proj2 (proj2 (proj2 hover_sampling_and_reversal))))
                (step MouseEnter hover_page) eq_refl eq_refl eq_refl) as H.
  assert (hoverAnimation (orch (step MouseEnter hover_page)) = Some 0) as E
    by reflexivity.
  rewrite E in H. exact H.
Defined.

(** ** The orchestrator *)

Lemma setup_viewport_effect (w : World) :
  mode (orch w) = viewport → setup w = (viewport_setup w, Normal tt).
Proof.
  destruct_orch w. fields. intros ->. unfold setup, viewport_setup. run_monad.
  destruct (bool_decide (TheNode ∈ w_dom)); cbn -[alter];
    by rewrite alter_app_last.
Qed.

Lemma setup_hover_effect (w : World) :
  mode (orch w) = hover → setup w = (with_listeners true true w, Normal tt).
Proof. destruct_orch w. fields. by intros ->. Qed.

Lemma start_animation_effect (w : World) :
  mode (orch w) ≠ viewport →
  start_animation w =
  if animated (orch w) && once (orch w) then (w, Normal tt)
  else (with_pending
          (pending w
             ++ [AfterSecondTick (transition (orch w) (node w) (params (orch w)))])
          (with_orch (set_animated true (orch w)) w),
        Normal tt).
Proof.
  destruct_orch w. fields. intros Hmode. unfold start_animation. run_monad.
  destruct (v_animated && v_once); [done|]. by destruct v_mode.
Qed.

Lemma start_animation_guard (w : World) :
  animated (orch w) = true → once (orch w) = true →
  start_animation w = (w, Normal tt).
Proof.
  destruct_orch w. fields. intros -> ->. reflexivity.
Qed.

Lemma set_property_none (st : Keyframe) :
  set_property "display" "none" st !! "display" = Some "none".
Proof. unfold set_property. cbn. apply lookup_insert_eq. Qed.

Lemma hidden_display (n : NodeState) : computed (hidden n) "display" = "none".
Proof. unfold computed, hidden. cbn [style set_style]. by rewrite set_property_none. Qed.

Lemma attach_viewport (p : MicroanimationParameters) (w : World) :
  default viewport (new_mode p) = viewport →
  attach p w = viewport_setup (with_orch (init_orch p) w).
Proof.
  intros Hmode. unfold attach, microanimation. unfold bind at 1. unfold modify.
  rewrite setup_viewport_effect; [done|]. by destruct_world w.
Qed.

Lemma abort_in_flight_effect (w : World) (k : M unit) :
  (match animation (orch w) with
   | Some r => Driver.abort r
   | None => ret tt
   end ;;; k) w = k (abort_in_flight w).
Proof.
  unfold abort_in_flight, bind. destruct (animation (orch w)) as [r|]; [|done].
  pose proof (abort_returns w r) as Hret. by destruct (Driver.abort r w) as [w' c]; cbn in *; subst.
Qed.

Lemma disconnect_current_effect (w0 w : World) (k : M unit) :
  observer (orch w0) = observer (orch w) →
  (match observer (orch w0) with
   | Some o => disconnect o
   | None => ret tt
   end ;;; k) w = k (disconnect_current w).
Proof.
  intros ->. unfold disconnect_current, bind.
  by destruct (observer (orch w)) as [o|].
Qed.

Lemma abort_in_flight_orch (w : World) : orch (abort_in_flight w) = orch w.
Proof.
  unfold abort_in_flight. destruct (animation (orch w)) as [r|]; [|done].
  destruct (runs w !! r) as [rn|] eqn:Hr.
  - rewrite (abort_effect r rn w Hr). by destruct_world w.
  - by rewrite (abort_invalid r w Hr).
Qed.

Lemma disconnect_current_orch (w : World) : orch (disconnect_current w) = orch w.
Proof.
  unfold disconnect_current. destruct (observer (orch w)); [|done].
  by destruct_world w.
Qed.

Lemma update_unfold (p : MicroanimationParameters) (w : World) :
  update p w
  = setup (with_orch (reseeded p (orch w))
             (disconnect_current (abort_in_flight w))).
Proof.
  unfold update. rewrite bind_get, abort_in_flight_effect.
  rewrite (disconnect_current_effect w); [|by rewrite abort_in_flight_orch].
  unfold bind at 1. unfold modify_orch, modify. cbn [fst snd].
  by rewrite disconnect_current_orch, abort_in_flight_orch.
Qed.

Lemma destroy_unfold (w : World) :
  destroy w =
  match mode (orch w), placeholder (orch w) with
  | viewport, None =>
      (with_listeners false false (disconnect_current (abort_in_flight w)),
       Throw TypeError)
  | viewport, Some p =>
      (let w' := with_listeners false false (disconnect_current (abort_in_flight w)) in
       if bool_decide (PlaceholderEl p ∈ dom w')
       then with_dom (replace_child TheNode (PlaceholderEl p) (dom w')) w'
       else w', Normal tt)
  | _, _ =>
      (with_listeners false false (disconnect_current (abort_in_flight w)),
       Normal tt)
  end.
Proof.
  unfold destroy. rewrite bind_get, abort_in_flight_effect.
  rewrite (disconnect_current_effect w); [|by rewrite abort_in_flight_orch].
  unfold bind at 1. unfold modify. cbn [fst snd].
  destruct (mode (orch w)); [|done..].
  by destruct (placeholder (orch w)).
Qed.

Lemma visible_hidden (w : World) :
  computed (node w) "display" = "none" → visible w = false.
Proof. unfold visible. intros ->. apply andb_false_r. Qed.

Lemma elem_of_replace_child (new old : elem) (l : list elem) :
  old ∈ remove_elem new l → new ∈ replace_child new old l.
Proof.
  unfold replace_child. intros Hin. apply list_elem_of_fmap.
  exists old. by rewrite decide_True.
Qed.

(** C3, evaluated on the code.  When the action is attached in viewport
    mode and [destroy] is called before any intersection is delivered,
    [destroy] returns normally, and so does a second call; but the node
    keeps the inline [display: none] that [setup] gave it, so it is not
    visible after either call, although it is back in the document
    whenever it was there to begin with.  [destroy] puts the node in the
    place of the placeholder and never restores its display. *)
Theorem destroy_before_trigger_leaves_node_hidden
    (n : NodeState) (children : list elem) (p : MicroanimationParameters) :
  default viewport (new_mode p) = viewport →
  let w := attach p (fresh_page n children) in
  snd (destroy w) = Normal tt
  ∧ snd (destroy (fst (destroy w))) = Normal tt
  ∧ computed (node (fst (destroy w))) "display" = "none"
  ∧ visible (fst (destroy w)) = false
  ∧ visible (fst (destroy (fst (destroy w)))) = false
  ∧ (TheNode ∈ children → TheNode ∈ dom (fst (destroy w))).
Proof.
  intros Hmode w. unfold w. rewrite (attach_viewport p _ Hmode).
  set (w1 := viewport_setup _).
  assert (mode (orch w1) = viewport ∧ placeholder (orch w1) = Some 0
          ∧ node w1 = hidden n) as (Hm & Hp & Hn).
  { unfold w1, viewport_setup, init_orch, fresh_page. cbn. by rewrite Hmode. }
  assert (∀ w, mode (orch w) = viewport → placeholder (orch w) = Some 0 →
               snd (destroy w) = Normal tt
               ∧ mode (orch (fst (destroy w))) = viewport
               ∧ placeholder (orch (fst (destroy w))) = Some 0
               ∧ node (fst (destroy w)) = node w) as Hdestroy.
  { intros w2 Hm2 Hp2. rewrite destroy_unfold, Hm2, Hp2. cbn [fst snd].
    assert (orch (disconnect_current (abort_in_flight w2)) = orch w2) as Ho
      by (by rewrite disconnect_current_orch, abort_in_flight_orch).
    assert (node (disconnect_current (abort_in_flight w2)) = node w2) as Hnode.
    { unfold disconnect_current, abort_in_flight.
      destruct (animation (orch w2)) as [r|].
      - destruct (runs w2 !! r) as [rn|] eqn:Hr;
          [rewrite (abort_effect r rn w2 Hr)|rewrite (abort_invalid r w2 Hr)];
          destruct_orch w2; cbn; by destruct v_observer.
      - destruct_orch w2; cbn; by destruct v_observer. }
    destruct (disconnect_current (abort_in_flight w2))
      as [n2 ? ? ? ? ? ? ? ? ? ? ? o2].
    cbn in Ho, Hnode. subst o2 n2. cbv zeta. by case_bool_decide. }
  destruct (Hdestroy w1 Hm Hp) as (Hret & Hm' & Hp' & Hn').
  destruct (Hdestroy _ Hm' Hp') as (Hret' & _ & _ & Hn'').
  assert (computed (node (destroy w1).1) "display" = "none") as Hdisplay
    by (by rewrite Hn', Hn, hidden_display).
  split_and!; try done.
  - by apply visible_hidden.
  - apply visible_hidden. by rewrite Hn''.
  - intros Hin. rewrite destroy_unfold, Hm, Hp. cbn [fst].
    unfold w1, viewport_setup, init_orch, fresh_page, disconnect_current,
      abort_in_flight. cbn -[alter].
    rewrite (bool_decide_eq_true_2 (TheNode ∈ children)) by done.
    assert (PlaceholderEl 0 ∈ insert_before (PlaceholderEl 0) TheNode children)
      as Hph.
    { clear -Hin. induction children as [|x l IH]; [by apply elem_of_nil in Hin|].
      cbn. case_decide; [by left|]. right. apply IH.
      by apply elem_of_cons in Hin as [?|?]. }
    rewrite bool_decide_eq_true_2 by done.
    apply elem_of_replace_child. unfold remove_elem.
    apply list_elem_of_filter. done.
Qed.

(** The fade attached to the block node of [page]: visible before the
    action is attached, hidden after [destroy]. *)
Lemma destroy_before_trigger_witness :
  visible page = true
  ∧ visible (fst (destroy (attach (fade_in None) page))) = false.
Proof.
  split; [reflexivity|].
  apply (destroy_before_trigger_leaves_node_hidden block_node
           [Sibling 0; TheNode; Sibling 1] (fade_in None) eq_refl).
Defined.

(** *** [destroy] returns in every reachable world *)

#[local] Instance keeps_assigned_frame : Frame keeps_assigned.
Proof.
  split; unfold keeps_assigned.
  - done.
  - intros w1 w2 w3 [Hm12 H12] [Hm23 H23]. split; [congruence|eauto].
  - intros w x. by destruct_world w.
  - intros w. by destruct_world w.
Qed.

Ltac keeps_assigned_leaf :=
  intros ?w; match goal with w : World |- _ => destruct_orch w end;
  unfold keeps_assigned; cbn -[alter]; repeat case_match; by eauto.

Lemma setup_assigned (w : World) : placeholder_assigned (fst (setup w)).
Proof.
  destruct (mode (orch w)) eqn:Hmode.
  - rewrite (setup_viewport_effect w Hmode). intros _. by destruct_orch w.
  - rewrite (setup_hover_effect w Hmode). destruct_orch w. cbn in *.
    unfold placeholder_assigned. cbn. congruence.
  - assert (preserves keeps_assigned start_animation) as Hstart
      by frame fail keeps_assigned_leaf.
    unfold setup. rewrite bind_get, Hmode. destruct (Hstart w) as [Hm _].
    intros Hv. congruence.
Qed.

Lemma step_assigned (e : Event) (w : World) :
  placeholder_assigned w → placeholder_assigned (step e w).
Proof.
  intros Hw. destruct e as [o b| | | |a| |p|r|r cb].
  7: { unfold step. destruct (hung w); [done|].
       change (handle (Update p) w) with (update p w). rewrite update_unfold.
       pose proof (setup_assigned
                     (with_orch (reseeded p (orch w))
                        (disconnect_current (abort_in_flight w)))) as H.
       destruct (setup _) as [w' [[]|x|]]; cbn in *; [done| |];
         by destruct_orch w'. }
  all: lazymatch goal with
       | |- placeholder_assigned (step ?e ?w0) =>
           assert (keeps_assigned w0 (step e w0)) as [Hm H];
           [apply step_preserves; [apply _|]; revert w Hw; intros w _; revert w;
            frame_handle fail keeps_assigned_leaf
           |intros Hv; apply H, Hw; congruence]
       end.
Qed.

(** The first half of C3 holds in every world the action can reach:
    [destroy] returns normally after any sequence of events. *)
Lemma destroy_never_raises p n children es :
  snd (destroy (run es (attach p (fresh_page n children)))) = Normal tt.
Proof.
  assert (placeholder_assigned (run es (attach p (fresh_page n children)))) as H.
  { assert (placeholder_assigned (attach p (fresh_page n children))) as H0.
    { unfold attach, microanimation. unfold bind at 1. unfold modify. cbn [fst snd].
      apply setup_assigned. }
    revert H0. generalize (attach p (fresh_page n children)).
    induction es as [|e es IH]; intros w Hw; [done|].
    cbn [run fold_left]. apply IH. by apply step_assigned. }
  rewrite destroy_unfold. unfold placeholder_assigned in H.
  destruct (mode (orch _)); [|done..].
  destruct (H eq_refl) as [ph ->]. done.
Qed.

(** *** [update] *)

Lemma abort_in_flight_animations (w : World) (r : nat) (rn : Run) :
  animation (orch w) = Some r → runs w !! r = Some rn →
  animations (abort_in_flight w)
  = alter aborted_state (run_animation rn) (animations w).
Proof.
  intros Ha Hr. unfold abort_in_flight. rewrite Ha, (abort_effect r rn w Hr).
  by destruct_world w.
Qed.

Lemma abort_in_flight_fields (w : World) :
  node (abort_in_flight w) = node w ∧ pending (abort_in_flight w) = pending w
  ∧ observers (abort_in_flight w) = observers w.
Proof.
  unfold abort_in_flight. destruct (animation (orch w)) as [r|]; [|done].
  destruct (runs w !! r) as [rn|] eqn:Hr.
  - rewrite (abort_effect r rn w Hr). by destruct_world w.
  - by rewrite (abort_invalid r w Hr).
Qed.

Lemma disconnect_current_fields (w : World) :
  node (disconnect_current w) = node w
  ∧ pending (disconnect_current w) = pending w
  ∧ animations (disconnect_current w) = animations w.
Proof.
  unfold disconnect_current. destruct (observer (orch w)); [|done].
  by destruct_world w.
Qed.

(** [update p] is [setup] run on the world in which the in-flight run is
    aborted, the current observer is disconnected and the five
    configuration variables are replaced by those of [p], with the
    defaults [{}], [0.5], [true] and [viewport] for omitted fields.  The
    variables [animated], [hovered] and [placeholder], the listeners and
    the document are what they were. *)
Lemma update_reseeds (p : MicroanimationParameters) (w : World) :
  let w1 := with_orch (reseeded p (orch w))
              (disconnect_current (abort_in_flight w)) in
  let w' := fst (update p w) in
  update p w = setup w1
  ∧ snd (update p w) = Normal tt
  ∧ (transition (orch w') = new_transition p
     ∧ params (orch w') = default no_params (new_params p)
     ∧ threshold (orch w') = default half (new_threshold p)
     ∧ once (orch w') = default true (new_once p)
     ∧ mode (orch w') = default viewport (new_mode p))
  ∧ (∀ r rn, animation (orch w) = Some r → runs w !! r = Some rn →
             animations w' !! run_animation rn
             = aborted_state <$> animations w !! run_animation rn)
  ∧ (∀ o ob, observer (orch w) = Some o → observers w !! o = Some ob →
             observers w' !! o = Some (set_connected false ob))
  ∧ match default viewport (new_mode p) with
    | viewport => w' = viewport_setup w1
    | hover => w' = with_listeners true true w1
    | immediate =>
        w' = if animated (orch w) && default true (new_once p) then w1
             else with_pending
                    (pending w
                       ++ [AfterSecondTick
                             (new_transition p (node w)
                                (default no_params (new_params p)))])
                    (with_orch (set_animated true (orch w1)) w1)
    end.
Proof.
  intros w1 w'. unfold w'. rewrite update_unfold. fold w1.
  destruct (abort_in_flight_fields w) as (Hn1 & Hp1 & Ho1).
  destruct (disconnect_current_fields (abort_in_flight w)) as (Hn2 & Hp2 & Ha2).
  assert (orch w1 = reseeded p (orch w)) as Horch by (unfold w1; by destruct (disconnect_current _)).
  assert (node w1 = node w ∧ pending w1 = pending w
          ∧ animations w1 = animations (abort_in_flight w)
          ∧ observers w1 = observers (disconnect_current (abort_in_flight w)))
    as (Hn & Hp & Ha & Ho).
  { unfold w1. destruct (disconnect_current _); cbn in *. by subst. }
  assert (mode (orch w1) = default viewport (new_mode p)) as Hmode
    by (by rewrite Horch).
  assert (setup w1 =
          (match default viewport (new_mode p) with
           | viewport => viewport_setup w1
           | hover => with_listeners true true w1
           | immediate =>
               if animated (orch w) && default true (new_once p) then w1
               else with_pending
                      (pending w
                         ++ [AfterSecondTick
                               (new_transition p (node w)
                                  (default no_params (new_params p)))])
                      (with_orch (set_animated true (orch w1)) w1)
           end, Normal tt)) as Hsetup.
  { destruct (default viewport (new_mode p)) eqn:Hm.
    - by apply setup_viewport_effect.
    - by apply setup_hover_effect.
    - unfold setup. rewrite bind_get, Hmode.
      rewrite start_animation_effect by (by rewrite Hmode).
      rewrite Hn, Hp, Horch. cbn. by destruct (animated (orch w) && _). }
  rewrite Hsetup. cbn [fst snd]. split_and!; try done.
  1-5: destruct (default viewport (new_mode p)); [| |destruct (animated (orch w) && _)];
       destruct w1 as [? ? ? ? ? ? ? ? ? ? ? ? o1]; cbn in *; by subst o1.
  - intros r rn Hr Hrn.
    rewrite <- list_lookup_alter_eq, <- (abort_in_flight_animations w r rn Hr Hrn), <- Ha.
    destruct (default viewport (new_mode p)); [| |destruct (animated (orch w) && _)];
      by destruct w1.
  - intros o ob Hobs Hob.
    assert (observers w1 !! o = Some (set_connected false ob)) as Hl.
    { rewrite Ho. unfold disconnect_current.
      rewrite abort_in_flight_orch, Hobs, Ho1.
      destruct (abort_in_flight w); cbn in *. subst.
      by rewrite list_lookup_alter_eq, Hob. }
    destruct (default viewport (new_mode p)); [| |destruct (animated (orch w) && _)];
      destruct w1; cbn in *; [|done..].
    by apply lookup_app_l_Some.
  - by destruct (default viewport (new_mode p)).
Qed.

(** After an update in viewport mode the first placeholder is still in
    the document, next to the new one, where a detach and a fresh
    attachment leave one placeholder; and in immediate mode with [once],
    an update after the trigger has fired starts no animation, where a
    fresh attachment starts one. *)
Lemma update_differs_from_reattach :
  dom (step (Update (fade_in None)) (attach (fade_in None) page))
  = [Sibling 0; PlaceholderEl 0; PlaceholderEl 1; TheNode; Sibling 1]
  ∧ dom (reattach (fade_in None) (attach (fade_in None) page))
    = [Sibling 0; PlaceholderEl 1; TheNode; Sibling 1]
  ∧ length
      (pending
         (step (Update (fade_in (Some immediate)))
            (run [Microtask] (attach (fade_in (Some immediate)) page)))) = 0
  ∧ length
      (pending
         (reattach (fade_in (Some immediate))
            (run [Microtask] (attach (fade_in (Some immediate)) page)))) = 1.
Proof. split_and!; reflexivity. Qed.

(** *** The [animated] flag under one configuration *)

#[local] Instance keeps_configuration_frame : Frame keeps_configuration.
Proof.
  split; unfold keeps_configuration.
  - done.
  - intros w1 w2 w3 (?&?&?&?&?) (?&?&?&?&?). split_and!; congruence.
  - intros w x. by destruct_world w.
  - intros w. by destruct_world w.
Qed.

#[local] Instance keeps_quiet_frame : Frame keeps_quiet.
Proof.
  split; unfold keeps_quiet.
  - done.
  - eauto.
  - intros w x. by destruct_world w.
  - intros w. by destruct_world w.
Qed.

#[local] Instance keeps_observer_frame : Frame keeps_observer.
Proof.
  split; unfold keeps_observer.
  - done.
  - eauto.
  - intros w x. by destruct_world w.
  - intros w. by destruct_world w.
Qed.

#[local] Instance keeps_animated_frame : Frame keeps_animated.
Proof.
  split; unfold keeps_animated.
  - done.
  - intros w1 w2 w3 [Hm12 H12] [Hm23 H23]. split; [congruence|].
    intros Hm Ha. apply H23; [congruence|]. by apply H12.
  - intros w x. by destruct_world w.
  - intros w. by destruct_world w.
Qed.

#[local] Instance no_trigger_frame : Frame no_trigger.
Proof.
  split; unfold no_trigger.
  - done.
  - eauto.
  - intros w x. by destruct_world w.
  - intros w. by destruct_world w.
Qed.

Ltac orch_leaf R :=
  intros ?w; match goal with w : World |- _ => destruct_orch w end;
  unfold R, quiet; cbn -[alter]; repeat case_match;
  first [done | intuition (eauto; congruence)].

Lemma keeps_observer_disconnect (o : nat) (w : World) :
  keeps_observer w
    (with_observers (alter (set_connected false) o (observers w)) w).
Proof.
  intros Hw. destruct_orch w. unfold observer_current in *. cbn -[alter] in *.
  intros o' ob'. destruct (decide (o = o')) as [->|Hne].
  - rewrite list_lookup_alter_eq. destruct (w_observers !! o'); [|done].
    by intros [= <-].
  - rewrite list_lookup_alter_ne by done. eauto.
Qed.

Ltac keeps_observer_leaf :=
  intros ?w;
  first
    [ apply keeps_observer_disconnect
    | match goal with w : World |- _ => destruct_orch w end;
      unfold keeps_observer, observer_current; cbn -[alter];
      repeat case_match; by eauto ].

Lemma step_configuration (e : Event) (w : World) :
  fixed_configuration e = true → keeps_configuration w (step e w).
Proof.
  intros He. apply step_preserves; [apply _|]. revert w.
  destruct e; try discriminate; frame_handle fail ltac:(orch_leaf keeps_configuration).
Qed.

Lemma step_idle (e : Event) (w : World) :
  handle e w = (w, Normal tt) → step e w = w.
Proof. intros He. unfold step. rewrite He. by destruct (hung w). Qed.

Lemma step_quiet (e : Event) (w : World) :
  fixed_configuration e = true → quiet w → quiet (step e w).
Proof.
  intros He Hw. destruct e as [o b| | | |a| |p|r|r cb]; try discriminate.
  2,3: rewrite step_idle; [done|]; destruct Hw as (Henter & Hleave & _);
       unfold handle; by rewrite bind_get, ?Henter, ?Hleave.
  all: revert Hw;
    lazymatch goal with
    | |- quiet ?w0 → quiet (step ?e ?w0) => change (keeps_quiet w0 (step e w0))
    end;
    (apply step_preserves; [apply _|]); revert w;
    frame_handle fail ltac:(orch_leaf keeps_quiet).
Qed.

Lemma step_observer (e : Event) (w : World) :
  fixed_configuration e = true → observer_current w → observer_current (step e w).
Proof.
  intros He. change (keeps_observer w (step e w)).
  apply step_preserves; [apply _|]. revert w.
  destruct e; try discriminate; frame_handle fail keeps_observer_leaf.
Qed.

Lemma step_animated (e : Event) (w : World) :
  fixed_configuration e = true → (mode (orch w) ≠ hover → quiet w) →
  keeps_animated w (step e w).
Proof.
  intros He Hq. destruct e as [o b| | | |a| |p|r|r cb]; try discriminate.
  2,3: (split; [by apply step_configuration|]); intros Hm Ha;
       destruct (Hq Hm) as (Henter & Hleave & _);
       rewrite step_idle; [done|]; unfold handle;
       by rewrite bind_get, ?Henter, ?Hleave.
  all: (apply step_preserves; [apply _|]); clear Hq; revert w;
    frame_handle fail ltac:(orch_leaf keeps_animated).
Qed.


#[local] Instance keeps_unobserved_frame : Frame keeps_unobserved.
Proof.
  split; unfold keeps_unobserved.
  - done.
  - eauto.
  - intros w x. by destruct_world w.
  - intros w. by destruct_world w.
Qed.




Lemma attach_unfold (p : MicroanimationParameters) (w : World) :
  attach p w = fst (setup (with_orch (init_orch p) w)).
Proof. reflexivity. Qed.

Lemma attach_invariants p n children :
  (mode (orch (attach p (fresh_page n children))) ≠ hover →
   quiet (attach p (fresh_page n children)))
  ∧ observer_current (attach p (fresh_page n children))
  ∧ (animated (orch (attach p (fresh_page n children))) = true →
     mode (orch (attach p (fresh_page n children))) = immediate).
Proof.
  rewrite attach_unfold.
  set (w := with_orch (init_orch p) (fresh_page n children)).
  destruct (mode (orch w)) eqn:Hmode.
  - rewrite (setup_viewport_effect w Hmode). unfold w, viewport_setup, init_orch,
      fresh_page, quiet, observer_current. cbn. split_and!; [done| |done].
    intros [|o] ob; [done|]. by destruct o.
  - rewrite (setup_hover_effect w Hmode). unfold w, init_orch, fresh_page,
      observer_current in *. cbn in *. split_and!; [congruence|done..].
  - unfold setup. rewrite bind_get, Hmode, start_animation_effect by congruence.
    unfold w, init_orch, fresh_page, quiet, observer_current in *. cbn in *.
    done.
Qed.

Lemma run_snoc (es : list Event) (e : Event) (w : World) :
  run (es ++ [e]) w = step e (run es w).
Proof. unfold run. by rewrite fold_left_app. Qed.

Lemma fixed_invariants p n children (es : list Event) :
  forallb fixed_configuration es = true →
  (mode (orch (run es (attach p (fresh_page n children)))) ≠ hover →
   quiet (run es (attach p (fresh_page n children))))
  ∧ observer_current (run es (attach p (fresh_page n children))).
Proof.
  induction es as [|e es IH] using rev_ind; intros Hes.
  - destruct (attach_invariants p n children) as (? & ? & _). done.
  - rewrite forallb_app in Hes. apply andb_prop in Hes as [Hes He].
    cbn in He. rewrite andb_true_r in He.
    destruct (IH Hes) as [Hq Ho]. rewrite run_snoc. split.
    + intros Hm. apply step_quiet; [done|]. apply Hq.
      destruct (step_configuration e (run es (attach p (fresh_page n children))) He)
        as (_ & _ & _ & _ & Hmode).
      congruence.
    + by apply step_observer.
Qed.


Lemma start_animation_observers (w : World) :
  snd (start_animation w) = Normal tt
  ∧ observers (fst (start_animation w)) = observers w
  ∧ observer (orch (fst (start_animation w))) = observer (orch w)
  ∧ once (orch (fst (start_animation w))) = once (orch w).
Proof.
  destruct_orch w. unfold start_animation, remove_placeholder. run_monad.
  destruct (v_animated && v_once); [done|].
  destruct v_mode; [|done..].
  destruct (bool_decide (TheNode ∈ w_dom)); [|done].
  destruct v_placeholder as [ph|]; [|done].
  by destruct (bool_decide (PlaceholderEl ph ∈ w_dom)).
Qed.

Lemma leave_resets_animated (w : World) :
  hung w = false → leave_listener w = true → hovered (orch w) = true →
  animated (orch (step MouseLeave w)) = false.
Proof.
  destruct_orch w. cbn. intros -> -> ->. unfold step, handle, reverse_animation.
  run_monad. by destruct v_hoverAnimation.
Qed.




(** * Further properties of the code *)

(** ** More on the keyframe translator *)

Lemma has_char_app (c : ascii) (a b : string) :
  has_char c (a +:+ b) = has_char c a || has_char c b.
Proof.
  induction a as [|d a IH]; [done|].
  rewrite append_String. cbn [has_char]. by rewrite IH, orb_assoc.
Qed.

Lemma split_no_sep (sep : ascii) (s : string) :
  Forall (fun part => has_char sep part = false) (split sep s).
Proof.
  induction s as [|c s IH]; cbn [split].
  - by constructor.
  - destruct (Ascii.eqb c sep) eqn:Hc.
    + by constructor.
    + destruct (split sep s) as [|w ws].
      { constructor; [|constructor]. cbn [has_char]. by rewrite Hc. }
      inversion IH as [|? ? Hw Hws]; subst. constructor; [|done].
      cbn [has_char]. by rewrite Hc, Hw.
Qed.

Lemma split_app (sep : ascii) (a b : string) :
  split sep (a +:+ String sep b) = split sep a ++ split sep b.
Proof.
  induction a as [|c a IH].
  - rewrite append_empty_l. cbn [split]. by rewrite Ascii.eqb_refl.
  - rewrite append_String. cbn [split]. destruct (Ascii.eqb c sep); rewrite IH.
    + done.
    + destruct (split_cons sep a) as (w & ws & ->). done.
Qed.

Lemma to_upper_not_lower (c : ascii) : is_lower (to_upper c) = false.
Proof. by destruct c as [[] [] [] [] [] [] [] []]. Qed.

Lemma to_upper_hyphen (c : ascii) :
  Ascii.eqb c "-" = false → Ascii.eqb (to_upper c) "-" = false.
Proof. by destruct c as [[] [] [] [] [] [] [] []]. Qed.

Lemma all_lower_app (a b : string) :
  all_lower (a +:+ b) = all_lower a && all_lower b.
Proof.
  induction a as [|c a IH]; [done|].
  rewrite append_String. cbn [all_lower]. by rewrite IH, andb_assoc.
Qed.

Lemma cmapM_capitalize_inv (l words : list string) :
  cmapM capitalize l = Normal words →
  Forall (fun seg => has_char "-" seg = false) l →
  Forall (fun word => has_char "-" word = false) words
  ∧ (l ≠ [] → all_lower (join words) = false).
Proof.
  revert words. induction l as [|seg l IH]; intros words Hw Hl.
  - cbn in Hw. injection Hw as <-. by split.
  - cbn [cmapM] in Hw. destruct seg as [|c seg]; [done|]. cbn in Hw.
    destruct (cmapM capitalize l) as [ws| |] eqn:Hws; try done.
    cbn in Hw. injection Hw as <-.
    inversion Hl as [|? ? Hseg Hl']; subst. cbn [has_char] in Hseg.
    apply orb_false_elim in Hseg as [Hc Hseg].
    destruct (IH ws eq_refl Hl') as [IH1 _]. split.
    + constructor; [|done]. cbn [has_char]. by rewrite to_upper_hyphen, Hseg.
    + intros _. cbn [join fold_right]. rewrite append_String. cbn [all_lower].
      by rewrite to_upper_not_lower.
Qed.

Lemma has_char_join (c : ascii) (l : list string) :
  Forall (fun s => has_char c s = false) l → has_char c (join l) = false.
Proof.
  induction 1 as [|s l Hs Hl IH]; [done|].
  cbn [join fold_right]. rewrite has_char_app, Hs. exact IH.
Qed.

Lemma camelcase_plain (r : string) :
  has_char "-" r = false → r ≠ "float" → r ≠ "offset" →
  css_property_to_camelcase r = Normal r.
Proof.
  intros Hr Hf Ho. unfold css_property_to_camelcase.
  apply String.eqb_neq in Hf, Ho. rewrite Hf, Ho.
  assert (starts_with "--" r = false) as ->.
  { destruct r as [|c r]; [done|]. cbn [has_char] in Hr.
    apply orb_false_elim in Hr as [Hc _]. unfold starts_with. cbn [String.prefix].
    destruct (ascii_dec "-" c) as [<-|]; [|done]. by rewrite Ascii.eqb_refl in Hc. }
  by rewrite (has_char_split _ _ Hr).
Qed.

(** X1. the result of the conversion has no hyphen, unless the name is a
    custom property, and converting it again gives it back. *)
Theorem camelcase_idempotent (property result : string) :
  css_property_to_camelcase property = Normal result →
  (starts_with "--" property = false → has_char "-" result = false)
  ∧ css_property_to_camelcase result = Normal result.
Proof.
  unfold css_property_to_camelcase at 1.
  destruct (String.eqb property "float") eqn:Hf.
  { intros [= <-]. done. }
  destruct (String.eqb property "offset") eqn:Ho.
  { intros [= <-]. done. }
  destruct (starts_with "--" property) eqn:Hc.
  { intros [= <-]. split; [done|]. unfold css_property_to_camelcase.
    by rewrite Hf, Ho, Hc. }
  pose proof (split_no_sep "-" property) as Hparts.
  destruct (split "-" property) as [|p0 [|seg rest]] eqn:Hsplit; [done| |].
  - intros [= <-].
    assert (p0 = property) as ->.
    { inversion Hparts as [|? ? Hp0 _]; subst.
      destruct (decide (has_char "-" property = false)) as [H|H].
      - rewrite (has_char_split _ _ H) in Hsplit. congruence.
      - clear -Hsplit H Hp0. exfalso. apply H. clear H.
        revert p0 Hsplit Hp0. induction property as [|c s IH]; intros p0 Hs Hp0; [done|].
        cbn [split] in Hs. cbn [has_char].
        destruct (Ascii.eqb c "-") eqn:Hc.
        + destruct (split_cons "-" s) as (w & ws & Hw). rewrite Hw in Hs. done.
        + destruct (split "-" s) as [|w [|]] eqn:Hw; try done.
          * exfalso. by apply (split_nonempty "-" s).
          * injection Hs as <-. cbn in Hp0. rewrite Hc in Hp0. cbn in Hp0.
            cbn. by apply (IH w). }
    inversion Hparts; subst. split; [done|].
    apply camelcase_plain; [done|by apply String.eqb_neq..].
  - destruct (cmapM capitalize (seg :: rest)) as [words| |] eqn:Hwords; try done.
    cbn [cbind]. intros [= <-].
    inversion Hparts as [|? ? Hp0 Hrest]; subst.
    destruct (cmapM_capitalize_inv _ _ Hwords Hrest) as [Hw Hlow].
    assert (has_char "-" (p0 +:+ join words) = false) as Hres
      by (by rewrite has_char_app, Hp0, has_char_join).
    split; [done|]. apply camelcase_plain; [done|..].
    all: intros Heq; apply (f_equal all_lower) in Heq;
      rewrite all_lower_app, Hlow, andb_false_r in Heq by done; done.
Qed.

Lemma camelcase_idempotent_witness :
  css_property_to_camelcase "border-top-width" = Normal "borderTopWidth"
  ∧ has_char "-" "borderTopWidth" = false
  ∧ css_property_to_camelcase "borderTopWidth" = Normal "borderTopWidth".
Proof.
  pose proof (camelcase_idempotent "border-top-width" "borderTopWidth" eq_refl)
    as [H1 H2].
  split_and!; [reflexivity|by apply H1|exact H2].
Defined.

Lemma append_assoc (a b c : string) : (a +:+ b) +:+ c = a +:+ b +:+ c.
Proof.
  induction a as [|x a IH]; [by rewrite !append_empty_l|].
  by rewrite !append_String, IH.
Qed.

Lemma append_sep (sep : ascii) (a b : string) :
  a +:+ String sep "" +:+ b = a +:+ String sep b.
Proof. by rewrite append_String, append_empty_l. Qed.

Lemma css_to_keyframe_loop_break (parts1 parts2 : list string) :
  ∀ kf : Keyframe,
    forallb well_formed parts1 = false →
    css_to_keyframe_loop (parts1 ++ parts2) kf = css_to_keyframe_loop parts1 kf.
Proof.
  induction parts1 as [|part parts1 IH]; intros kf Hw; [done|].
  cbn [forallb] in Hw. cbn [app css_to_keyframe_loop].
  unfold well_formed in Hw.
  destruct (split ":" part) as [|property [|value more]]; [done| |].
  { by destruct property. }
  destruct property as [|c property]; [done|]. cbn in Hw.
  destruct (css_property_to_camelcase _); cbn [cbind]; [|done..].
  by apply IH.
Qed.

Lemma css_to_keyframe_loop_app (parts1 parts2 : list string) :
  ∀ kf : Keyframe,
    forallb well_formed parts1 = true →
    css_to_keyframe_loop (parts1 ++ parts2) kf
    = cbind (css_to_keyframe_loop parts1 kf) (css_to_keyframe_loop parts2).
Proof.
  induction parts1 as [|part parts1 IH]; intros kf Hw; [done|].
  cbn [forallb] in Hw. apply andb_prop in Hw as [Hpart Hw].
  cbn [app css_to_keyframe_loop]. unfold well_formed in Hpart.
  destruct (split ":" part) as [|property [|value more]]; [done..|].
  destruct property as [|c property]; [done|].
  destruct (css_property_to_camelcase _); cbn [cbind]; [|done..].
  by apply IH.
Qed.

Lemma css_to_keyframe_loop_union (parts : list string) :
  ∀ kf : Keyframe,
    css_to_keyframe_loop parts kf
    = cmap (fun kf' => kf' ∪ kf) (css_to_keyframe_loop parts ∅).
Proof.
  induction parts as [|part parts IH]; intros kf.
  - cbn. by rewrite (left_id_L ∅ (∪)).
  - cbn [css_to_keyframe_loop].
    destruct (split ":" part) as [|property [|value more]].
    + cbn. by rewrite (left_id_L ∅ (∪)).
    + destruct property; cbn; by rewrite (left_id_L ∅ (∪)).
    + destruct property as [|c property].
      { cbn. by rewrite (left_id_L ∅ (∪)). }
      destruct (css_property_to_camelcase _) as [name| |]; cbn [cbind cmap]; [|done..].
      rewrite (IH (<[name:=trim value]> kf)), (IH (<[name:=trim value]> ∅)).
      destruct (css_to_keyframe_loop parts ∅) as [kf'| |]; cbn; [|done..].
      f_equal. rewrite <- (assoc_L (∪)). f_equal.
      by rewrite <- insert_union_l, (left_id_L ∅ (∪)).
Qed.

(** X2. after the first part that has no property or no value, the rest of
    the text is ignored. *)
Theorem css_to_keyframe_ignores_rest (css1 css2 : string) :
  forallb well_formed (split ";" css1) = false →
  css_to_keyframe (css1 +:+ ";" +:+ css2) = css_to_keyframe css1.
Proof.
  intros Hw. unfold css_to_keyframe. rewrite append_sep, split_app.
  by apply css_to_keyframe_loop_break.
Qed.

Lemma css_to_keyframe_ignores_rest_witness :
  css_to_keyframe "a:1;;b:2" = Normal {[ "a" := "1" ]}.
Proof.
  etrans; [exact (css_to_keyframe_ignores_rest "a:1;" "b:2" eq_refl)|reflexivity].
Defined.

(** X3. when every part of [css1] has a property and a value, the
    translation of [css1;css2] is that of [css2] laid over that of [css1]. *)
Theorem css_to_keyframe_concat (css1 css2 : string) :
  forallb well_formed (split ";" css1) = true →
  css_to_keyframe (css1 +:+ ";" +:+ css2)
  = cbind (css_to_keyframe css1) (fun kf1 =>
      cmap (fun kf2 => kf2 ∪ kf1) (css_to_keyframe css2)).
Proof.
  intros Hw. unfold css_to_keyframe. rewrite append_sep, split_app.
  rewrite css_to_keyframe_loop_app by done.
  destruct (css_to_keyframe_loop (split ";" css1) ∅) as [kf1| |]; cbn [cbind]; [|done..].
  apply css_to_keyframe_loop_union.
Qed.

Lemma css_to_keyframe_concat_witness :
  css_to_keyframe "a:1;b:2;a:3"
  = Normal ({[ "a" := "3" ]} ∪ <["b" := "2"]> (<["a" := "1"]> ∅)).
Proof.
  etrans; [exact (css_to_keyframe_concat "a:1;b:2" "a:3" eq_refl)|reflexivity].
Defined.

(** X4. of a part with more than one colon, the text after the second colon
    is dropped. *)
Theorem css_to_keyframe_second_colon (property value more rest : string) :
  has_char ":" property = false → has_char ":" value = false →
  has_char ";" property = false → has_char ";" value = false →
  has_char ";" more = false →
  css_to_keyframe (property +:+ ":" +:+ value +:+ ":" +:+ more +:+ ";" +:+ rest)
  = css_to_keyframe (property +:+ ":" +:+ value +:+ ";" +:+ rest).
Proof.
  intros Hp Hv Hp' Hv' Hm. unfold css_to_keyframe.
  replace (property +:+ ":" +:+ value +:+ ":" +:+ more +:+ ";" +:+ rest)
    with ((property +:+ ":" +:+ value +:+ ":" +:+ more) +:+ String ";" rest).
  2: { by rewrite !append_assoc, !append_sep. }
  replace (property +:+ ":" +:+ value +:+ ";" +:+ rest)
    with ((property +:+ ":" +:+ value) +:+ String ";" rest).
  2: { by rewrite !append_assoc, !append_sep. }
  rewrite !split_app.
  rewrite (has_char_split ";" (property +:+ ":" +:+ value +:+ ":" +:+ more)).
  2: { rewrite !has_char_app. cbn. by rewrite Hp', Hv', Hm. }
  rewrite (has_char_split ";" (property +:+ ":" +:+ value)).
  2: { rewrite !has_char_app. cbn. by rewrite Hp', Hv'. }
  cbn [app css_to_keyframe_loop].
  rewrite !append_sep, !split_app.
  rewrite (has_char_split ":" property Hp), (has_char_split ":" value Hv).
  destruct (split_cons ":" more) as (m & ms & ->). done.
Qed.

Lemma css_to_keyframe_second_colon_witness :
  css_to_keyframe "background:url(http://x);color:red"
  = Normal (<["color" := "red"]> (<["background" := "url(http"]> ∅)).
Proof.
  etrans;
    [exact (css_to_keyframe_second_colon "background" "url(http" "//x)" "color:red"
              eq_refl eq_refl eq_refl eq_refl eq_refl)
    |reflexivity].
Defined.

(** ** Sampling at the ends of the range of durations *)

(** X5. with a duration of zero the two sampling loops run once, at
    [0 / 0]. *)
Theorem zero_duration_samples_nan (css : number → number → string)
    (easing : number → number) (q : Q) :
  Qeq q 0 →
  let t := easing NaN in
  main_keyframes css easing (Fin q)
  = cmap (fun kf => [kf]) (css_to_keyframe (css t (nsub (of_Z 1) t)))
  ∧ hover_keyframes css easing (Fin q)
    = cmap (fun kf => [kf]) (css_to_keyframe (css t (nsub (of_Z 1) t))).
Proof.
  intros Hq t.
  assert (is_zero q = true) as Hz.
  { unfold is_zero. apply Z.eqb_eq. unfold Qeq in Hq. cbn in Hq. lia. }
  assert (frames (Fin q) = of_Z 0) as Hn.
  { unfold frames. rewrite frame_eq. by rewrite ndiv_zero. }
  rewrite (main_keyframes_spec _ _ _ 0), (hover_keyframes_spec _ _ _ 0);
    [|done|done| |done].
  2: { rewrite frames_or_else; done. }
  change (upto 0) with [0%Z]. cbn [rev app cmapM].
  unfold sample_at. change (ndiv (of_Z 0) (of_Z 0)) with NaN. fold t.
  destruct (css_to_keyframe _); split; reflexivity.
Qed.

Lemma zero_duration_samples_nan_witness :
  main_keyframes (fun t _ => "opacity:" +:+ show t) linear (of_Z 0)
  = Normal [opacity "NaN"].
Proof.
  etrans; [exact (proj1 (zero_duration_samples_nan _ linear (inject_Z 0)
                           (Qeq_refl _)))|reflexivity].
Defined.

(** X6. with an infinite duration the sampling loop of the driver never
    exits, however long it runs: when the delay stage of such a run
    finishes while every sample translates, the handler never returns.
    The loop of the hover animation does not exit either. *)
Theorem infinite_duration_never_returns (w : World) (a r : nat)
    (an : NativeAnimation) (rn : Run) (f : number → number → string) :
  hung w = false →
  animations w !! a = Some an → playState an = Running →
  onfinish an = DelayFinished r → runs w !! r = Some rn →
  css (run_options rn) = Some f → duration_of (run_options rn) = PInf →
  (∀ t u, css_to_keyframe (f t u) ≠ Throw TypeError) →
  hung (step (AnimationFinish a) w) = true
  ∧ (∀ fuel kfs,
       sample_forward fuel f (easing_of (run_options rn))
         (ceil (ndiv (or_else (duration_of (run_options rn)) (of_Z 0)) frame))
         (of_Z 0) [] ≠ Normal kfs)
  ∧ (∀ fuel kfs,
       sample_backward fuel f (easing_of (run_options rn))
         (ceil (ndiv (duration_of (run_options rn)) frame))
         (ceil (ndiv (duration_of (run_options rn)) frame)) [] ≠ Normal kfs).
Proof.
  intros Hhung Ha Hplay Hfin Hr Hcss Hd Hok. split_and!.
  - unfold step. rewrite Hhung.
    change (handle (AnimationFinish a) w) with (finish a w).
    rewrite (finish_delay_stage w a r an rn Ha Hplay Hfin Hr).
    unfold main_stage_keyframes. rewrite Hcss, Hd.
    unfold main_keyframes.
    change (ceil (ndiv (or_else PInf (of_Z 0)) frame)) with PInf.
    cbn [loop_fuel sample_forward]. change (nle (of_Z 0) PInf) with true. cbn iota.
    destruct (css_to_keyframe_completion
                (f (easing_of (run_options rn) (ndiv (of_Z 0) PInf))
                   (nsub (of_Z 1) (easing_of (run_options rn) (ndiv (of_Z 0) PInf)))))
      as [[kf ->]|H]; [done|].
    by apply Hok in H.
  - intros fuel kfs. rewrite Hd. by apply sample_forward_unbounded.
  - intros fuel kfs. rewrite Hd. apply sample_backward_unbounded.
Qed.

Lemma infinite_duration_never_returns_witness :
  hung (step (AnimationFinish 0)
          (fst (Driver.animate
                  {| delay := None; duration := Some PInf; easing := None;
                     css := Some (fun _ _ => "opacity:1"); tick := None |}
                  (UserCallback 0) page))) = true.
Proof.
  eapply proj1.
  eapply (infinite_duration_never_returns
            (fst (Driver.animate
                    {| delay := None; duration := Some PInf; easing := None;
                       css := Some (fun _ _ => "opacity:1"); tick := None |}
                    (UserCallback 0) page)) 0 0); [reflexivity..|].
  intros t u. discriminate.
Defined.

(** ** The [reverse] handle of the driver *)

Lemma reverse_effect (r : nat) (rn : Run) (cb : Callback) (w : World) :
  runs w !! r = Some rn →
  Driver.reverse r cb w
  = (with_animations
       (alter (reversed_state ∘ set_onfinish (ReverseFinished cb))
          (run_animation rn) (animations w)) w, Normal tt).
Proof.
  intros Hr. unfold Driver.reverse. rewrite bind_get, Hr.
  unfold native_reverse.
  pose proof (update_twice (run_animation rn) (set_onfinish (ReverseFinished cb))
                reversed_state w) as H.
  destruct ((update_animation _ _ ;;; update_animation _ _) w) as [w' c] eqn:Heq.
  cbn in H. subst w'. f_equal.
  revert Heq. unfold bind, update_animation, modify. by intros [= _ <-].
Qed.

Lemma reverse_silences (r : nat) (rn : Run) (cb : Callback) (w : World) :
  stages_current w → runs w !! r = Some rn →
  silenced r (fst (Driver.reverse r cb w))
  ∧ completions r (fst (Driver.reverse r cb w)) = completions r w.
Proof.
  intros Hcur Hr. rewrite (reverse_effect r rn cb w Hr).
  destruct_world w. unfold silenced, completions, stages_current in *.
  fields in *. split; [split|done].
  - by apply lookup_lt_Some in Hr.
  - intros a an Ha Hplay Hh.
    destruct (decide (run_animation rn = a)) as [<-|Hne].
    + rewrite list_lookup_alter_eq in Ha.
      destruct (w_animations !! run_animation rn); [|done].
      injection Ha as <-. done.
    + rewrite list_lookup_alter_ne in Ha by done.
      destruct (Hcur a an r Ha Hplay Hh) as (rn' & Hr' & Heq). congruence.
Qed.

Lemma silenced_no_new_main (r : nat) (es : list Event) :
  ∀ w, silenced r w → no_new_main r w (run es w).
Proof.
  induction es as [|e es IH]; intros w Hsil.
  - intros id an Hid Hfin. eauto.
  - cbn [run fold_left]. fold (run es (step e w)).
    destruct (step_keeps_silence r e w Hsil) as [Hsil' _].
    assert (no_new_main r w (step e w)) as Hstep.
    { destruct (step_no_new_main r e w) as [(a & old & _ & Ha & Hplay & Hfin)|H];
        [|done].
      destruct Hsil as [_ Hsil]. destruct (Hsil a old Ha Hplay). by rewrite Hfin. }
    intros id an Hid Hfin.
    destruct (IH (step e w) Hsil' id an Hid Hfin) as (an1 & Hid1 & Hfin1).
    exact (Hstep id an1 Hid1 Hfin1).
Qed.

(** X7. [reverse(onFinish)] on a run replaces its completion: the run's
    animation plays backward with the new [onFinish] as its only
    [onfinish]; when it finishes, that callback alone is called; and
    whatever happens afterwards, neither [tick(1, 0)] nor the [onFinish]
    given to [animate] is called for the run, so a run reversed in its
    delay stage never reaches its main stage. *)
Theorem reverse_replaces_completion (w : World) (r : nat) (rn : Run)
    (an : NativeAnimation) (cb : Callback) :
  stages_current w → runs w !! r = Some rn →
  animations w !! run_animation rn = Some an →
  let w1 := fst (Driver.reverse r cb w) in
  snd (Driver.reverse r cb w) = Normal tt
  ∧ animations w1 !! run_animation rn
    = Some (reversed_state (set_onfinish (ReverseFinished cb) an))
  ∧ calls (fst (finish (run_animation rn) w1))
    = calls w ++ [CallReverseFinish cb]
  ∧ (∀ es, completions r (run es w1) = completions r w)
  ∧ (∀ es a' an', animations (run es w1) !! a' = Some an' →
                  onfinish an' = MainFinished r →
                  ∃ an0, animations w !! a' = Some an0
                         ∧ onfinish an0 = MainFinished r).
Proof.
  intros Hcur Hr Ha w1.
  destruct (reverse_silences r rn cb w Hcur Hr) as [Hsil Hcalls].
  fold w1 in Hsil, Hcalls.
  assert (w1 = with_animations
                 (alter (reversed_state ∘ set_onfinish (ReverseFinished cb))
                    (run_animation rn) (animations w)) w) as Hw1
    by (unfold w1; by rewrite (reverse_effect r rn cb w Hr)).
  assert (animations w1 !! run_animation rn
          = Some (reversed_state (set_onfinish (ReverseFinished cb) an))) as Ha1.
  { rewrite Hw1. destruct_world w. fields in *.
    by rewrite list_lookup_alter_eq, Ha. }
  split_and!.
  - by rewrite (reverse_effect r rn cb w Hr).
  - done.
  - rewrite (finish_effect _ _ _ Ha1 eq_refl). cbn [onfinish reversed_state
      set_playState set_reversed set_onfinish fire].
    rewrite Hw1. destruct_world w. destruct cb; run_monad; done.
  - intros es. destruct (run_keeps_silence r es w1 Hsil) as [_ ->]. done.
  - intros es a' an' Ha' Hfin.
    destruct (silenced_no_new_main r es w1 Hsil a' an' Ha' Hfin)
      as (an1 & Ha1' & Hfin1).
    rewrite Hw1 in Ha1'. destruct_world w. fields in *.
    destruct (decide (run_animation rn = a')) as [<-|Hne].
    + rewrite list_lookup_alter_eq, Ha in Ha1'. by injection Ha1' as <-.
    + rewrite list_lookup_alter_ne in Ha1' by done. eauto.
Qed.

Lemma reverse_replaces_completion_witness :
  calls (run [AnimationFinish 0; AnimationFinish 1]
           (fst (Driver.reverse 0 (UserCallback 1) fade_run)))
  = [CallReverseFinish (UserCallback 1)]
  ∧ length (animations (run [AnimationFinish 0; AnimationFinish 1]
                          (fst (Driver.reverse 0 (UserCallback 1) fade_run)))) = 1.
Proof.
  pose proof (reverse_replaces_completion fade_run 0 _ _ (UserCallback 1)
                fade_run_stages_current eq_refl eq_refl) as (_ & _ & H & _).
  split; [exact H|reflexivity].
Defined.

(** ** The steps of [start_animation] *)

Lemma abort_in_flight_eq (w : World) :
  abort_in_flight w = with_animations (aborted_animations w) w.
Proof.
  unfold abort_in_flight, aborted_animations.
  destruct (animation (orch w)) as [r|]; [|by destruct_world w].
  destruct (runs w !! r) as [rn|] eqn:Hr.
  - by rewrite (abort_effect r rn w Hr).
  - rewrite (abort_invalid r w Hr). by destruct_world w.
Qed.

Lemma aborted_animations_length (w : World) :
  length (aborted_animations w) = length (animations w).
Proof.
  unfold aborted_animations. destruct (animation (orch w)); [|done].
  destruct (runs w !! _); [|done]. by rewrite length_alter.
Qed.

Lemma resume_second_effect (config : TransitionConfig) (w : World) :
  resume (AfterSecondTick config) w
  = match delay_stage_keyframes config with
    | Normal kfs => (started config kfs w, Normal tt)
    | Throw e => (with_errors (errors w ++ [e]) (abort_in_flight w), Normal tt)
    | Diverge => (abort_in_flight w, Diverge)
    end.
Proof.
  unfold resume, async. rewrite bind_get, abort_in_flight_effect.
  unfold bind at 1. rewrite animate_effect.
  rewrite abort_in_flight_eq. unfold started.
  pose proof (aborted_animations_length w) as Hlen.
  destruct (delay_stage_keyframes config) as [kfs|e|];
    destruct_world w; run_monad; fields in *; by rewrite ?Hlen.
Qed.

Lemma resume_first_effect (config : TransitionConfig) (w : World) (p : nat) :
  placeholder (orch w) = Some p →
  let display := default "" (placeholder_style w p !! "display") in
  resume (AfterFirstTick config) w
  = match getFirstKeyframeOfTransition config with
    | Normal first =>
        (with_pending (pending w ++ [AfterSecondTick config])
           (with_node (shown display first (node w)) w), Normal tt)
    | Throw e =>
        (with_errors (errors w ++ [e])
           (with_node (set_style (set_property "display" display (style (node w)))
                         (node w)) w), Normal tt)
    | Diverge =>
        (with_node (set_style (set_property "display" display (style (node w)))
                      (node w)) w, Diverge)
    end.
Proof.
  intros Hp display. unfold resume, async. rewrite bind_get, Hp.
  unfold shown, display, placeholder_style.
  destruct (getFirstKeyframeOfTransition config) as [first|e|];
    destruct_world w; run_monad; done.
Qed.

Lemma start_animation_viewport_effect (w : World) (p : nat) :
  mode (orch w) = viewport → TheNode ∈ dom w → placeholder (orch w) = Some p →
  start_animation w
  = if animated (orch w) && once (orch w) then (w, Normal tt)
    else if bool_decide (PlaceholderEl p ∈ dom w)
    then (with_pending
            (pending w
               ++ [AfterFirstTick (transition (orch w) (node w) (params (orch w)))])
            (with_dom (remove_elem (PlaceholderEl p) (dom w))
               (with_orch (set_animated true (orch w)) w)), Normal tt)
    else (with_errors (errors w ++ [NotFoundError])
            (with_orch (set_animated true (orch w)) w), Normal tt).
Proof.
  intros Hmode Hnode Hp. unfold start_animation, async, remove_placeholder.
  destruct_orch w. fields in *. subst. run_monad.
  destruct (v_animated && v_once); [done|]. cbn.
  rewrite bool_decide_eq_true_2 by done.
  by destruct (bool_decide (PlaceholderEl p ∈ w_dom)).
Qed.

(** ** Hiding and showing the node *)

Lemma assign_lookup_None (target source : Keyframe) (k : string) :
  source !! k = None → assign target source !! k = target !! k.
Proof.
  intros Hk. unfold assign. rewrite lookup_merge, Hk.
  by destruct (target !! k).
Qed.

Lemma placeholder_display (n : NodeState) :
  computed n "display" ≠ "" →
  placeholder_style_of n !! "display" = Some (computed n "display").
Proof.
  intros Hd. unfold placeholder_style_of, assign. rewrite lookup_merge.
  rewrite lookup_empty.
  set (m := list_to_map _).
  assert (m !! "display" = Some (computed n "display")) as ->.
  { unfold m, placeholder_properties. cbn [fmap list_fmap list_to_map foldr].
    rewrite !lookup_insert_ne by done. apply lookup_insert_eq. }
  cbn. apply String.eqb_neq in Hd. by rewrite Hd.
Qed.

Lemma elem_of_insert_before (child reference x : elem) (l : list elem) :
  x ∈ l → x ∈ insert_before child reference l.
Proof.
  induction l as [|y l IH]; [done|]. cbn [insert_before].
  intros [->|Hx]%elem_of_cons; destruct (decide (y = reference));
    rewrite ?elem_of_cons; auto.
Qed.

Lemma elem_of_insert_before_child (child reference : elem) (l : list elem) :
  reference ∈ l → child ∈ insert_before child reference l.
Proof.
  induction l as [|y l IH]; [by intros ?%elem_of_nil|]. cbn [insert_before].
  destruct (decide (y = reference)); [intros _; apply list_elem_of_here|].
  intros [->|Hx]%elem_of_cons; [done|]. apply list_elem_of_further. auto.
Qed.

Lemma elem_of_remove_elem (child x : elem) (l : list elem) :
  x ∈ remove_elem child l ↔ x ∈ l ∧ x ≠ child.
Proof. unfold remove_elem. rewrite list_elem_of_filter. tauto. Qed.

Lemma not_elem_of_replace_child (new old : elem) (l : list elem) :
  new ≠ old → old ∉ replace_child new old l.
Proof.
  intros Hne. unfold replace_child. rewrite list_elem_of_fmap.
  intros (x & Hx & _). by destruct (decide (x = old)); subst.
Qed.

Lemma attach_viewport_fields (p : MicroanimationParameters) (n : NodeState)
    (children : list elem) :
  default viewport (new_mode p) = viewport → TheNode ∈ children →
  attach p (fresh_page n children)
  = {| node := hidden n;
       dom := insert_before (PlaceholderEl 0) TheNode children;
       placeholders := [placeholder_style_of n];
       enter_listener := false; leave_listener := false;
       observers := [{| target := Some 0;
                        obs_threshold := default half (new_threshold p);
                        connected := true |}];
       animations := []; runs := []; pending := []; calls := []; errors := [];
       hung := false;
       orch := set_observer (Some 0) (set_placeholder (Some 0) (init_orch p)) |}.
Proof.
  intros Hmode Hnode. rewrite (attach_viewport p _ Hmode).
  unfold viewport_setup, fresh_page. cbn.
  by rewrite bool_decide_eq_true_2.
Qed.

Lemma first_entry_effect (p : MicroanimationParameters) (n : NodeState)
    (children : list elem) :
  default viewport (new_mode p) = viewport → TheNode ∈ children →
  step (Intersect 0 true) (attach p (fresh_page n children))
  = {| node := hidden n;
       dom := remove_elem (PlaceholderEl 0)
                (insert_before (PlaceholderEl 0) TheNode children);
       placeholders := [placeholder_style_of n];
       enter_listener := false; leave_listener := false;
       observers := [{| target := Some 0;
                        obs_threshold := default half (new_threshold p);
                        connected := negb (default true (new_once p)) |}];
       animations := []; runs := [];
       pending := [AfterFirstTick
                     (new_transition p (hidden n)
                        (default no_params (new_params p)))];
       calls := []; errors := []; hung := false;
       orch := set_animated true
                 (set_observer (Some 0)
                    (set_placeholder (Some 0) (init_orch p))) |}.
Proof.
  intros Hmode Hnode.
  rewrite attach_viewport_fields by done.
  set (w0 := {| node := hidden n |}).
  assert (PlaceholderEl 0 ∈ dom w0) as Hp
    by (by apply elem_of_insert_before_child).
  assert (TheNode ∈ dom w0) as Hn by (by apply elem_of_insert_before).
  unfold step, handle. rewrite bind_get.
  change (hung w0) with false. cbn [observers w0 lookup list_lookup connected].
  unfold observer_callback. unfold bind at 1.
  rewrite (start_animation_viewport_effect w0 0); [|by cbn|done|done].
  change (animated (orch w0)) with false.
  cbn [andb]. rewrite bool_decide_eq_true_2 by done.
  rewrite bind_get.
  cbn -[remove_elem insert_before hidden placeholder_style_of].
  by destruct (default true (new_once p)).
Qed.

Lemma computed_shown (display : string) (first : Keyframe) (n : NodeState) :
  display ≠ "" → first !! "display" = None →
  computed (shown display first n) "display" = display.
Proof.
  intros Hd Hfirst. unfold computed, shown. cbn [style set_style].
  rewrite assign_lookup_None by done. unfold set_property.
  apply String.eqb_neq in Hd. rewrite Hd. by rewrite lookup_insert_eq.
Qed.

Lemma computed_set_display (display : string) (st : Keyframe) (n : NodeState) :
  display ≠ "" →
  computed (set_style (set_property "display" display st) n) "display"
  = display.
Proof.
  intros Hd. unfold computed. cbn [style set_style]. unfold set_property.
  apply String.eqb_neq in Hd. rewrite Hd. by rewrite lookup_insert_eq.
Qed.

Lemma disconnect_abort_dom (w : World) :
  dom (disconnect_current (abort_in_flight w)) = dom w.
Proof.
  rewrite abort_in_flight_eq. unfold disconnect_current.
  destruct (observer _); by destruct_world w.
Qed.

Lemma destroy_settled (w : World) (p : nat) :
  mode (orch w) = viewport → placeholder (orch w) = Some p →
  PlaceholderEl p ∉ dom w →
  snd (destroy w) = Normal tt ∧ node (fst (destroy w)) = node w
  ∧ dom (fst (destroy w)) = dom w.
Proof.
  intros Hm Hp Hout. rewrite destroy_unfold, Hm, Hp.
  destruct (abort_in_flight_fields w) as (Hn1 & _ & _).
  destruct (disconnect_current_fields (abort_in_flight w)) as (Hn2 & _ & _).
  pose proof (disconnect_abort_dom w) as Hdd.
  cbn [fst snd]. cbv zeta.
  destruct (bool_decide _) eqn:Hb.
  - apply bool_decide_eq_true_1 in Hb. cbn in Hb. by rewrite Hdd in Hb.
  - cbn. by rewrite Hn2, Hn1, Hdd.
Qed.

(** X8. the trigger undoes the hiding of [setup]. *)
Theorem trigger_restores_display (p : MicroanimationParameters) (n : NodeState)
    (children : list elem) :
  default viewport (new_mode p) = viewport → TheNode ∈ children →
  computed n "display" ≠ "" →
  (∀ first,
     getFirstKeyframeOfTransition
       (new_transition p (hidden n) (default no_params (new_params p)))
     = Normal first → first !! "display" = None) →
  let w0 := attach p (fresh_page n children) in
  let w := run [Intersect 0 true; Microtask] w0 in
  computed (node w0) "display" = "none"
  ∧ computed (node w) "display" = computed n "display"
  ∧ (PlaceholderEl 0 ∉ dom w)
  ∧ visible w = visible (fresh_page n children)
  ∧ visible (step Destroy w) = visible w.
Proof.
  intros Hmode Hnode Hd Hfirst w0 w.
  assert (computed (node w0) "display" = "none") as H0.
  { unfold w0. rewrite attach_viewport_fields by done. apply hidden_display. }
  split; [done|]. unfold w, w0. cbn [run fold_left].
  rewrite first_entry_effect by done.
  set (config := new_transition p (hidden n) (default no_params (new_params p))) in *.
  set (w1 := {| node := hidden n |}).
  assert (step Microtask w1 = fst (resume (AfterFirstTick config) (with_pending [] w1))
          ∨ ∃ e, step Microtask w1
                 = with_errors [e] (fst (resume (AfterFirstTick config)
                                           (with_pending [] w1)))) as Hstep.
  { unfold step, handle. rewrite bind_get. change (hung w1) with false.
    cbn [pending w1]. unfold bind at 1. unfold modify.
    rewrite (resume_first_effect config _ 0) by done.
    destruct (getFirstKeyframeOfTransition config) as [first|e|] eqn:Hkf; eauto.
    unfold getFirstKeyframeOfTransition in Hkf.
    destruct (css_to_keyframe_completion
                (match css config with
                 | Some f => f (of_Z 0) (of_Z 1)
                 | None => ""
                 end)) as [[kf H]|H]; congruence. }
  assert (default "" (placeholder_style (with_pending [] w1) 0 !! "display")
          = computed n "display") as Hdisplay.
  { unfold placeholder_style, w1. cbn -[placeholder_style_of].
    by rewrite placeholder_display. }
  assert (computed (node (step Microtask w1)) "display" = computed n "display"
          ∧ dom (step Microtask w1) = dom w1
          ∧ hung (step Microtask w1) = false
          ∧ mode (orch (step Microtask w1)) = viewport
          ∧ placeholder (orch (step Microtask w1)) = Some 0) as (Hc & Hdom & Hhung & Hm & Hp).
  { assert (∀ w', (w' = fst (resume (AfterFirstTick config) (with_pending [] w1))
                   ∨ ∃ e, w' = with_errors [e]
                                 (fst (resume (AfterFirstTick config)
                                         (with_pending [] w1)))) →
                  computed (node w') "display" = computed n "display"
                  ∧ dom w' = dom w1 ∧ hung w' = false
                  ∧ mode (orch w') = viewport
                  ∧ placeholder (orch w') = Some 0) as H; [|by apply H].
    intros w'. rewrite (resume_first_effect config _ 0) by done.
    rewrite Hdisplay.
    destruct (getFirstKeyframeOfTransition config) as [first|e|] eqn:Hkf.
    - intros [->|[e ->]]; cbn -[shown remove_elem insert_before];
        rewrite computed_shown by eauto; by rewrite Hmode.
    - intros [->|[e' ->]]; cbn -[remove_elem insert_before set_property];
        rewrite computed_set_display by eauto; by rewrite Hmode.
    - intros [->|[e' ->]]; cbn -[remove_elem insert_before set_property];
        rewrite computed_set_display by eauto; by rewrite Hmode. }
  assert (PlaceholderEl 0 ∉ dom (step Microtask w1)) as Hout.
  { rewrite Hdom. cbn [dom w1]. rewrite elem_of_remove_elem. tauto. }
  assert (TheNode ∈ dom (step Microtask w1)) as Hin.
  { rewrite Hdom. cbn [dom w1]. rewrite elem_of_remove_elem. split; [|done].
    by apply elem_of_insert_before. }
  split_and!; [done..| |].
  - unfold visible. rewrite Hc. cbn [node dom fresh_page].
    by rewrite !bool_decide_eq_true_2.
  - set (w2 := step Microtask w1) in *.
    assert (node (step Destroy w2) = node w2 ∧ dom (step Destroy w2) = dom w2)
      as [Hn2 Hd2]; [|unfold visible; by rewrite Hn2, Hd2].
    unfold step. rewrite Hhung. change (handle Destroy w2) with (destroy w2).
    destruct (destroy_settled w2 0 Hm Hp Hout) as (Hret & Hn2 & Hd2).
    destruct (destroy w2) as [wd c]. cbn in *. by subst c.
Qed.

Lemma trigger_restores_display_witness :
  visible (attach (fade_in None) page) = false
  ∧ visible (run [Intersect 0 true; Microtask] (attach (fade_in None) page)) = true.
Proof.
  split; [reflexivity|].
  etrans; [|exact (eq_refl : visible page = true)].
  refine (proj1 (proj2 (proj2 (proj2
            (trigger_restores_display (fade_in None) block_node
               [Sibling 0; TheNode; Sibling 1] eq_refl _ _ _))))).
  - apply list_elem_of_further, list_elem_of_here.
  - discriminate.
  - intros first [= <-]. reflexivity.
Defined.

(** ** [destroy] *)

Lemma aborted_state_idemp (a : NativeAnimation) :
  aborted_state (aborted_state a) = aborted_state a.
Proof. by destruct a. Qed.

Lemma destroy_effect (w : World) :
  fst (destroy w)
  = let w' := with_listeners false false (disconnect_current (abort_in_flight w)) in
    match mode (orch w), placeholder (orch w) with
    | viewport, Some p =>
        if bool_decide (PlaceholderEl p ∈ dom w)
        then with_dom (replace_child TheNode (PlaceholderEl p) (dom w)) w'
        else w'
    | _, _ => w'
    end.
Proof.
  rewrite destroy_unfold. cbv zeta.
  destruct (mode (orch w)); [|done..].
  destruct (placeholder (orch w)) as [p|]; [|done]. cbn [fst].
  change (dom (with_listeners false false (disconnect_current (abort_in_flight w))))
    with (dom (disconnect_current (abort_in_flight w))).
  by rewrite disconnect_abort_dom.
Qed.

Lemma destroy_completion (w : World) :
  snd (destroy w) = Normal tt ∨ snd (destroy w) = Throw TypeError.
Proof.
  rewrite destroy_unfold. destruct (mode (orch w)); [|by left..].
  destruct (placeholder (orch w)); [by left|by right].
Qed.

Lemma alter_idemp {A} (f : A → A) (i : nat) (l : list A) :
  (∀ x, f (f x) = f x) → alter f i (alter f i l) = alter f i l.
Proof.
  intros Hf. rewrite list_alter_alter_eq. apply list_alter_ext; [|done].
  intros x _. apply Hf.
Qed.

Lemma destroy_destroyed (w : World) : fst (destroy w) = destroyed w.
Proof.
  rewrite destroy_effect. cbv zeta. rewrite abort_in_flight_eq.
  unfold destroyed, disconnected_observers, destroyed_dom, disconnect_current.
  destruct_orch w. cbn -[alter replace_child aborted_animations].
  by repeat case_match.
Qed.

Lemma destroyed_dom_idemp (w : World) :
  destroyed_dom (destroyed w) = destroyed_dom w.
Proof.
  unfold destroyed_dom at 1. cbn [orch dom destroyed].
  destruct (mode (orch w)) eqn:Hm; [|done..].
  destruct (placeholder (orch w)) as [p|] eqn:Hp; [|done].
  rewrite bool_decide_eq_false_2; [done|].
  unfold destroyed_dom. rewrite Hm, Hp.
  destruct (bool_decide (PlaceholderEl p ∈ dom w)) eqn:Hb.
  - by apply not_elem_of_replace_child.
  - by apply bool_decide_eq_false_1 in Hb.
Qed.

Lemma destroyed_idemp (w : World) : destroyed (destroyed w) = destroyed w.
Proof.
  unfold destroyed at 1.
  rewrite destroyed_dom_idemp.
  assert (disconnected_observers (destroyed w) = disconnected_observers w) as ->.
  { unfold disconnected_observers at 1. cbn [orch observers destroyed].
    unfold disconnected_observers. destruct (observer (orch w)); [|done].
    by apply alter_idemp. }
  assert (aborted_animations (destroyed w) = aborted_animations w) as ->.
  { unfold aborted_animations at 1. cbn [orch animations runs destroyed].
    unfold aborted_animations. destruct (animation (orch w)); [|done].
    destruct (runs w !! _); [|done].
    apply alter_idemp, aborted_state_idemp. }
  done.
Qed.

(** X9. a second [destroy] changes nothing. *)
Theorem destroy_idempotent (w : World) :
  fst (destroy (fst (destroy w))) = fst (destroy w)
  ∧ snd (destroy (fst (destroy w))) = snd (destroy w).
Proof.
  split.
  - by rewrite !destroy_destroyed, destroyed_idemp.
  - rewrite destroy_destroyed, (destroy_unfold (destroyed w)), (destroy_unfold w).
    cbn [orch destroyed].
    destruct (mode (orch w)); [|done..]. by destruct (placeholder (orch w)).
Qed.

Lemma step_destroy (w : World) :
  hung w = false →
  step Destroy w = destroyed w
  ∨ step Destroy w = with_errors (errors w ++ [TypeError]) (destroyed w).
Proof.
  intros Hhung. unfold step. rewrite Hhung.
  change (handle Destroy w) with (destroy w).
  pose proof (destroy_destroyed w) as Hd.
  destruct (destroy_completion w) as [Hc|Hc]; destruct (destroy w) as [wd c];
    cbn in *; subst; eauto.
Qed.

Lemma microtask_second_effect (w : World) (config : TransitionConfig)
    (ks : list Continuation) (kfs : list Keyframe) :
  hung w = false → pending w = AfterSecondTick config :: ks →
  delay_stage_keyframes config = Normal kfs →
  step Microtask w = started config kfs (with_pending ks w).
Proof.
  intros Hhung Hp Hkfs. unfold step, handle. rewrite Hhung, bind_get, Hp.
  unfold bind at 1. unfold modify. rewrite resume_second_effect, Hkfs. done.
Qed.

(** X10. [destroy] does not stop a trigger that is waiting for a tick: when
    the tick comes, the animation starts all the same. *)
Theorem destroy_keeps_pending_start (w : World) (config : TransitionConfig)
    (ks : list Continuation) (kfs : list Keyframe) :
  hung w = false → pending w = AfterSecondTick config :: ks →
  delay_stage_keyframes config = Normal kfs →
  let w' := step Microtask (step Destroy w) in
  pending (step Destroy w) = pending w
  ∧ runs w' = runs w ++ [{| run_options := config; run_onFinish := OrchFinish;
                            run_animation := length (animations w) |}]
  ∧ animations w' !! length (animations w)
    = Some (delay_stage_animation config kfs (length (runs w)))
  ∧ animation (orch w') = Some (length (runs w)).
Proof.
  intros Hhung Hp Hkfs w'.
  assert (∃ wd, step Destroy w = wd ∧ hung wd = false ∧ pending wd = pending w
                ∧ runs wd = runs w
                ∧ length (animations wd) = length (animations w))
    as (wd & Hwd & Hh & Hpd & Hr & Ha).
  { destruct (step_destroy w Hhung) as [->| ->]; eexists; (split; [done|]);
      cbn [hung pending runs animations destroyed with_errors];
      by rewrite aborted_animations_length. }
  unfold w'. rewrite Hwd. split; [done|].
  rewrite (microtask_second_effect wd config ks kfs); [|done|congruence|done].
  unfold started. cbn [runs animations orch with_orch with_runs with_animations
                         with_pending animation set_animation].
  rewrite Hr. split_and!; [by rewrite Ha| |done].
  rewrite lookup_app_r; rewrite aborted_animations_length; cbn [animations with_pending];
    rewrite Ha; [|done]. by rewrite Nat.sub_diag.
Qed.

Lemma destroy_keeps_pending_start_witness :
  length (runs (attach (fade_in (Some immediate)) page)) = 0
  ∧ length (runs (run [Destroy; Microtask] (attach (fade_in (Some immediate)) page)))
    = 1.
Proof.
  split; [reflexivity|].
  pose proof (destroy_keeps_pending_start (attach (fade_in (Some immediate)) page)
                _ [] _ eq_refl eq_refl eq_refl) as (_ & H & _).
  cbn [run fold_left]. rewrite H. reflexivity.
Defined.

Lemma detached_step (e : Event) (w : World) :
  from_page e = true → detached w → step e w = w.
Proof.
  intros He (Henter & Hleave & Hobs). apply step_idle. unfold handle.
  rewrite bind_get. destruct e; try discriminate.
  - destruct (observers w !! o) as [ob|] eqn:Hob; [|done].
    by rewrite (Hobs o ob Hob).
  - by rewrite Henter.
  - by rewrite Hleave.
Qed.

Lemma detached_run (es : list Event) (w : World) :
  forallb from_page es = true → detached w → run es w = w.
Proof.
  induction es as [|e es IH]; intros Hes Hw; [done|].
  cbn [forallb] in Hes. apply andb_prop in Hes as [He Hes].
  cbn [run fold_left]. rewrite (detached_step e w He Hw). by apply IH.
Qed.

Lemma destroyed_detached (w : World) :
  observer_current w → detached (destroyed w).
Proof.
  intros Hcur. split_and!; [done..|].
  intros o ob. cbn [observers destroyed]. unfold disconnected_observers.
  destruct (observer (orch w)) as [o'|] eqn:Ho.
  - destruct (decide (o' = o)) as [->|Hne].
    + rewrite list_lookup_alter_eq. destruct (observers w !! o); [|done].
      by intros [= <-].
    + rewrite list_lookup_alter_ne by done. intros Hob.
      destruct (connected ob) eqn:Hc; [|done].
      pose proof (Hcur o ob Hob Hc). congruence.
  - intros Hob. destruct (connected ob) eqn:Hc; [|done].
    pose proof (Hcur o ob Hob Hc). congruence.
Qed.

(** X11. after [destroy] the action reacts to nothing that comes from the
    page: intersection entries and pointer events leave the world as it
    is. *)
Theorem destroy_detaches (p : MicroanimationParameters) (n : NodeState)
    (children : list elem) (es es' : list Event) :
  forallb fixed_configuration es = true → forallb from_page es' = true →
  let w := step Destroy (run es (attach p (fresh_page n children))) in
  run es' w = w.
Proof.
  intros Hes Hes' w. unfold w.
  destruct (fixed_invariants p n children es Hes) as [_ Hcur].
  set (w0 := run es _) in *.
  destruct (hung w0) eqn:Hhung.
  - assert (∀ e, step e w0 = w0) as Hstep
      by (intros e; unfold step; by rewrite Hhung).
    rewrite Hstep. clear -Hstep. induction es' as [|e es' IH]; [done|].
    cbn [run fold_left]. by rewrite Hstep.
  - apply detached_run; [done|].
    pose proof (destroyed_detached w0 Hcur) as Hd.
    destruct (step_destroy w0 Hhung) as [-> | ->]; [done|].
    destruct Hd as (? & ? & ?). by split_and!.
Qed.

Lemma destroy_detaches_witness :
  run [MouseEnter; MouseLeave; MouseEnter]
    (step Destroy (run [MouseEnter] hover_page))
  = step Destroy (run [MouseEnter] hover_page).
Proof.
  exact (destroy_detaches (fade_in (Some hover)) block_node
           [Sibling 0; TheNode; Sibling 1] [MouseEnter]
           [MouseEnter; MouseLeave; MouseEnter] eq_refl eq_refl).
Defined.

(** ** The viewport trigger starts at most one run *)

#[local] Instance keeps_start_frame : Frame keeps_start.
Proof.
  split; unfold keeps_start.
  - done.
  - intros w1 w2 w3 (?&?&?&?&?) (?&?&?&?&?). split_and!; congruence.
  - intros w x. by destruct_world w.
  - intros w. by destruct_world w.
Qed.

Ltac keeps_start_leaf :=
  intros ?w; match goal with w : World |- _ => destruct_orch w end;
  unfold keeps_start; cbn -[alter]; repeat case_match;
  rewrite ?length_alter; done.

Lemma keeps_start_single (w w' : World) :
  keeps_start w w' → single_start w → single_start w'.
Proof.
  intros (Hm & Hp & Hd & Hpe & Hr) (Hmode & Hph & Hn & H).
  unfold single_start. rewrite Hm, Hp, Hd, Hpe, Hr. split_and!; [done..|].
  destruct (bool_decide _); [|done]. destruct H as [-> Hruns]. split; [done|].
  rewrite Hruns in Hr. by destruct (runs w').
Qed.

Lemma single_start_errors (x : list exn) (w : World) :
  single_start w → single_start (with_errors x w).
Proof. by destruct_world w. Qed.

Lemma single_start_hung (w : World) :
  single_start w → single_start (with_hung true w).
Proof. by destruct_world w. Qed.

Lemma step_single (e : Event) (w : World) :
  single_start w → single_start (fst (handle e w)) → single_start (step e w).
Proof.
  intros Hw H. unfold step. destruct (hung w); [done|].
  destruct (handle e w) as [w' [[]|x|]]; cbn in *;
    auto using single_start_errors, single_start_hung.
Qed.

Lemma start_animation_single (w : World) :
  single_start w → single_start (fst (start_animation w)).
Proof.
  intros (Hmode & Hph & Hn & H).
  rewrite (start_animation_viewport_effect w 0 Hmode Hn Hph).
  destruct (animated (orch w) && once (orch w)); [done|].
  destruct (bool_decide (PlaceholderEl 0 ∈ dom w)) eqn:Hb.
  - destruct H as [Hp Hr]. unfold single_start.
    cbn [fst mode placeholder orch dom pending runs with_pending with_dom
           with_orch set_animated].
    split_and!; [done..| |].
    + rewrite elem_of_remove_elem. done.
    + rewrite bool_decide_eq_false_2.
      * rewrite Hp, Hr. cbn. lia.
      * rewrite elem_of_remove_elem. tauto.
  - unfold single_start.
    cbn [fst mode placeholder orch dom pending runs with_errors with_orch
           set_animated].
    by rewrite Hb.
Qed.

Lemma handle_single (e : Event) (w : World) :
  fixed_configuration e = true → single_start w →
  single_start (fst (handle e w)).
Proof.
  intros He Hw. destruct e as [o b| | | |a| |p|r|r cb]; try discriminate.
  - (* an intersection entry *)
    unfold handle. rewrite bind_get.
    destruct (observers w !! o) as [ob|]; [|done].
    destruct (connected ob); [|done]. destruct b; [|done].
    unfold observer_callback. unfold bind at 1.
    destruct (start_animation_observers w) as (Hret & _).
    pose proof (start_animation_single w Hw) as Hs.
    destruct (start_animation w) as [ws c]. cbn in Hret, Hs. subst c.
    revert Hs. apply keeps_start_single. revert ws.
    lazymatch goal with
    | |- ∀ ws, keeps_start ws (fst (?m ws)) => change (preserves keeps_start m)
    end.
    frame fail keeps_start_leaf.
  - revert Hw. apply keeps_start_single. revert w.
    frame_handle fail keeps_start_leaf.
  - revert Hw. apply keeps_start_single. revert w.
    frame_handle fail keeps_start_leaf.
  - (* a tick *)
    unfold handle. rewrite bind_get.
    destruct (pending w) as [|k ks] eqn:Hpend; [done|].
    unfold bind at 1. unfold modify.
    destruct Hw as (Hmode & Hph & Hn & H).
    destruct (bool_decide (PlaceholderEl 0 ∈ dom w)) eqn:Hb;
      [destruct H; congruence|].
    rewrite Hpend in H. cbn in H.
    assert (ks = [] ∧ runs w = []) as [-> Hr].
    { destruct ks; [|cbn in H; lia]. destruct (runs w); [done|cbn in H; lia]. }
    destruct k as [config|config].
    + rewrite (resume_first_effect config _ 0) by (by destruct_world w).
      cbv zeta. destruct (getFirstKeyframeOfTransition config);
        unfold single_start; destruct_world w; cbn in *; subst;
        rewrite Hb; split_and!; first [done|cbn; lia].
    + rewrite resume_second_effect.
      destruct (delay_stage_keyframes config).
      * unfold started. unfold single_start. destruct_world w; cbn in *; subst.
        rewrite Hb. split_and!; first [done|cbn; lia].
      * rewrite abort_in_flight_eq.
        unfold single_start; destruct_world w; cbn in *; subst.
        rewrite Hb; split_and!; first [done|cbn; lia].
      * rewrite abort_in_flight_eq.
        unfold single_start; destruct_world w; cbn in *; subst.
        rewrite Hb; split_and!; first [done|cbn; lia].
  - revert Hw. apply keeps_start_single. revert w.
    frame_handle fail keeps_start_leaf.
  - (* destroy *)
    change (handle Destroy w) with (destroy w). rewrite destroy_destroyed.
    destruct Hw as (Hmode & Hph & Hn & H). unfold single_start.
    cbn [mode placeholder orch dom pending runs destroyed].
    unfold destroyed_dom. rewrite Hmode, Hph.
    destruct (bool_decide (PlaceholderEl 0 ∈ dom w)) eqn:Hb.
    + destruct H as [-> ->]. split_and!; [done..| |].
      * apply elem_of_replace_child. rewrite elem_of_remove_elem.
        split; [|done]. by apply bool_decide_eq_true_1 in Hb.
      * rewrite bool_decide_eq_false_2; [cbn; lia|].
        by apply not_elem_of_replace_child.
    + rewrite Hb. done.
Qed.

Lemma attach_single (p : MicroanimationParameters) (n : NodeState)
    (children : list elem) :
  default viewport (new_mode p) = viewport → TheNode ∈ children →
  single_start (attach p (fresh_page n children)).
Proof.
  intros Hmode Hnode. rewrite attach_viewport_fields by done.
  unfold single_start. cbn -[insert_before]. split_and!; [done..| |].
  - by apply elem_of_insert_before.
  - rewrite bool_decide_eq_true_2; [done|].
    by apply elem_of_insert_before_child.
Qed.

Lemma run_single (es : list Event) :
  ∀ w, forallb fixed_configuration es = true → single_start w →
       single_start (run es w).
Proof.
  induction es as [|e es IH]; intros w Hes Hw; [done|].
  cbn [forallb] in Hes. apply andb_prop in Hes as [He Hes].
  cbn [run fold_left]. apply IH; [done|].
  apply step_single; [done|]. by apply handle_single.
Qed.

(** X12. in viewport mode, on a node that has a parent, the trigger starts
    at most one run under one configuration, whatever [once] is: without
    [once], an intersecting entry that comes after the placeholder has been
    removed only makes [removeChild] raise. *)
Theorem viewport_starts_at_most_once (p : MicroanimationParameters)
    (n : NodeState) (children : list elem) (es : list Event) :
  default viewport (new_mode p) = viewport → TheNode ∈ children →
  forallb fixed_configuration es = true →
  let w := run es (attach p (fresh_page n children)) in
  length (runs w) ≤ 1
  ∧ (∀ o ob, hung w = false → PlaceholderEl 0 ∉ dom w →
             once (orch w) = false →
             observers w !! o = Some ob → connected ob = true →
             step (Intersect o true) w
             = with_errors (errors w ++ [NotFoundError])
                 (with_orch (set_animated true (orch w)) w)).
Proof.
  intros Hmode Hnode Hes w.
  assert (single_start w) as (Hm & Hp & Hn & H)
    by (apply run_single; [done|by apply attach_single]).
  split.
  - destruct (bool_decide _); [destruct H as [_ ->]; cbn; lia|lia].
  - intros o ob Hhung Hout Honce Hob Hc.
    apply step_running; [done|]. unfold handle.
    rewrite bind_get, Hob, Hc. unfold observer_callback. unfold bind at 1.
    rewrite (start_animation_viewport_effect w 0 Hm Hn Hp), Honce, andb_false_r.
    rewrite bool_decide_eq_false_2 by done.
    rewrite bind_get. destruct_orch w. cbn in *. by subst.
Qed.

Lemma viewport_starts_at_most_once_witness :
  length
    (runs
       (run [Intersect 0 true; Microtask; Microtask; Intersect 0 true;
             Microtask; Microtask]
          (attach {| new_transition := identity_fade; new_params := None;
                     new_threshold := None; new_once := Some false;
                     new_mode := None |} page))) ≤ 1.
Proof.
  refine (proj1 (viewport_starts_at_most_once
                   {| new_transition := identity_fade; new_params := None;
                      new_threshold := None; new_once := Some false;
                      new_mode := None |} block_node
                   [Sibling 0; TheNode; Sibling 1]
                   [Intersect 0 true; Microtask; Microtask; Intersect 0 true;
                    Microtask; Microtask] eq_refl _ eq_refl)).
  apply list_elem_of_further, list_elem_of_here.
Defined.

(** ** At most one run is alive *)

#[local] Instance keeps_no_reverse_frame : Frame keeps_no_reverse.
Proof.
  split; unfold keeps_no_reverse.
  - done.
  - eauto.
  - intros w x. by destruct_world w.
  - intros w. by destruct_world w.
Qed.

Lemma keeps_no_reverse_same (w w' : World) :
  animations w' = animations w → keeps_no_reverse w w'.
Proof. intros Heq H a an cb. rewrite Heq. apply H. Qed.

Lemma keeps_no_reverse_alter f a (w : World) :
  (∀ an cb, onfinish (f an) = ReverseFinished cb →
            ∃ cb', onfinish an = ReverseFinished cb') →
  keeps_no_reverse w (with_animations (alter f a (animations w)) w).
Proof.
  intros Hf H id an cb. destruct_world w. unfold no_reverse in H. cbn -[alter] in *.
  destruct (decide (a = id)) as [->|Hne].
  - rewrite list_lookup_alter_eq. destruct (w_animations !! id) as [an0|] eqn:Hid; [|done].
    intros [= <-] Hh. destruct (Hf _ _ Hh) as [cb' Hcb']. by apply (H id an0 cb').
  - rewrite list_lookup_alter_ne by done. apply H.
Qed.

Lemma keeps_no_reverse_app x (w : World) :
  (∀ cb, onfinish x ≠ ReverseFinished cb) →
  keeps_no_reverse w (with_animations (animations w ++ [x]) w).
Proof.
  intros Hx H id an cb. destruct_world w. unfold no_reverse in H. cbn -[alter] in *.
  intros [Hold|[_ Hnew]]%lookup_app_Some; [by eapply H|].
  destruct (id - length w_animations) as [|n]; [|done].
  injection Hnew as <-. apply Hx.
Qed.

Ltac keeps_no_reverse_leaf :=
  intros ?w;
  first
    [ apply keeps_no_reverse_app; intros ?cb; discriminate
    | apply keeps_no_reverse_alter; intros ?an ?cb; cbn; (try discriminate); by eauto
    | apply keeps_no_reverse_same;
      match goal with w : World |- _ => destruct_orch w end;
      cbn -[alter]; repeat case_match; reflexivity ].

Lemma step_no_reverse (e : Event) (w : World) :
  public e = true → no_reverse w → no_reverse (step e w).
Proof.
  intros He. change (keeps_no_reverse w (step e w)).
  apply step_preserves; [apply _|]. revert w.
  destruct e; try discriminate; frame_handle fail keeps_no_reverse_leaf.
Qed.

#[local] Instance keeps_variable_frame : Frame keeps_variable.
Proof.
  split; unfold keeps_variable.
  - done.
  - intros w1 w2 w3 [? ?] [? ?]. split; congruence.
  - intros w x. by destruct_world w.
  - intros w. by destruct_world w.
Qed.

Ltac keeps_variable_leaf :=
  intros ?w; match goal with w : World |- _ => destruct_orch w end;
  unfold keeps_variable; cbn -[alter]; repeat case_match;
  rewrite ?length_alter; done.

Lemma step_variable (e : Event) (w : World) :
  public e = true →
  (∀ a, e ≠ AnimationFinish a) → e ≠ Microtask →
  keeps_variable w (step e w).
Proof.
  intros He Ha Hm. apply step_preserves; [apply _|]. revert w.
  destruct e; try discriminate; try (by destruct (Ha id)); try done;
    frame_handle fail keeps_variable_leaf.
Qed.

Lemma silenced_fields (r : nat) (w w' : World) :
  animations w' = animations w → length (runs w) ≤ length (runs w') →
  silenced r w → silenced r w'.
Proof.
  intros Ha Hr [Hlt H]. split; [lia|]. by rewrite Ha.
Qed.

Lemma started_supersedes (config : TransitionConfig) (kfs : list Keyframe)
    (w : World) (r : nat) :
  stages_current w → animation (orch w) = Some r → r < length (runs w) →
  silenced r (started config kfs w).
Proof.
  intros Hcur Hr Hlt.
  destruct (lookup_lt_is_Some_2 (runs w) r Hlt) as [rn Hrn].
  destruct (abort_silences r w Hcur (ex_intro _ rn Hrn)) as [[_ Hsil] _].
  rewrite (abort_effect r rn w Hrn) in Hsil. cbn [fst] in Hsil.
  unfold started, aborted_animations. rewrite Hr, Hrn.
  split.
  - destruct_world w. cbn in *. rewrite length_app. lia.
  - intros a an. destruct_world w. cbn -[alter] in *.
    intros [Hold|[_ Hnew]]%lookup_app_Some Hplay Hh; [by eapply Hsil|].
    destruct (a - _) as [|]; [|done]. injection Hnew as <-.
    cbn in Hh. injection Hh as <-. lia.
Qed.

Lemma finished_supersedes (w : World) (a r : nat) (an : NativeAnimation) :
  stages_current w → animations w !! a = Some an → playState an = Running →
  onfinish an = MainFinished r → r < length (runs w) →
  ∀ w', animations w' = alter (set_playState Finished) a (animations w) →
        length (runs w') = length (runs w) → silenced r w'.
Proof.
  intros Hcur Ha Hplay Hfin Hlt w' Ha' Hr'. split; [lia|].
  intros a' an'. rewrite Ha'.
  destruct (decide (a = a')) as [<-|Hne].
  - rewrite list_lookup_alter_eq, Ha. by intros [= <-].
  - rewrite list_lookup_alter_ne by done. intros Hlook Hplay' Hh.
    destruct (Hcur a an r Ha Hplay) as (rn & Hrn & Heq); [by rewrite Hfin|].
    destruct (Hcur a' an' r Hlook Hplay' Hh) as (rn' & Hrn' & Heq').
    congruence.
Qed.

Lemma step_supersedes (e : Event) (w : World) :
  public e = true → one_live_run w →
  (∀ r, length (runs w) ≤ r → r < length (runs (step e w)) →
        animation (orch (step e w)) = Some r)
  ∧ (∀ r, animation (orch w) = Some r → r < length (runs w) →
          animation (orch (step e w)) ≠ Some r → silenced r (step e w)).
Proof.
  intros He (Hcur & Hnr & Hsup).
  assert (∀ w', keeps_variable w w' →
            (∀ r, length (runs w) ≤ r → r < length (runs w') →
                  animation (orch w') = Some r)
            ∧ (∀ r, animation (orch w) = Some r → r < length (runs w) →
                    animation (orch w') ≠ Some r → silenced r w')) as Hkept.
  { intros w' [Hv Hl]. split; intros r; [lia|congruence]. }
  destruct (hung w) eqn:Hhung.
  { apply Hkept. unfold step. rewrite Hhung. by split. }
  destruct e as [o b| | | |a| |p|r'|r' cb]; try discriminate.
  1-3,6-7: by apply Hkept, step_variable.
  - (* a tick *)
    destruct (pending w) as [|k ks] eqn:Hp.
    { apply Hkept. rewrite step_idle; [done|].
      unfold handle. by rewrite bind_get, Hp. }
    assert (keeps_variable w (with_pending ks w)) as Hwk by (by destruct_world w).
    assert (stages_current (with_pending ks w)) as Hcur' by (by destruct_world w).
    destruct k as [config|config].
    + apply Hkept, step_preserves; [apply _|].
      unfold handle. rewrite bind_get, Hp. unfold bind at 1. unfold modify.
      eapply (frame_trans (R:=keeps_variable)); [exact Hwk|].
      generalize (with_pending ks w).
      change (preserves keeps_variable (resume (AfterFirstTick config))).
      unfold resume. frame fail keeps_variable_leaf.
    + assert (step Microtask w
              = match delay_stage_keyframes config with
                | Normal kfs => started config kfs (with_pending ks w)
                | Throw x =>
                    with_errors (errors w ++ [x])
                      (abort_in_flight (with_pending ks w))
                | Diverge => with_hung true (abort_in_flight (with_pending ks w))
                end) as Hstep.
      { unfold step, handle. rewrite Hhung, bind_get, Hp.
        unfold bind at 1. unfold modify. rewrite resume_second_effect.
        destruct (delay_stage_keyframes config); by destruct_world w. }
      rewrite Hstep.
      destruct (delay_stage_keyframes config) as [kfs|x|].
      * split.
        -- intros r Hge Hlt. unfold started in *. destruct_world w.
           cbn in *. rewrite length_app in Hlt. cbn in Hlt. f_equal. lia.
        -- intros r Hr Hlt _. apply started_supersedes; [done|..];
             by destruct_world w.
      * apply Hkept. rewrite abort_in_flight_eq. by destruct_world w.
      * apply Hkept. rewrite abort_in_flight_eq. by destruct_world w.
  - (* an animation finishes *)
    destruct (animations w !! a) as [an|] eqn:Ha.
    2: { apply Hkept. rewrite step_idle; [done|].
         apply finish_idle. intros an. by rewrite Ha. }
    destruct (decide (playState an = Running)) as [Hplay|Hplay].
    2: { apply Hkept. rewrite step_idle; [done|].
         apply finish_idle. intros an'. rewrite Ha. by intros [= <-]. }
    set (w1 := with_animations (alter (set_playState Finished) a (animations w)) w).
    assert (keeps_variable w w1) as Hw1 by (by destruct_world w).
    assert (∀ m : M unit, preserves keeps_variable m →
                          handle (AnimationFinish a) w = m w1 →
                          keeps_variable w (step (AnimationFinish a) w)) as Hframe.
    { intros m Hm Heq. apply step_preserves; [apply _|]. rewrite Heq.
      eapply (frame_trans (R:=keeps_variable)); [exact Hw1|]. apply Hm. }
    pose proof (finish_effect a an w Ha Hplay) as Hfinish. fold w1 in Hfinish.
    change (finish a w) with (handle (AnimationFinish a) w) in Hfinish.
    destruct (onfinish an) as [|r1|r1| |cb|tk] eqn:Hfin.
    + apply Hkept, (Hframe (ret tt)); [|done]. apply preserves_ret; apply _.
    + apply Hkept, (Hframe (Driver.delay_finished r1)); [|done].
      unfold Driver.delay_finished. frame fail keeps_variable_leaf.
    + destruct (runs w !! r1) as [rn1|] eqn:Hr1.
      2: { apply Hkept, (Hframe (ret tt)); [apply preserves_ret; apply _|].
           rewrite Hfinish. cbn [fire]. unfold Driver.main_finished.
           rewrite bind_get. by replace (runs w1 !! r1) with (@None Run)
             by (by destruct_world w). }
      assert (runs w1 !! r1 = Some rn1) as Hr1' by (by destruct_world w).
      destruct (main_finished_calls r1 rn1 w1 Hr1') as (_ & Hret & Hanim & Hruns).
      assert (step (AnimationFinish a) w = fst (Driver.main_finished r1 w1)) as Hstep.
      { unfold step. rewrite Hhung, Hfinish. cbn [fire].
        destruct (Driver.main_finished r1 w1) as [w' c]. cbn in *. by subst. }
      rewrite Hstep. split.
      * intros r Hge Hlt. rewrite Hruns in Hlt.
        replace (runs w1) with (runs w) in Hlt by (by destruct_world w). lia.
      * intros r Hr Hlt _.
        assert (r1 = r) as ->.
        { destruct (decide (r1 = r)) as [|Hne]; [done|]. exfalso.
          assert (silenced r1 w) as [_ Hsil].
          { apply Hsup; [by apply lookup_lt_Some in Hr1|congruence]. }
          apply (Hsil a an Ha Hplay). by rewrite Hfin. }
        apply (finished_supersedes w a r an Hcur Ha Hplay Hfin Hlt).
        -- rewrite Hanim. by destruct_world w.
        -- rewrite Hruns. by destruct_world w.
    + apply Hkept, (Hframe (ret tt)); [|done]. apply preserves_ret; apply _.
    + by destruct (Hnr a an cb Ha).
    + apply Hkept, (Hframe (fire (HoverFinished tk))); [|done].
      unfold fire. frame fail keeps_variable_leaf.
Qed.

Lemma step_one_live (e : Event) (w : World) :
  public e = true → one_live_run w → one_live_run (step e w).
Proof.
  intros He Hw. destruct (step_supersedes e w He Hw) as [Hnew Hold].
  destruct Hw as (Hcur & Hnr & Hsup). split_and!.
  - by apply step_keeps_current.
  - by apply step_no_reverse.
  - intros r Hlt Hne.
    destruct (decide (r < length (runs w))) as [Hr|Hr].
    + destruct (decide (animation (orch w) = Some r)) as [Hv|Hv].
      * by apply Hold.
      * by apply (step_keeps_silence r e w), Hsup.
    + destruct Hne. apply Hnew; [lia|done].
Qed.

Lemma run_one_live (es : list Event) :
  ∀ w, forallb public es = true → one_live_run w → one_live_run (run es w).
Proof.
  induction es as [|e es IH]; intros w Hes Hw; [done|].
  cbn [forallb] in Hes. apply andb_prop in Hes as [He Hes].
  cbn [run fold_left]. apply IH; [done|]. by apply step_one_live.
Qed.

Lemma attach_one_live (p : MicroanimationParameters) (n : NodeState)
    (children : list elem) :
  one_live_run (attach p (fresh_page n children)).
Proof.
  split_and!.
  - apply attach_stages_current.
  - assert (keeps_no_reverse (fresh_page n children)
              (attach p (fresh_page n children))) as H.
    { unfold attach. generalize (fresh_page n children).
      change (preserves keeps_no_reverse (microanimation p)).
      frame fail keeps_no_reverse_leaf. }
    apply H. by intros a an cb.
  - assert (keeps_variable (with_orch (init_orch p) (fresh_page n children))
              (attach p (fresh_page n children))) as [_ H].
    { rewrite attach_unfold.
      generalize (with_orch (init_orch p) (fresh_page n children)).
      change (preserves keeps_variable setup).
      frame fail keeps_variable_leaf. }
    intros r Hr. cbn in H. lia.
Qed.

(** X13. at most one run is alive.  After any events that reach an attached
    action, updates included, every run but the one in the [animation]
    variable has no playing animation left that would complete it, and
    whatever happens next, neither its [tick(1, 0)] nor its [onFinish] is
    called again. *)
Theorem superseded_runs_are_silent (p : MicroanimationParameters)
    (n : NodeState) (children : list elem) (es : list Event) (r : nat) :
  forallb public es = true →
  let w := run es (attach p (fresh_page n children)) in
  r < length (runs w) → animation (orch w) ≠ Some r →
  (∀ a an, animations w !! a = Some an → playState an = Running →
           onfinish an ≠ DelayFinished r ∧ onfinish an ≠ MainFinished r)
  ∧ ∀ es', completions r (run es' w) = completions r w.
Proof.
  intros Hes w Hr Hne.
  destruct (run_one_live es _ Hes (attach_one_live p n children))
    as (_ & _ & Hsup).
  pose proof (Hsup r Hr Hne) as Hsil. split.
  - intros a an Ha Hplay. destruct Hsil as [_ Hsil].
    pose proof (Hsil a an Ha Hplay) as H.
    split; intros Heq; rewrite Heq in H; by apply H.
  - intros es'. by destruct (run_keeps_silence r es' w Hsil) as [_ ->].
Qed.

Lemma superseded_runs_are_silent_witness :
  length (runs (run [Microtask; Update (immediately false); Microtask]
                  (attach (immediately false) page))) = 2
  ∧ completions 0
      (run [AnimationFinish 0; AnimationFinish 1; AnimationFinish 2]
         (run [Microtask; Update (immediately false); Microtask]
            (attach (immediately false) page))) = [].
Proof.
  split; [reflexivity|].
  etrans.
  - refine (proj2 (superseded_runs_are_silent (immediately false)
                     block_node [Sibling 0; TheNode; Sibling 1]
                     [Microtask; Update (immediately false); Microtask]
                     0 eq_refl _ _) _).
    + apply Nat.lt_0_succ.
    + discriminate.
  - reflexivity.
Defined.

(** ** Hover and immediate mode leave the page alone *)

#[local] Instance keeps_bare_frame : Frame keeps_bare.
Proof.
  split; unfold keeps_bare.
  - done.
  - intros w1 w2 w3 (?&?&?&?&?) (?&?&?&?&?). split_and!; congruence.
  - intros w x. by destruct_world w.
  - intros w. by destruct_world w.
Qed.

Ltac keeps_bare_leaf :=
  intros ?w; match goal with w : World |- _ => destruct_orch w end;
  unfold keeps_bare; cbn -[alter]; repeat case_match; done.

Lemma keeps_bare_bare n children (w w' : World) :
  keeps_bare w w' → bare n children w → bare n children w'.
Proof.
  intros (Hm & Hn & Hd & Hp & Hq) (? & ? & ? & ? & ?). unfold bare.
  rewrite Hm, Hn, Hd, Hp, Hq. done.
Qed.

Lemma start_animation_bare n children (w : World) :
  bare n children w → bare n children (fst (start_animation w)).
Proof.
  intros (Hm & Hn & Hd & Hp & Hq). rewrite start_animation_effect by done.
  destruct (animated (orch w) && once (orch w)); [done|].
  unfold bare. destruct_orch w. cbn in *. split_and!; [done..|].
  intros k [Hk|Hk]%elem_of_app; [by apply Hq|].
  apply list_elem_of_singleton in Hk. eauto.
Qed.

Lemma handle_bare n children (e : Event) (w : World) :
  fixed_configuration e = true → bare n children w →
  bare n children (fst (handle e w)).
Proof.
  intros He Hw. destruct e as [o b| | | |a| |p|r|r cb]; try discriminate.
  - unfold handle. rewrite bind_get.
    destruct (observers w !! o) as [ob|]; [|done].
    destruct (connected ob); [|done]. destruct b; [|done].
    unfold observer_callback. unfold bind at 1.
    destruct (start_animation_observers w) as (Hret & _).
    pose proof (start_animation_bare n children w Hw) as Hs.
    destruct (start_animation w) as [ws c]. cbn in Hret, Hs. subst c.
    revert Hs. apply keeps_bare_bare. revert ws.
    lazymatch goal with
    | |- ∀ ws, keeps_bare ws (fst (?m ws)) => change (preserves keeps_bare m)
    end.
    frame fail keeps_bare_leaf.
  - revert Hw. apply keeps_bare_bare. revert w.
    frame_handle fail keeps_bare_leaf.
  - revert Hw. apply keeps_bare_bare. revert w.
    frame_handle fail keeps_bare_leaf.
  - unfold handle. rewrite bind_get.
    destruct (pending w) as [|k ks] eqn:Hpend; [done|].
    unfold bind at 1. unfold modify.
    destruct Hw as (Hm & Hn & Hd & Hp & Hq).
    destruct (Hq k) as [config ->]; [rewrite Hpend; apply list_elem_of_here|].
    assert (∀ k, k ∈ ks → ∃ config, k = AfterSecondTick config) as Hq'.
    { intros k Hk. apply Hq. rewrite Hpend. by apply list_elem_of_further. }
    rewrite resume_second_effect.
    destruct (delay_stage_keyframes config); rewrite ?abort_in_flight_eq;
      unfold bare, started; destruct_orch w; cbn in *; by split_and!.
  - revert Hw. apply keeps_bare_bare. revert w.
    frame_handle fail keeps_bare_leaf.
  - change (handle Destroy w) with (destroy w). rewrite destroy_destroyed.
    destruct Hw as (Hm & Hn & Hd & Hp & Hq). unfold bare.
    cbn [mode orch node dom placeholders pending destroyed].
    unfold destroyed_dom. split_and!; [done..| |done|done].
    by destruct (mode (orch w)).
Qed.

Lemma step_bare n children (e : Event) (w : World) :
  fixed_configuration e = true → bare n children w →
  bare n children (step e w).
Proof.
  intros He Hw. pose proof (handle_bare n children e w He Hw) as H.
  unfold step. destruct (hung w); [done|].
  destruct (handle e w) as [w' [[]|x|]]; cbn in *; [done|by destruct_world w'..].
Qed.

(** X14. in hover mode and in immediate mode the action leaves the page
    alone: whatever events come, the node keeps its style, the children of
    its parent stay as they are and no placeholder is created. *)
Theorem page_untouched_outside_viewport (p : MicroanimationParameters)
    (n : NodeState) (children : list elem) (es : list Event) :
  default viewport (new_mode p) ≠ viewport →
  forallb fixed_configuration es = true →
  let w := run es (attach p (fresh_page n children)) in
  node w = n ∧ dom w = children ∧ placeholders w = []
  ∧ visible w = visible (fresh_page n children).
Proof.
  intros Hmode Hes w.
  assert (bare n children w) as (_ & Hn & Hd & Hp & _).
  { unfold w. clear w.
    assert (bare n children (attach p (fresh_page n children))) as H0.
    { rewrite attach_unfold. unfold setup. rewrite bind_get.
      destruct (default viewport (new_mode p)) eqn:Hm; [done| |].
      - cbn [mode orch with_orch init_orch]. rewrite Hm.
        unfold bare. cbn. rewrite Hm. split_and!; try done.
        by intros k ?%elem_of_nil.
      - cbn [mode orch with_orch init_orch]. rewrite Hm.
        apply start_animation_bare. unfold bare. cbn. rewrite Hm.
        split_and!; try done. by intros k ?%elem_of_nil. }
    revert H0. generalize (attach p (fresh_page n children)).
    induction es as [|e es IH]; intros w0 H0; [done|].
    cbn [forallb] in Hes. apply andb_prop in Hes as [He Hes].
    cbn [run fold_left]. apply IH; [done|]. by apply step_bare. }
  split_and!; [done..|]. unfold visible. by rewrite Hn, Hd.
Qed.

Lemma page_untouched_outside_viewport_witness :
  visible (run [MouseEnter; AnimationFinish 0; MouseLeave; Destroy] hover_page)
  = true.
Proof.
  etrans.
  - refine (proj2 (proj2 (proj2
              (page_untouched_outside_viewport (fade_in (Some hover)) block_node
                 [Sibling 0; TheNode; Sibling 1]
                 [MouseEnter; AnimationFinish 0; MouseLeave; Destroy]
                 _ eq_refl)))).
    discriminate.
  - reflexivity.
Defined.

(** ** The inline style after the trigger *)

Lemma keeps_settled n (w w' : World) :
  keeps_bare w w' → keeps_start w w' → settled n w → settled n w'.
Proof.
  intros (Hm & Hn & Hd & _ & Hq) (_ & Hp & _) (? & ? & ? & ? & ? & ?).
  unfold settled. rewrite Hm, Hn, Hd, Hp, Hq. done.
Qed.

Lemma handle_settled n (e : Event) (w : World) :
  fixed_configuration e = true → settled n w → settled n (fst (handle e w)).
Proof.
  intros He Hw. destruct e as [o b| | | |a| |p|r|r cb]; try discriminate.
  - unfold handle. rewrite bind_get.
    destruct (observers w !! o) as [ob|]; [|done].
    destruct (connected ob); [|done]. destruct b; [|done].
    unfold observer_callback. unfold bind at 1.
    destruct (start_animation_observers w) as (Hret & _).
    assert (settled n (fst (start_animation w))) as Hs.
    { destruct Hw as (Hm & Hp & Hin & Hout & Hq & Hn).
      rewrite (start_animation_viewport_effect w 0 Hm Hin Hp).
      destruct (animated (orch w) && once (orch w)); [done|].
      rewrite bool_decide_eq_false_2 by done.
      unfold settled. destruct_orch w. cbn in *. done. }
    destruct (start_animation w) as [ws c]. cbn in Hret, Hs. subst c.
    revert Hs. apply keeps_settled; revert ws.
    + lazymatch goal with
      | |- ∀ ws, keeps_bare ws (fst (?m ws)) => change (preserves keeps_bare m)
      end.
      frame fail keeps_bare_leaf.
    + lazymatch goal with
      | |- ∀ ws, keeps_start ws (fst (?m ws)) => change (preserves keeps_start m)
      end.
      frame fail keeps_start_leaf.
  - revert Hw. apply keeps_settled; revert w.
    + frame_handle fail keeps_bare_leaf.
    + frame_handle fail keeps_start_leaf.
  - revert Hw. apply keeps_settled; revert w.
    + frame_handle fail keeps_bare_leaf.
    + frame_handle fail keeps_start_leaf.
  - unfold handle. rewrite bind_get.
    destruct (pending w) as [|k ks] eqn:Hpend; [done|].
    unfold bind at 1. unfold modify.
    destruct Hw as (Hm & Hp & Hin & Hout & Hq & Hn).
    destruct (Hq k) as [config ->]; [rewrite Hpend; apply list_elem_of_here|].
    assert (∀ k, k ∈ ks → ∃ config, k = AfterSecondTick config) as Hq'.
    { intros k Hk. apply Hq. rewrite Hpend. by apply list_elem_of_further. }
    rewrite resume_second_effect.
    destruct (delay_stage_keyframes config); rewrite ?abort_in_flight_eq;
      unfold settled, started; destruct_orch w; cbn in *; by split_and!.
  - revert Hw. apply keeps_settled; revert w.
    + frame_handle fail keeps_bare_leaf.
    + frame_handle fail keeps_start_leaf.
  - change (handle Destroy w) with (destroy w). rewrite destroy_destroyed.
    destruct Hw as (Hm & Hp & Hin & Hout & Hq & Hn). unfold settled.
    cbn [mode orch node dom placeholder pending destroyed].
    unfold destroyed_dom. rewrite Hm, Hp.
    rewrite bool_decide_eq_false_2 by done. done.
Qed.

Lemma run_settled n (es : list Event) :
  ∀ w, forallb fixed_configuration es = true → settled n w →
       settled n (run es w).
Proof.
  induction es as [|e es IH]; intros w Hes Hw; [done|].
  cbn [forallb] in Hes. apply andb_prop in Hes as [He Hes].
  cbn [run fold_left]. apply IH; [done|].
  pose proof (handle_settled n e w He Hw) as H.
  unfold step. destruct (hung w); [done|].
  destruct (handle e w) as [w' [[]|x|]]; cbn in *; [done|by destruct_world w'..].
Qed.

Lemma assign_lookup_Some (target source : Keyframe) (k v : string) :
  source !! k = Some v → v ≠ "" → assign target source !! k = Some v.
Proof.
  intros Hk Hv. unfold assign. rewrite lookup_merge, Hk.
  apply String.eqb_neq in Hv. destruct (target !! k); cbn; by rewrite Hv.
Qed.

Lemma first_tick_effect (p : MicroanimationParameters) (n : NodeState)
    (children : list elem) :
  default viewport (new_mode p) = viewport → TheNode ∈ children →
  let config := new_transition p (hidden n) (default no_params (new_params p)) in
  let display := default "" (placeholder_style_of n !! "display") in
  let w1 := run [Intersect 0 true; Microtask] (attach p (fresh_page n children)) in
  settled (node w1) w1
  ∧ ∀ first, getFirstKeyframeOfTransition config = Normal first →
             node w1 = shown display first (hidden n).
Proof.
  intros Hmode Hnode config display w1. unfold w1. cbn [run fold_left].
  rewrite first_entry_effect by done. fold config.
  set (w0 := {| node := hidden n |}).
  assert (TheNode ∈ dom w0 ∧ PlaceholderEl 0 ∉ dom w0) as [Hin Hout].
  { cbn [dom w0]. rewrite !elem_of_remove_elem. split; [|tauto].
    split; [|done]. by apply elem_of_insert_before. }
  set (restored := set_style (set_property "display" display (style (hidden n)))
                     (hidden n)).
  assert (step Microtask w0
          = match getFirstKeyframeOfTransition config with
            | Normal first =>
                with_pending [AfterSecondTick config]
                  (with_node (shown display first (hidden n)) w0)
            | Throw e =>
                with_errors [e] (with_pending [] (with_node restored w0))
            | Diverge => with_hung true (with_pending [] (with_node restored w0))
            end) as ->.
  { unfold step, handle. rewrite bind_get. change (hung w0) with false.
    cbn [pending w0]. unfold bind at 1. unfold modify.
    rewrite (resume_first_effect config _ 0) by done.
    change (default "" (placeholder_style (with_pending [] w0) 0 !! "display"))
      with display.
    by destruct (getFirstKeyframeOfTransition config). }
  destruct (getFirstKeyframeOfTransition config) as [first|e|] eqn:Hkf.
  - split; [|intros ? [= <-]; reflexivity]. unfold settled.
    cbn -[shown remove_elem insert_before]. rewrite Hmode. split_and!; try done.
    intros k Hk. apply list_elem_of_singleton in Hk. eauto.
  - split; [|done]. unfold settled.
    cbn -[restored remove_elem insert_before]. rewrite Hmode.
    split_and!; try done. by intros k ?%elem_of_nil.
  - split; [|done]. unfold settled.
    cbn -[restored remove_elem insert_before]. rewrite Hmode.
    split_and!; try done. by intros k ?%elem_of_nil.
Qed.

(** X15. after the first tick of the viewport trigger the node's inline
    style is never written again, neither at the end of the animation nor
    by [destroy]: the declarations of the first keyframe, assigned at that
    tick, stay in it. *)
Theorem first_keyframe_stays (p : MicroanimationParameters) (n : NodeState)
    (children : list elem) (es : list Event) :
  default viewport (new_mode p) = viewport → TheNode ∈ children →
  forallb fixed_configuration es = true →
  let config := new_transition p (hidden n) (default no_params (new_params p)) in
  let w1 := run [Intersect 0 true; Microtask] (attach p (fresh_page n children)) in
  node (run es w1) = node w1
  ∧ ∀ first property value,
      getFirstKeyframeOfTransition config = Normal first →
      first !! property = Some value → value ≠ "" →
      style (node (run es w1)) !! property = Some value.
Proof.
  intros Hmode Hnode Hes config w1.
  destruct (first_tick_effect p n children Hmode Hnode) as [Hset Hfirst].
  fold config w1 in Hset, Hfirst.
  destruct (run_settled (node w1) es w1 Hes Hset) as (_ & _ & _ & _ & _ & Hn).
  split; [done|]. intros first property value Hkf Hp Hv.
  rewrite Hn, (Hfirst first Hkf). unfold shown. cbn [style set_style].
  by apply assign_lookup_Some.
Qed.

Lemma first_keyframe_stays_witness :
  style (node (run [Microtask; AnimationFinish 0; AnimationFinish 1; Destroy]
                 (run [Intersect 0 true; Microtask]
                    (attach (fade_in None) page)))) !! "opacity" = Some "0".
Proof.
  refine (proj2 (first_keyframe_stays (fade_in None) block_node
                   [Sibling 0; TheNode; Sibling 1]
                   [Microtask; AnimationFinish 0; AnimationFinish 1; Destroy]
                   eq_refl _ eq_refl) (opacity "0") "opacity" "0" eq_refl eq_refl _).
  - apply list_elem_of_further, list_elem_of_here.
  - discriminate.
Defined.

(** ** The catalog and the translator *)

Lemma cut_app (sep : ascii) (head value : string) :
  has_char sep head = false →
  cut sep (head +:+ String sep value) = Some (head, value).
Proof.
  induction head as [|c head IH]; intros Hh.
  - rewrite append_empty_l. cbn [cut]. by rewrite Ascii.eqb_refl.
  - rewrite append_String. cbn [cut]. cbn [has_char] in Hh.
    apply orb_false_elim in Hh as [Hc Hh]. by rewrite Hc, IH.
Qed.

Lemma css_to_keyframe_loop_declarations (ds : list (string * string)) :
  ∀ kf : Keyframe,
    forallb translatable ds = true →
    css_to_keyframe_loop (split ";" (declarations ds)) kf
    = Normal (fold_left
                (fun kf d => <[camelcase_rule (trim (indent +:+ d.1))
                               := trim d.2]> kf) ds kf).
Proof.
  induction ds as [|[name value] ds IH]; intros kf Hds; [done|].
  cbn [forallb] in Hds. apply andb_prop in Hds as [Hd Hds].
  unfold translatable in Hd. cbn [fst snd] in Hd.
  apply andb_prop in Hd as [Hd Hname]. apply andb_prop in Hd as [Hd Hv2].
  apply andb_prop in Hd as [Hd Hv1]. apply andb_prop in Hd as [Hn1 Hn2].
  apply negb_true_iff in Hn1, Hn2, Hv1, Hv2.
  cbn [declarations fold_left fst snd].
  replace (indent +:+ name +:+ ":" +:+ value +:+ ";" +:+ declarations ds)
    with ((indent +:+ name +:+ ":" +:+ value) +:+ String ";" (declarations ds))
    by (by rewrite !append_assoc, !append_sep).
  assert (has_char ";" (indent +:+ name +:+ ":" +:+ value) = false) as Hsemi.
  { rewrite !has_char_app. cbn. by rewrite Hn2, Hv2. }
  rewrite split_app, (has_char_split _ _ Hsemi).
  cbn [app css_to_keyframe_loop].
  replace (indent +:+ name +:+ ":" +:+ value)
    with ((indent +:+ name) +:+ String ":" value)
    by (by rewrite !append_assoc, !append_sep).
  assert (has_char ":" (indent +:+ name) = false) as Hcolon.
  { rewrite has_char_app. cbn. by rewrite Hn1. }
  rewrite split_app, (has_char_split _ _ Hcolon), (has_char_split _ _ Hv1).
  cbn [app].
  destruct (indent +:+ name) as [|c property] eqn:Hprop.
  { unfold indent in Hprop. by rewrite append_String in Hprop. }
  rewrite camelcase_defined by done. cbn [cbind]. by apply IH.
Qed.

Lemma css_to_keyframe_declarations (ds : list (string * string)) :
  forallb translatable ds = true →
  css_to_keyframe (declarations ds)
  = Normal (fold_left
              (fun kf d => <[camelcase_rule (trim (indent +:+ d.1)) := trim d.2]> kf)
              ds ∅).
Proof. apply css_to_keyframe_loop_declarations. Qed.

Lemma clean_has_char (c : ascii) (s : string) :
  (c = ";" ∨ c = ":")%char → clean s = true → has_char c s = false.
Proof.
  intros Hc. induction s as [|d s IH]; [done|]. cbn [clean has_char].
  intros H. repeat (apply andb_prop in H as [H ?]).
  rewrite IH by done. rewrite orb_false_r.
  repeat match goal with H : negb _ = true |- _ => apply negb_true_iff in H end.
  by destruct Hc as [-> | ->].
Qed.

Lemma clean_trim (s : string) : clean s = true → trim s = s.
Proof.
  intros Hs. unfold trim.
  assert (trim_start s = s) as ->.
  { destruct s as [|c s]; [done|]. cbn [clean trim_start] in *.
    repeat (apply andb_prop in Hs as [Hs ?]).
    by destruct (is_space c). }
  induction s as [|c s IH]; [done|]. cbn [clean trim_end] in *.
  repeat (apply andb_prop in Hs as [Hs ?]). rewrite IH by done.
  destruct s; [|done]. by destruct (is_space c).
Qed.

Lemma trim_space (s : string) : trim (String " " s) = trim s.
Proof. done. Qed.

Lemma clean_app (a b : string) : clean (a +:+ b) = clean a && clean b.
Proof.
  induction a as [|c a IH]; [done|].
  rewrite append_String. cbn [clean]. by rewrite IH, andb_assoc.
Qed.

Lemma clean_pretty_N_go (x : N) :
  ∀ s, clean s = true → clean (pretty_N_go x s) = true.
Proof.
  induction (N.lt_wf_0 x) as [x _ IH]. intros s Hs.
  destruct (decide (x = 0%N)) as [->|Hx]; [by rewrite pretty_N_go_0|].
  rewrite pretty_N_go_step by lia. apply IH.
  - apply N.div_lt; lia.
  - cbn [clean]. rewrite Hs, andb_true_r.
    unfold pretty_N_char. by repeat case_match.
Qed.

Lemma clean_pretty_N (x : N) : clean (pretty x) = true.
Proof.
  unfold pretty, pretty_N. case_decide; [done|]. by apply clean_pretty_N_go.
Qed.

Lemma clean_pretty_Z (x : Z) : clean (pretty x) = true.
Proof.
  unfold pretty, pretty_Z. destruct x as [|p|p]; [done|apply clean_pretty_N|].
  rewrite clean_app. cbn [clean andb negb]. apply clean_pretty_N.
Qed.

Lemma clean_zeros (n : nat) : clean (zeros n) = true.
Proof. induction n as [|n IH]; [done|]. cbn [zeros clean]. by rewrite IH. Qed.

Lemma clean_substring (s : string) :
  ∀ n m, clean s = true → clean (substring n m s) = true.
Proof.
  induction s as [|c s IH]; intros n m Hs.
  - by destruct n, m.
  - cbn [clean] in Hs. apply andb_prop in Hs as [Hc Hs].
    destruct n as [|n]; [destruct m as [|m]|]; cbn [substring clean]; [done| |].
    + by rewrite Hc, IH.
    + by apply IH.
Qed.

Lemma show_positive_clean (a : Z) (b : positive) :
  clean (show_positive a b) = true.
Proof.
  unfold show_positive. destruct (shortest _ _ _ _ _) as [s n].
  repeat case_match;
    rewrite ?clean_app, ?clean_zeros, ?clean_substring, ?clean_pretty_Z;
    try done; apply clean_pretty_Z.
Qed.

Lemma show_clean (x : number) : clean (show x) = true.
Proof.
  destruct x as [q| | |]; [|done..]. unfold show.
  destruct (is_zero q); [done|].
  destruct (is_neg q); [|apply show_positive_clean].
  rewrite clean_app. by rewrite show_positive_clean.
Qed.

Lemma trim_end_app (a b : string) :
  trim_end b ≠ "" → trim_end (a +:+ b) = a +:+ trim_end b.
Proof.
  intros Hb. induction a as [|c a IH]; [by rewrite !append_empty_l|].
  rewrite !append_String. cbn [trim_end]. rewrite IH.
  destruct (a +:+ trim_end b) eqn:Heq; [|done].
  destruct a; [|by rewrite append_String in Heq].
  by rewrite append_empty_l in Heq.
Qed.

Lemma trim_start_app (a b : string) :
  trim_start a ≠ "" → trim_start (a +:+ b) = trim_start a +:+ b.
Proof.
  induction a as [|c a IH]; [done|]. intros Ha.
  rewrite append_String. cbn [trim_start] in *.
  destruct (is_space c); [by apply IH|]. by rewrite append_String.
Qed.

Lemma trim_blank (s : string) : trim s ≠ "" → trim_start s ≠ "".
Proof. unfold trim. intros H Heq. by rewrite Heq in H. Qed.

Lemma to_upper_line_feed (c : ascii) :
  Ascii.eqb (to_upper c) "010" = Ascii.eqb c "010".
Proof. by destruct c as [[] [] [] [] [] [] [] []]. Qed.

Lemma has_char_join_exists (c : ascii) (l : list string) :
  has_char c (join l) = existsb (has_char c) l.
Proof.
  induction l as [|s l IH]; [done|].
  cbn [existsb]. change (join (s :: l)) with (s +:+ join l).
  by rewrite has_char_app, IH.
Qed.

Lemma has_char_split_exists (c sep : ascii) (s : string) :
  Ascii.eqb sep c = false →
  has_char c s = existsb (has_char c) (split sep s).
Proof.
  intros Hne. induction s as [|d s IH]; [done|].
  cbn [has_char split]. destruct (Ascii.eqb d sep) eqn:Hd.
  - apply Ascii.eqb_eq in Hd as ->. rewrite Hne. cbn. exact IH.
  - destruct (split_cons sep s) as (w & ws & Hw). rewrite Hw in *.
    cbn [existsb has_char] in *. rewrite IH. by rewrite orb_assoc.
Qed.

Lemma cmapM_capitalize_line_feed (l words : list string) :
  cmapM capitalize l = Normal words →
  existsb (has_char "010") words = existsb (has_char "010") l.
Proof.
  revert words. induction l as [|seg l IH]; intros words Hw.
  - cbn in Hw. by injection Hw as <-.
  - cbn [cmapM] in Hw. destruct seg as [|c seg]; [done|]. cbn in Hw.
    destruct (cmapM capitalize l) as [ws| |] eqn:Hws; try done.
    cbn in Hw. injection Hw as <-. cbn [existsb has_char].
    by rewrite to_upper_line_feed, (IH ws eq_refl).
Qed.

Lemma camelcase_keeps_line_feed (property result : string) :
  css_property_to_camelcase property = Normal result →
  has_char "010" result = has_char "010" property.
Proof.
  unfold css_property_to_camelcase.
  destruct (String.eqb property "float") eqn:Hf.
  { apply String.eqb_eq in Hf as ->. by intros [= <-]. }
  destruct (String.eqb property "offset") eqn:Ho.
  { apply String.eqb_eq in Ho as ->. by intros [= <-]. }
  destruct (starts_with "--" property); [by intros [= <-]|].
  rewrite (has_char_split_exists "010" "-" property) by done.
  destruct (split "-" property) as [|p0 [|seg rest]]; [done| |].
  { intros [= <-]. cbn [existsb]. by rewrite orb_false_r. }
  destruct (cmapM capitalize (seg :: rest)) as [words| |] eqn:Hwords; try done.
  cbn [cbind]. intros [= <-].
  rewrite has_char_app, has_char_join_exists. cbn [existsb].
  by rewrite (cmapM_capitalize_line_feed _ _ Hwords).
Qed.

Section CatalogProperties.

Context (to_number : string → number) (to_string : number → string).
Hypothesis to_string_clean : ∀ x, clean (to_string x) = true.

Lemma number_value (x : number) (rest : string) :
  has_char ":" (to_string x) = false ∧ has_char ";" (to_string x) = false
  ∧ trim (to_string x) = to_string x.
Proof.
  split_and!; [apply clean_has_char; auto..|apply clean_trim]; auto.
Qed.

Ltac name_of_declaration :=
  repeat match goal with
         | |- context [camelcase_rule (trim (indent +:+ ?name))] =>
             let r := eval vm_compute in (camelcase_rule (trim (indent +:+ name))) in
             change (camelcase_rule (trim (indent +:+ name))) with r
         end.

Ltac translate_declarations ds :=
  etrans;
  [ apply (f_equal css_to_keyframe);
    lazymatch goal with
    | |- ?css = _ => change css with css; instantiate (1 := declarations ds)
    end;
    unfold styles_at; cbn [css declarations fadeSlide popScale spinIn revealSlide
                             bounceScale flip3D scaleAndRotate];
    rewrite ?append_assoc; reflexivity
  | rewrite css_to_keyframe_declarations;
    [ cbn [fold_left fst snd]; name_of_declaration;
      rewrite ?(append_String " "), ?append_empty_l, ?trim_space
    | unfold translatable; cbn [forallb fst snd];
      rewrite ?has_char_app;
      repeat match goal with
             | |- context [has_char ?c (to_string ?x)] =>
                 rewrite (clean_has_char c (to_string x)) by auto
             | H : has_char _ _ = false |- _ => rewrite H
             end;
      reflexivity ] ].

Lemma fadeSlide_keyframe (n : NodeState) (ps : TransitionParams) (t u : number) :
  has_char ":" (base_transform n) = false →
  has_char ";" (base_transform n) = false →
  css_to_keyframe (styles_at (fadeSlide to_number to_string n ps) t u)
  = Normal
      (<["transform" :=
           trim (base_transform n +:+ " translate3d("
                 +:+ to_string (scaled (p_x ps) u) +:+ "px, "
                 +:+ to_string (scaled (p_y ps) u) +:+ "px, 0)")]>
         (<["opacity" := to_string (nmul (target_opacity to_number n) t)]> ∅)).
Proof.
  intros Hc Hs.
  translate_declarations
    [("opacity", " " +:+ to_string (nmul (target_opacity to_number n) t));
     ("transform", " " +:+ base_transform n +:+ " translate3d("
                   +:+ to_string (scaled (p_x ps) u) +:+ "px, "
                   +:+ to_string (scaled (p_y ps) u) +:+ "px, 0)")].
  by rewrite (clean_trim (to_string _)) by apply to_string_clean.
Qed.

Lemma popScale_keyframe (n : NodeState) (ps : TransitionParams) (t u : number) :
  has_char ":" (base_transform n) = false →
  has_char ";" (base_transform n) = false →
  let start := default (round64 (95 # 100)) (p_start ps) in
  let opacity := default (of_Z 0) (p_opacity ps) in
  css_to_keyframe (styles_at (popScale to_number to_string n ps) t u)
  = Normal
      (<["opacity" :=
           to_string (nadd opacity
                        (nmul (nsub (target_opacity to_number n) opacity) t))]>
         (<["transform" :=
              trim (base_transform n +:+ " scale("
                    +:+ to_string (nadd start (nmul (nsub (of_Z 1) start) t))
                    +:+ ")")]> ∅)).
Proof.
  intros Hc Hs start opacity.
  translate_declarations
    [("transform", " " +:+ base_transform n +:+ " scale("
                   +:+ to_string (nadd start (nmul (nsub (of_Z 1) start) t))
                   +:+ ")");
     ("opacity", " " +:+ to_string
                     (nadd opacity
                        (nmul (nsub (target_opacity to_number n) opacity) t)))].
  by rewrite (clean_trim (to_string _)) by apply to_string_clean.
Qed.

Lemma spinIn_keyframe (n : NodeState) (ps : TransitionParams) (t u : number) :
  has_char ":" (base_transform n) = false →
  has_char ";" (base_transform n) = false →
  let degrees := default (of_Z 180) (p_degrees ps) in
  let y := default (of_Z 20) (p_y ps) in
  css_to_keyframe (styles_at (spinIn to_number to_string n ps) t u)
  = Normal
      (<["opacity" := to_string (nmul (target_opacity to_number n) t)]>
         (<["transform" :=
              trim (base_transform n +:+ " rotate("
                    +:+ to_string (nmul degrees (nsub (of_Z 1) t))
                    +:+ "deg) translateY("
                    +:+ to_string (nmul y (nsub (of_Z 1) t)) +:+ "px)")]> ∅)).
Proof.
  intros Hc Hs degrees y.
  translate_declarations
    [("transform", " " +:+ base_transform n +:+ " rotate("
                   +:+ to_string (nmul degrees (nsub (of_Z 1) t))
                   +:+ "deg) translateY("
                   +:+ to_string (nmul y (nsub (of_Z 1) t)) +:+ "px)");
     ("opacity", " " +:+ to_string (nmul (target_opacity to_number n) t))].
  by rewrite (clean_trim (to_string _)) by apply to_string_clean.
Qed.

Lemma bounceScale_keyframe (n : NodeState) (ps : TransitionParams) (t u : number) :
  has_char ":" (base_transform n) = false →
  has_char ";" (base_transform n) = false →
  css_to_keyframe (styles_at (bounceScale to_number to_string n ps) t u)
  = Normal
      (<["opacity" := to_string (nmul (target_opacity to_number n) t)]>
         (<["transform" :=
              trim (base_transform n +:+ " scale("
                    +:+ to_string
                          (nadd (of_Z 1)
                             (nmul (round64 (1 # 10)) (nsub (of_Z 1) t)))
                    +:+ ")")]> ∅)).
Proof.
  intros Hc Hs.
  translate_declarations
    [("transform", " " +:+ base_transform n +:+ " scale("
                   +:+ to_string
                         (nadd (of_Z 1) (nmul (round64 (1 # 10)) (nsub (of_Z 1) t)))
                   +:+ ")");
     ("opacity", " " +:+ to_string (nmul (target_opacity to_number n) t))].
  by rewrite (clean_trim (to_string _)) by apply to_string_clean.
Qed.

Lemma flip3D_keyframe (n : NodeState) (ps : TransitionParams) (t u : number) :
  has_char ":" (base_transform n) = false →
  has_char ";" (base_transform n) = false →
  css_to_keyframe (styles_at (flip3D to_number to_string n ps) t u)
  = Normal
      (<["transformOrigin" := "50% 100%"]>
         (<["opacity" := to_string (nmul (target_opacity to_number n) t)]>
            (<["transform" :=
                 trim (base_transform n +:+ " perspective(1000px) rotateX("
                       +:+ to_string (nmul (of_Z 90) u) +:+ "deg)")]> ∅))).
Proof.
  intros Hc Hs.
  translate_declarations
    [("transform", " " +:+ base_transform n +:+ " perspective(1000px) rotateX("
                   +:+ to_string (nmul (of_Z 90) u) +:+ "deg)");
     ("opacity", " " +:+ to_string (nmul (target_opacity to_number n) t));
     ("transform-origin", " 50% 100%")].
  by rewrite (clean_trim (to_string _)) by apply to_string_clean.
Qed.

Lemma scaleAndRotate_keyframe (n : NodeState) (ps : TransitionParams)
    (t u : number) :
  has_char ":" (base_transform n) = false →
  has_char ";" (base_transform n) = false →
  let start := default (round64 (95 # 100)) (p_start ps) in
  let degrees := default (of_Z 180) (p_degrees ps) in
  let y := default (of_Z 20) (p_y ps) in
  let opacity := default (of_Z 0) (p_opacity ps) in
  css_to_keyframe (styles_at (scaleAndRotate to_number to_string n ps) t u)
  = Normal
      (<["opacity" :=
           to_string (nadd opacity
                        (nmul (nsub (target_opacity to_number n) opacity) t))]>
         (<["transform" :=
              trim (base_transform n +:+ " scale("
                    +:+ to_string (nadd start (nmul (nsub (of_Z 1) start) t))
                    +:+ ") rotate("
                    +:+ to_string (nmul degrees (nsub (of_Z 1) t))
                    +:+ "deg) translateY("
                    +:+ to_string (nmul y (nsub (of_Z 1) t)) +:+ "px)")]> ∅)).
Proof.
  intros Hc Hs start degrees y opacity.
  translate_declarations
    [("transform", " " +:+ base_transform n +:+ " scale("
                   +:+ to_string (nadd start (nmul (nsub (of_Z 1) start) t))
                   +:+ ") rotate("
                   +:+ to_string (nmul degrees (nsub (of_Z 1) t))
                   +:+ "deg) translateY("
                   +:+ to_string (nmul y (nsub (of_Z 1) t)) +:+ "px)");
     ("opacity", " " +:+ to_string
                     (nadd opacity
                        (nmul (nsub (target_opacity to_number n) opacity) t)))].
  by rewrite (clean_trim (to_string _)) by apply to_string_clean.
Qed.

Lemma revealSlide_translation (n : NodeState) (ps : TransitionParams)
    (t u : number) :
  has_char ":" (base_transform n) = false →
  has_char ";" (base_transform n) = false →
  css_to_keyframe (styles_at (revealSlide to_number to_string n ps) t u)
  = cbind (css_property_to_camelcase
             (trim (base_transform n +:+ indent +:+ "clip-path")))
      (fun name =>
         Normal
           (<["opacity" := to_string (nmul (target_opacity to_number n) t)]>
              (<[name := "inset(0 "
                         +:+ to_string (nsub (of_Z 100) (nmul t (of_Z 100)))
                         +:+ "% 0 0)"]> ∅))).
Proof.
  intros Hc Hs.
  set (value := " inset(0 " +:+ to_string (nsub (of_Z 100) (nmul t (of_Z 100)))
                +:+ "% 0 0)").
  set (rest := [("opacity", " " +:+ to_string (nmul (target_opacity to_number n) t))]).
  assert (styles_at (revealSlide to_number to_string n ps) t u
          = ((indent +:+ base_transform n +:+ indent +:+ "clip-path")
             +:+ String ":" value) +:+ String ";" (declarations rest)) as ->.
  { unfold styles_at, value, rest. cbn [css revealSlide declarations].
    rewrite ?append_assoc, ?append_String, ?append_assoc. reflexivity. }
  pose proof (to_string_clean (nsub (of_Z 100) (nmul t (of_Z 100)))) as Hclean.
  assert (has_char ":" value = false ∧ has_char ";" value = false) as [Hv1 Hv2].
  { unfold value. rewrite !has_char_app, !(clean_has_char _ (to_string _)); auto. }
  assert (has_char ":" (indent +:+ base_transform n +:+ indent +:+ "clip-path")
          = false) as Hp1 by (rewrite !has_char_app, Hc; reflexivity).
  assert (has_char ";" (indent +:+ base_transform n +:+ indent +:+ "clip-path")
          = false) as Hp2 by (rewrite !has_char_app, Hs; reflexivity).
  unfold css_to_keyframe. rewrite split_app, has_char_split.
  2: { rewrite has_char_app, Hp2. cbn [has_char]. by rewrite Hv2. }
  cbn [app css_to_keyframe_loop].
  rewrite split_app, (has_char_split _ _ Hp1), (has_char_split _ _ Hv1).
  cbn [app].
  destruct (indent +:+ base_transform n +:+ indent +:+ "clip-path")
    as [|c property] eqn:Hprop.
  { unfold indent in Hprop. by rewrite append_String in Hprop. }
  rewrite <- Hprop.
  change (trim (indent +:+ base_transform n +:+ indent +:+ "clip-path"))
    with (trim (base_transform n +:+ indent +:+ "clip-path")).
  destruct (css_property_to_camelcase _) as [name| |]; cbn [cbind]; [|done..].
  rewrite css_to_keyframe_loop_declarations by
    (unfold translatable, rest; cbn [forallb fst snd];
     rewrite ?has_char_app, !(clean_has_char _ (to_string _)); auto).
  unfold rest. cbn [fold_left fst snd]. name_of_declaration.
  rewrite ?(append_String " "), ?append_empty_l, ?trim_space.
  rewrite (clean_trim (to_string _)) by apply to_string_clean.
  do 3 f_equal. unfold value, trim.
  assert (∀ x, trim_start (" inset(0 " +:+ x) = "inset(0 " +:+ x) as -> by done.
  assert (∀ x, trim_end (x +:+ "% 0 0)") = x +:+ "% 0 0)") as Hend
    by (intros x; by apply trim_end_app).
  rewrite trim_end_app; rewrite Hend; [done|].
  by destruct (to_string _).
Qed.

(** X16. the texts of [fadeSlide], [popScale], [spinIn], [bounceScale],
    [flip3D] and [scaleAndRotate] translate, at every [t] and [u] and
    without raising, into keyframes with the properties [transform] and
    [opacity] (and [transformOrigin] for [flip3D]), when the texts of
    numbers hold no [;], [:] or white space and the computed transform
    holds no [;] or [:]. *)
Theorem catalog_keyframes (n : NodeState) (ps : TransitionParams)
    (t u : number) :
  has_char ":" (base_transform n) = false →
  has_char ";" (base_transform n) = false →
  let target := target_opacity to_number n in
  let transform := base_transform n in
  let start := default (round64 (95 # 100)) (p_start ps) in
  let opacity := default (of_Z 0) (p_opacity ps) in
  let degrees := default (of_Z 180) (p_degrees ps) in
  let y := default (of_Z 20) (p_y ps) in
  css_to_keyframe (styles_at (fadeSlide to_number to_string n ps) t u)
  = Normal
      (<["transform" :=
           trim (transform +:+ " translate3d("
                 +:+ to_string (scaled (p_x ps) u) +:+ "px, "
                 +:+ to_string (scaled (p_y ps) u) +:+ "px, 0)")]>
         (<["opacity" := to_string (nmul target t)]> ∅))
  ∧ css_to_keyframe (styles_at (popScale to_number to_string n ps) t u)
    = Normal
        (<["opacity" := to_string (nadd opacity (nmul (nsub target opacity) t))]>
           (<["transform" :=
                trim (transform +:+ " scale("
                      +:+ to_string (nadd start (nmul (nsub (of_Z 1) start) t))
                      +:+ ")")]> ∅))
  ∧ css_to_keyframe (styles_at (spinIn to_number to_string n ps) t u)
    = Normal
        (<["opacity" := to_string (nmul target t)]>
           (<["transform" :=
                trim (transform +:+ " rotate("
                      +:+ to_string (nmul degrees (nsub (of_Z 1) t))
                      +:+ "deg) translateY("
                      +:+ to_string (nmul y (nsub (of_Z 1) t)) +:+ "px)")]> ∅))
  ∧ css_to_keyframe (styles_at (bounceScale to_number to_string n ps) t u)
    = Normal
        (<["opacity" := to_string (nmul target t)]>
           (<["transform" :=
                trim (transform +:+ " scale("
                      +:+ to_string
                            (nadd (of_Z 1)
                               (nmul (round64 (1 # 10)) (nsub (of_Z 1) t)))
                      +:+ ")")]> ∅))
  ∧ css_to_keyframe (styles_at (flip3D to_number to_string n ps) t u)
    = Normal
        (<["transformOrigin" := "50% 100%"]>
           (<["opacity" := to_string (nmul target t)]>
              (<["transform" :=
                   trim (transform +:+ " perspective(1000px) rotateX("
                         +:+ to_string (nmul (of_Z 90) u) +:+ "deg)")]> ∅)))
  ∧ css_to_keyframe (styles_at (scaleAndRotate to_number to_string n ps) t u)
    = Normal
        (<["opacity" := to_string (nadd opacity (nmul (nsub target opacity) t))]>
           (<["transform" :=
                trim (transform +:+ " scale("
                      +:+ to_string (nadd start (nmul (nsub (of_Z 1) start) t))
                      +:+ ") rotate("
                      +:+ to_string (nmul degrees (nsub (of_Z 1) t))
                      +:+ "deg) translateY("
                      +:+ to_string (nmul y (nsub (of_Z 1) t)) +:+ "px)")]> ∅)).
Proof.
  intros Hc Hs. cbv zeta. split_and!.
  - by apply fadeSlide_keyframe.
  - by apply popScale_keyframe.
  - by apply spinIn_keyframe.
  - by apply bounceScale_keyframe.
  - by apply flip3D_keyframe.
  - by apply scaleAndRotate_keyframe.
Qed.

(** X17. the text of [revealSlide] puts the computed transform, bare, in
    front of its [clip-path] declaration.  On a node without transform
    the keyframe has [clipPath] and [opacity]; on a node with a transform
    the first property name is the transform followed by [clip-path], and
    the keyframe, when the translator returns one, has no [clipPath]. *)
Theorem revealSlide_keyframe (n : NodeState) (ps : TransitionParams)
    (t u : number) :
  has_char ":" (base_transform n) = false →
  has_char ";" (base_transform n) = false →
  let clip := "inset(0 " +:+ to_string (nsub (of_Z 100) (nmul t (of_Z 100)))
              +:+ "% 0 0)" in
  let opacity := to_string (nmul (target_opacity to_number n) t) in
  (base_transform n = "" →
   css_to_keyframe (styles_at (revealSlide to_number to_string n ps) t u)
   = Normal (<["opacity" := opacity]> (<["clipPath" := clip]> ∅)))
  ∧ (trim (base_transform n) ≠ "" →
     ∀ kf, css_to_keyframe (styles_at (revealSlide to_number to_string n ps) t u)
           = Normal kf →
           kf !! "clipPath" = None ∧ kf !! "opacity" = Some opacity).
Proof.
  intros Hc Hs clip opacity.
  rewrite (revealSlide_translation n ps t u Hc Hs). fold clip opacity. split.
  - intros ->. reflexivity.
  - intros Hblank kf.
    destruct (css_property_to_camelcase _) as [name| |] eqn:Hname; [|done..].
    cbn [cbind]. intros [= <-].
    apply camelcase_keeps_line_feed in Hname.
    assert (has_char "010" name = true) as Hnl.
    { rewrite Hname. unfold trim.
      rewrite trim_start_app by (by apply trim_blank).
      replace (trim_start (base_transform n) +:+ indent +:+ "clip-path")
        with ((trim_start (base_transform n) +:+ indent) +:+ "clip-path")
        by apply append_assoc.
      rewrite trim_end_app by done. rewrite !has_char_app.
      change (has_char "010" indent) with true. by rewrite orb_true_r. }
    assert (name ≠ "clipPath" ∧ name ≠ "opacity") as [Hn1 Hn2]
      by (split; intros ->; done).
    split.
    + by rewrite !lookup_insert_ne.
    + by rewrite lookup_insert_eq.
Qed.

End CatalogProperties.

Lemma catalog_keyframes_witness :
  css_to_keyframe
    (styles_at (fadeSlide number_of show
                  (styled_node "1" "matrix(1, 0, 0, 1, 0, 0)")
                  {| p_delay := None; p_duration := None; p_easing := None;
                     p_x := None; p_y := Some (of_Z 50); p_start := None;
                     p_opacity := None; p_degrees := None |})
       (of_Z 0) (of_Z 1))
  = Normal
      (<["transform" := "matrix(1, 0, 0, 1, 0, 0) translate3d(0px, 50px, 0)"]>
         (<["opacity" := "0"]> ∅)).
Proof.
  etrans.
  - exact (proj1 (catalog_keyframes number_of show show_clean
                    (styled_node "1" "matrix(1, 0, 0, 1, 0, 0)")
                    {| p_delay := None; p_duration := None; p_easing := None;
                       p_x := None; p_y := Some (of_Z 50); p_start := None;
                       p_opacity := None; p_degrees := None |}
                    (of_Z 0) (of_Z 1) eq_refl eq_refl)).
  - reflexivity.
Defined.

Lemma revealSlide_keyframe_witness :
  css_to_keyframe
    (styles_at (revealSlide number_of show (styled_node "1" "none") no_params)
       (of_Z 1) (of_Z 0))
  = Normal (<["opacity" := "1"]> (<["clipPath" := "inset(0 0% 0 0)"]> ∅))
  ∧ css_to_keyframe
      (styles_at (revealSlide number_of show
                    (styled_node "1" "matrix(1, 0, 0, 1, 0, 0)") no_params)
         (of_Z 1) (of_Z 0))
    = Normal
        (<["opacity" := "1"]>
           (<["matrix(1, 0, 0, 1, 0, 0)" +:+ indent +:+ "clipPath"
              := "inset(0 0% 0 0)"]> ∅)).
Proof.
  split.
  - etrans.
    + exact (proj1 (revealSlide_keyframe number_of show show_clean
                      (styled_node "1" "none") no_params
                      (of_Z 1) (of_Z 0) eq_refl eq_refl) eq_refl).
    + reflexivity.
  - reflexivity.
Defined.

(** ** [initHoverAnimation] *)





(** ** [update] after the trigger has fired *)

Lemma step_spent n k (e : Event) (w : World) :
  fixed_configuration e = true → spent n k w → spent n k (step e w).
Proof.
  intros He (Hm & Honce & Ha & Hq & Hp & Hn & Hr).
  destruct (step_configuration e w He) as (_ & _ & _ & Honce' & Hm').
  destruct (step_animated e w He (fun _ => Hq)) as [_ Ha'].
  pose proof (step_quiet e w He Hq) as Hq'.
  assert (node (step e w) = node w ∧ pending (step e w) = pending w
          ∧ length (runs (step e w)) = length (runs w)) as (Hn' & Hp' & Hr').
  { destruct e as [o b| | | |a| |p|r|r cb]; try discriminate.
    - assert (keeps_bare w (step (Intersect o b) w)
              ∧ keeps_start w (step (Intersect o b) w)) as [Hb Hs].
      { split; (apply step_preserves; [apply _|]).
        all: unfold handle; rewrite bind_get;
          (destruct (observers w !! o) as [ob|]; [|done]);
          (destruct (connected ob); [|done]); (destruct b; [|done]);
          unfold observer_callback; unfold bind at 1;
          rewrite (start_animation_guard w Ha Honce); cbn [fst snd].
        all: generalize w.
        - lazymatch goal with
          | |- ∀ w, keeps_bare w (fst (?m w)) => change (preserves keeps_bare m)
          end.
          frame fail keeps_bare_leaf.
        - lazymatch goal with
          | |- ∀ w, keeps_start w (fst (?m w)) => change (preserves keeps_start m)
          end.
          frame fail keeps_start_leaf. }
      destruct Hb as (_ & ? & _ & _ & ?). by destruct Hs as (_ & _ & _ & _ & ?).
    - assert (keeps_bare w (step MouseEnter w) ∧ keeps_start w (step MouseEnter w))
        as [Hb Hs].
      { split; (apply step_preserves; [apply _|]); generalize w.
        - frame_handle fail keeps_bare_leaf.
        - frame_handle fail keeps_start_leaf. }
      destruct Hb as (_ & ? & _ & _ & ?). by destruct Hs as (_ & _ & _ & _ & ?).
    - assert (keeps_bare w (step MouseLeave w) ∧ keeps_start w (step MouseLeave w))
        as [Hb Hs].
      { split; (apply step_preserves; [apply _|]); generalize w.
        - frame_handle fail keeps_bare_leaf.
        - frame_handle fail keeps_start_leaf. }
      destruct Hb as (_ & ? & _ & _ & ?). by destruct Hs as (_ & _ & _ & _ & ?).
    - rewrite step_idle; [done|]. unfold handle. by rewrite bind_get, Hp.
    - assert (keeps_bare w (step (AnimationFinish a) w)
              ∧ keeps_start w (step (AnimationFinish a) w)) as [Hb Hs].
      { split; (apply step_preserves; [apply _|]); generalize w.
        - frame_handle fail keeps_bare_leaf.
        - frame_handle fail keeps_start_leaf. }
      destruct Hb as (_ & ? & _ & _ & ?). by destruct Hs as (_ & _ & _ & _ & ?).
    - destruct (hung w) eqn:Hh; [unfold step; by rewrite Hh|].
      by destruct (step_destroy w Hh) as [-> | ->]. }
  unfold spent. rewrite Hm', Honce', Hn', Hp', Hr'.
  split_and!; try done. by apply Ha'; [congruence|].
Qed.

Lemma run_spent n k (es : list Event) :
  ∀ w, forallb fixed_configuration es = true → spent n k w →
       spent n k (run es w).
Proof.
  induction es as [|e es IH]; intros w Hes Hw; [done|].
  cbn [forallb] in Hes. apply andb_prop in Hes as [He Hes].
  cbn [run fold_left]. apply IH; [done|]. by apply step_spent.
Qed.

Lemma update_spent (p : MicroanimationParameters) (w : World) :
  hung w = false → animated (orch w) = true → quiet w → pending w = [] →
  default viewport (new_mode p) = viewport → default true (new_once p) = true →
  spent (hidden (node w)) (length (runs w)) (step (Update p) w).
Proof.
  intros Hh Ha (He & Hl & Hv) Hp Hmode Honce.
  assert (step (Update p) w
          = viewport_setup (with_orch (reseeded p (orch w))
                              (disconnect_current (abort_in_flight w)))) as ->.
  { apply step_running; [done|]. change (handle (Update p) w) with (update p w).
    rewrite update_unfold. apply setup_viewport_effect.
    destruct (disconnect_current _). cbn. done. }
  rewrite abort_in_flight_eq. unfold disconnect_current, spent, quiet.
  destruct_orch w. cbn -[alter aborted_animations] in *. subst.
  destruct v_observer; cbn -[alter aborted_animations]; by rewrite Hmode, Honce.
Qed.

(** C5, evaluated on the code.  [update] is not a detach followed by a
    fresh attachment.  In a world where the trigger has fired and its ticks
    have run ([animated] is set, nothing waits for a tick), an update to
    viewport mode with [once] hides the node again, as [setup] does, and
    leaves [animated] set: whatever events follow under that configuration,
    the trigger returns at once, the node keeps [display: none] and is not
    visible, and no run is started. *)
Theorem update_after_trigger_leaves_node_hidden (p : MicroanimationParameters)
    (w : World) (es : list Event) :
  hung w = false → animated (orch w) = true → quiet w → pending w = [] →
  default viewport (new_mode p) = viewport → default true (new_once p) = true →
  forallb fixed_configuration es = true →
  let w' := run es (step (Update p) w) in
  node w' = hidden (node w)
  ∧ visible w' = false
  ∧ length (runs w') = length (runs w).
Proof.
  intros Hh Ha Hq Hp Hmode Honce Hes w'.
  destruct (run_spent _ _ es _ Hes (update_spent p w Hh Ha Hq Hp Hmode Honce))
    as (_ & _ & _ & _ & _ & Hn & Hr).
  fold w' in Hn, Hr. split_and!; [done| |done].
  unfold visible. rewrite Hn, hidden_display. cbn. apply andb_false_r.
Qed.

(** The fade in viewport mode: once the node has been shown, an update
    with the same parameters hides it, and the entry delivered to the new
    observer does not show it; after a detach and a fresh attachment the
    same entry shows it. *)
Lemma update_after_trigger_witness :
  visible shown_page = true
  ∧ visible (run [Intersect 1 true; Microtask; Microtask]
               (step (Update (fade_in None)) shown_page)) = false
  ∧ length (runs (run [Intersect 1 true; Microtask; Microtask]
                    (step (Update (fade_in None)) shown_page)))
    = length (runs shown_page)
  ∧ visible (run [Intersect 1 true; Microtask; Microtask]
               (reattach (fade_in None) shown_page)) = true
  ∧ length (runs (run [Intersect 1 true; Microtask; Microtask]
                    (reattach (fade_in None) shown_page)))
    = S (length (runs shown_page)).
Proof.
  pose proof (update_after_trigger_leaves_node_hidden (fade_in None) shown_page
                [Intersect 1 true; Microtask; Microtask]
                eq_refl eq_refl (conj eq_refl (conj eq_refl eq_refl)) eq_refl
                eq_refl eq_refl eq_refl) as (_ & Hv & Hr).
  split_and!; [reflexivity|exact Hv|exact Hr|reflexivity..].
Defined.
